(** * brewery: pipes and nodes

    A shallow embedding of [brewery/pipes/base.py] and
    [brewery/nodes/base.py]: the batching [Pipe] between two node threads,
    the dummy [SimpleDataPipe], and the [Node] / [SourceNode] /
    [TargetNode] classes.

    Python objects that are mutated in place and shared (the list behind
    [self.buffer], which [queue.put(self.buffer)] hands to the consumer by
    reference) live in a per-pipe store of list objects; the pipe and the
    queue hold addresses into it. *)

From stdpp Require Import base option list strings gmap.
From Stdlib Require Import ZArith Lia.

Open Scope Z_scope.

(** ** Values, rows, records, exceptions *)

Inductive value :=
| VNone
| VInt (n : Z)
| VStr (s : string).

(** A row is a Python list of scalar values; a record is a [dict] from
    field names to values. *)
Abbreviation row := (list value).
Abbreviation record := (gmap string value) (only parsing).

Inductive exn :=
| Exception (msg : string)
| AttributeError (msg : string)
| RuntimeError (msg : string)
| ValueError (msg : string)
| NotImplementedError (msg : string)
| NodeFinished
| DanglingReference.   (* model only: an address outside the store *)

(** Outcome of a method call on a state of type [A]: it returns, an
    exception escapes, or the calling thread is suspended inside a
    blocking queue operation.  The state is the one reached so far. *)
Inductive result (A : Type) :=
| Return (a : A)
| Raise (e : exn) (a : A)
| Blocks (a : A).
Arguments Return {A} a.
Arguments Raise {A} e a.
Arguments Blocks {A} a.

Definition bind {A B} (r : result A) (k : A -> result B) (back : A -> B)
  : result B :=
  match r with
  | Return a => k a
  | Raise e a => Raise e (back a)
  | Blocks a => Blocks (back a)
  end.

(** ** The store of list objects *)

Abbreviation ref := nat (only parsing).
Abbreviation store := (list (list row)) (only parsing).

Definition deref (h : store) (a : ref) : list row := default [] (h !! a).

(** [l.append(x)] on the list object at address [a]. *)
Definition list_append (h : store) (a : ref) (x : row) : store :=
  alter (fun l => l ++ [x]) a h.

(** [[]]: a fresh list object; its address is the next free one. *)
Definition list_new (h : store) : store * ref := (h ++ [[]], length h).

(** ** [Queue.Queue] of the Python library, as the pipe uses it *)

Record Queue := mkQueue {
  maxsize : Z;
  items : list ref;
  unfinished_tasks : nat
}.

Definition Queue_init (maxsize : Z) : Queue := mkQueue maxsize [] 0.

Definition qsize (q : Queue) : nat := length (items q).

Definition Queue_empty (q : Queue) : bool :=
  match items q with [] => true | _ => false end.

(** [put] waits while [maxsize > 0] and the queue holds [maxsize] items. *)
Definition Queue_full (q : Queue) : bool :=
  (0 <? maxsize q) && (Z.of_nat (qsize q) =? maxsize q).

(** [q.put(x)]: [None] when the caller has to wait. *)
Definition Queue_put (q : Queue) (x : ref) : option Queue :=
  if Queue_full q then None
  else Some (mkQueue (maxsize q) (items q ++ [x]) (S (unfinished_tasks q))).

(** [q.get()] ([None]: the caller has to wait) and [q.get_nowait()]
    ([None]: [Queue.Empty] is raised). *)
Definition Queue_get (q : Queue) : option (ref * Queue) :=
  match items q with
  | [] => None
  | x :: rest => Some (x, mkQueue (maxsize q) rest (unfinished_tasks q))
  end.

(** [q.task_done()]: [None] when it raises [ValueError]. *)
Definition Queue_task_done (q : Queue) : option Queue :=
  match unfinished_tasks q with
  | O => None
  | S n => Some (mkQueue (maxsize q) (items q) n)
  end.

(** ** Pipe objects *)

Inductive pipe_class := ClsSimpleDataPipe | ClsPipe.

(** Modelled from the spec: the field-list type [FieldList] (its module,
    [brewery.metadata], is not among the sources) is "an ordered sequence
    of field names"; [names()] returns them. *)
Abbreviation FieldList := (list string).
Definition names (f : FieldList) : list string := f.

(** One record for both classes; [buffer_size], [queue_size], [queue] and
    [finished] are attributes of [Pipe] only. *)
Record Pipe := mkPipe {
  cls : pipe_class;
  heap : store;
  buffer : ref;
  fields : option FieldList;
  stop_sending : bool;
  buffer_size : Z;
  queue_size : Z;
  queue : Queue;
  finished : bool
}.

Definition set_heap (p : Pipe) (h : store) : Pipe :=
  mkPipe (cls p) h (buffer p) (fields p) (stop_sending p)
         (buffer_size p) (queue_size p) (queue p) (finished p).
Definition set_buffer (p : Pipe) (b : ref) : Pipe :=
  mkPipe (cls p) (heap p) b (fields p) (stop_sending p)
         (buffer_size p) (queue_size p) (queue p) (finished p).
Definition set_fields (p : Pipe) (f : option FieldList) : Pipe :=
  mkPipe (cls p) (heap p) (buffer p) f (stop_sending p)
         (buffer_size p) (queue_size p) (queue p) (finished p).
Definition set_stop_sending (p : Pipe) (b : bool) : Pipe :=
  mkPipe (cls p) (heap p) (buffer p) (fields p) b
         (buffer_size p) (queue_size p) (queue p) (finished p).
Definition set_queue (p : Pipe) (q : Queue) : Pipe :=
  mkPipe (cls p) (heap p) (buffer p) (fields p) (stop_sending p)
         (buffer_size p) (queue_size p) q (finished p).
Definition set_finished (p : Pipe) (b : bool) : Pipe :=
  mkPipe (cls p) (heap p) (buffer p) (fields p) (stop_sending p)
         (buffer_size p) (queue_size p) (queue p) b.

(** [self.buffer = []] *)
Definition new_buffer (p : Pipe) : Pipe :=
  let '(h, a) := list_new (heap p) in set_buffer (set_heap p h) a.

(** The rows in the list behind [self.buffer]. *)
Definition buffered (p : Pipe) : list row := deref (heap p) (buffer p).

(** The batches in the queue, oldest first, as the consumer would find
    them now. *)
Definition queued (p : Pipe) : list (list row) :=
  map (deref (heap p)) (items (queue p)).

(** *** class SimpleDataPipe *)

Definition SimpleDataPipe_init : Pipe :=
  mkPipe ClsSimpleDataPipe [[]] 0%nat None false 0 0 (Queue_init 0) false.

Definition SimpleDataPipe_rows (p : Pipe) : list row := buffered p.

Definition SimpleDataPipe_put (p : Pipe) (obj : row) : result Pipe :=
  Return (set_heap p (list_append (heap p) (buffer p) obj)).

Definition SimpleDataPipe_stop (p : Pipe) : Pipe := set_stop_sending p true.

Definition SimpleDataPipe_flush (p : Pipe) : result Pipe := Return p.

Definition SimpleDataPipe_empty (p : Pipe) : Pipe := new_buffer p.

(** *** class Pipe(SimpleDataPipe) *)

(** [Pipe(buffer_size, queue_size)]: the base initializer allocates one
    list, the subclass initializer a second one. *)
Definition Pipe_init (buffer_size queue_size : Z) : Pipe :=
  mkPipe ClsPipe [[]; []] 1%nat None false
         buffer_size queue_size (Queue_init queue_size) false.

Definition Pipe__send_buffer (p : Pipe) : result Pipe :=
  if stop_sending p then Return p
  else match Queue_put (queue p) (buffer p) with
       | Some q => Return (set_queue p q)
       | None => Blocks p
       end.

Definition Pipe_put (p : Pipe) (obj : row) : result Pipe :=
  if stop_sending p then Return p
  else
    let p1 := set_heap p (list_append (heap p) (buffer p) obj) in
    if buffer_size p1 <=? Z.of_nat (length (buffered p1)) then
      bind (Pipe__send_buffer p1) (fun p2 => Return (new_buffer p2)) id
    else Return p1.

Definition Pipe_flush (p : Pipe) : result Pipe :=
  bind (Pipe__send_buffer p) (fun p1 => Return (set_finished p1 true)) id.

(** The loop of [stop]: [get_nowait()] until [Queue.Empty]; each round
    removes the oldest batch and drops it. *)
Fixpoint drain_queue (its : list ref) : list ref :=
  match its with
  | [] => []
  | _ :: rest => drain_queue rest
  end.

Definition Pipe_stop (p : Pipe) : Pipe :=
  let p1 := set_stop_sending p true in
  set_queue p1 (mkQueue (maxsize (queue p1)) (drain_queue (items (queue p1)))
                        (unfinished_tasks (queue p1))).

(** Method dispatch on the class of the receiver. *)
Definition pipe_put (p : Pipe) (obj : row) : result Pipe :=
  match cls p with
  | ClsSimpleDataPipe => SimpleDataPipe_put p obj
  | ClsPipe => Pipe_put p obj
  end.

Definition pipe_flush (p : Pipe) : result Pipe :=
  match cls p with
  | ClsSimpleDataPipe => SimpleDataPipe_flush p
  | ClsPipe => Pipe_flush p
  end.

Definition pipe_stop (p : Pipe) : Pipe :=
  match cls p with
  | ClsSimpleDataPipe => SimpleDataPipe_stop p
  | ClsPipe => Pipe_stop p
  end.

(** *** Record view *)

(** [record.get(field)]: the value, or [None] for an absent key. *)
Definition record_get (r : record) (field : string) : value :=
  default VNone (r !! field).

(** The loop of [put_record]: [row.append(record.get(field))] for each
    field name in turn. *)
Fixpoint put_record_loop (r : record) (fs : list string) (row0 : row) : row :=
  match fs with
  | [] => row0
  | field :: rest => put_record_loop r rest (row0 ++ [record_get r field])
  end.

(** [put_record] is defined in [SimpleDataPipe] and inherited by [Pipe];
    [self.put] is the put of the receiver's class.  With [self.fields]
    being [None], [self.fields.names()] raises [AttributeError]. *)
Definition SimpleDataPipe_put_record (p : Pipe) (r : record) : result Pipe :=
  match fields p with
  | None => Raise (AttributeError "'NoneType' object has no attribute 'names'") p
  | Some fl => pipe_put p (put_record_loop r (names fl) [])
  end.

(** [dict(zip(fields, row))]: pairs up to the shorter length, a later
    pair overriding an earlier one with the same name. *)
Definition dict_zip (fs : list string) (r : row) : record :=
  fold_left (fun m kv => <[kv.1 := kv.2]> m) (zip fs r) ∅.

(** Modelled from the spec: truth value of a [FieldList] object
    ([brewery.metadata] is not among the sources); "record-view conversion
    requires it to be non-empty", so an empty list counts as not set. *)
Definition fields_missing (f : option FieldList) : bool :=
  match f with
  | None => true
  | Some fl => match names fl with [] => true | _ => false end
  end.

(** ** Generators *)

(** [Pipe.rows()] is a generator.  Its control points:
    - [RGet]: at [data_buffer = self.queue.get()];
    - [RFor b i]: in [for obj in data_buffer], the list iterator over the
      list at address [b] standing at index [i];
    - [RTaskDone]: at [self.queue.task_done()];
    - [RCheck]: at [if self.finished and self.queue.empty(): break]
      ([finished] is never reset, so reading the two one after the other
      equals reading them at once);
    - [RStop]: the generator has returned; [RRaised e]: it has raised. *)
Inductive rows_pc :=
| RGet
| RFor (data_buffer : ref) (i : nat)
| RTaskDone
| RCheck
| RStop
| RRaised (e : exn).

(** One step of the generator: the new pipe, the new control point and
    the row yielded, if the step is a [yield].  [None]: no step, the
    generator waits in [queue.get()] or is over. *)
Definition rows_step (p : Pipe) (pc : rows_pc)
  : option (Pipe * rows_pc * option row) :=
  match pc with
  | RGet =>
      match Queue_get (queue p) with
      | None => None
      | Some (b, q) => Some (set_queue p q, RFor b 0%nat, None)
      end
  | RFor b i =>
      match deref (heap p) b !! i with
      | Some obj => Some (p, RFor b (S i), Some obj)
      | None => Some (p, RTaskDone, None)
      end
  | RTaskDone =>
      match Queue_task_done (queue p) with
      | Some q => Some (set_queue p q, RCheck, None)
      | None => Some (p, RRaised (ValueError "task_done() called too many times"), None)
      end
  | RCheck =>
      if finished p && Queue_empty (queue p) then Some (p, RStop, None)
      else Some (p, RGet, None)
  | RStop | RRaised _ => None
  end.

(** The consumer alone: [for row in pipe.rows(): seen.append(row)], run
    for at most [fuel] steps of the generator. *)
Fixpoint rows_drain (fuel : nat) (p : Pipe) (pc : rows_pc) (seen : list row)
  : Pipe * rows_pc * list row :=
  match fuel with
  | O => (p, pc, seen)
  | S fuel' =>
      match rows_step p pc with
      | None => (p, pc, seen)
      | Some (p', pc', None) => rows_drain fuel' p' pc' seen
      | Some (p', pc', Some obj) => rows_drain fuel' p' pc' (seen ++ [obj])
      end
  end.

(** The iterator behind [self.rows()] in [records]: the buffer list
    itself for a [SimpleDataPipe], the generator for a [Pipe]. *)
Inductive rows_iter :=
| IterList (b : ref) (i : nat)
| IterGen (g : rows_pc).

Definition pipe_rows (p : Pipe) : rows_iter :=
  match cls p with
  | ClsSimpleDataPipe => IterList (buffer p) 0%nat
  | ClsPipe => IterGen RGet
  end.

(** [records()] (same text in both classes) is a generator too: nothing
    runs before the first [next()]. *)
Inductive records_pc :=
| RecStart
| RecFor (fs : list string) (it : rows_iter)
| RecStop
| RecRaised (e : exn).

Definition records_step (p : Pipe) (pc : records_pc)
  : option (Pipe * records_pc * option record) :=
  match pc with
  | RecStart =>
      if fields_missing (fields p) then
        Some (p, RecRaised (Exception "Can not provide records: fields for pipe are not initialized."), None)
      else
        match fields p with
        | Some fl => Some (p, RecFor (names fl) (pipe_rows p), None)
        | None => None
        end
  | RecFor fs (IterList b i) =>
      match deref (heap p) b !! i with
      | Some r => Some (p, RecFor fs (IterList b (S i)), Some (dict_zip fs r))
      | None => Some (p, RecStop, None)
      end
  | RecFor fs (IterGen g) =>
      match rows_step p g with
      | Some (p', RStop, _) => Some (p', RecStop, None)
      | Some (p', RRaised e, _) => Some (p', RecRaised e, None)
      | Some (p', g', o) => Some (p', RecFor fs (IterGen g'), dict_zip fs <$> o)
      | None => None
      end
  | RecStop | RecRaised _ => None
  end.

(** ** Nodes *)

Inductive node_class := ClsNode | ClsSourceNode | ClsTargetNode.

(** Pipes are shared between the node that writes and the node that
    reads: a node holds the addresses of its pipes in a store of pipe
    objects.  (The attribute [fields] that the initializers of the two
    subclasses set to [None] is read by no method and is left out.) *)
Record Node := mkNode {
  ncls : node_class;
  inputs : list nat;
  outputs : list nat;
  _active_outputs : list nat;
  description : option string
}.

Definition Node_init (c : node_class) : Node := mkNode c [] [] [] None.

Definition set_inputs (n : Node) (l : list nat) : Node :=
  mkNode (ncls n) l (outputs n) (_active_outputs n) (description n).
Definition set_outputs (n : Node) (l : list nat) : Node :=
  mkNode (ncls n) (inputs n) l (_active_outputs n) (description n).

(** [Node.input] *)
Definition Node_input (n : Node) : result nat :=
  match inputs n with
  | [pipe] => Return pipe
  | _ => Raise (Exception "Single input requested. Node has none or more than one input (%d).") 0%nat
  end.

(** [add_input]: overridden in [SourceNode]. *)
Definition Node_add_input (n : Node) (pipe : nat) : result Node :=
  match ncls n with
  | ClsSourceNode => Raise (Exception "Should not add input pipe to a source node") n
  | _ =>
      if bool_decide (pipe ∈ inputs n) then
        Raise (Exception "Input %s already connected") n
      else Return (set_inputs n (inputs n ++ [pipe]))
  end.

(** [add_output]: overridden in [TargetNode]. *)
Definition Node_add_output (n : Node) (pipe : nat) : result Node :=
  match ncls n with
  | ClsTargetNode => Raise (RuntimeError "Should not add output pipe to a target node") n
  | _ =>
      if bool_decide (pipe ∈ outputs n) then
        Raise (Exception "Output %s already connected") n
      else Return (set_outputs n (outputs n ++ [pipe]))
  end.

(** The property [output_fields]: overridden in both subclasses. *)
Definition Node_output_fields (n : Node) (st : list Pipe)
  : result (option FieldList) :=
  match ncls n with
  | ClsSourceNode =>
      Raise (NotImplementedError "SourceNode subclasses should implement output_fields") None
  | ClsTargetNode =>
      Raise (RuntimeError "Output fields asked from a target object.") None
  | ClsNode =>
      match inputs n with
      | [pipe] =>
          match st !! pipe with
          | None => Raise DanglingReference None
          | Some p =>
              if fields_missing (fields p) then
                Raise (ValueError "Can not get default list of output fields: input pipe fields are not initialized") None
              else Return (fields p)
          end
      | _ => Raise (ValueError "Can not get default list of output fields: node has more than one input or no input is provided. Subclasses should override this method") None
      end
  end.

(** The loop of [Node.put] in [pipes/base.py]: [active_outputs] counts
    the outputs written. *)
Fixpoint Node_put_loop (outs : list nat) (obj : row) (st : list Pipe)
    (active_outputs : nat) : result (list Pipe * nat) :=
  match outs with
  | [] => Return (st, active_outputs)
  | o :: rest =>
      match st !! o with
      | None => Raise DanglingReference (st, active_outputs)
      | Some output =>
          if negb (stop_sending output) then
            bind (pipe_put output obj)
                 (fun output' =>
                    Node_put_loop rest obj (<[o := output']> st) (S active_outputs))
                 (fun output' => (<[o := output']> st, active_outputs))
          else Node_put_loop rest obj st active_outputs
      end
  end.

Definition Node_put (n : Node) (obj : row) (st : list Pipe)
  : result (list Pipe) :=
  bind (Node_put_loop (outputs n) obj st 0)
       (fun r => match r.2 with
                 | O => Raise NodeFinished r.1
                 | S _ => Return r.1
                 end)
       fst.

(** [Node.put_record]: the same text in both files. *)
Fixpoint Node_put_record_loop (outs : list nat) (obj : record)
    (st : list Pipe) : result (list Pipe) :=
  match outs with
  | [] => Return st
  | o :: rest =>
      match st !! o with
      | None => Raise DanglingReference st
      | Some output =>
          bind (SimpleDataPipe_put_record output obj)
               (fun output' => Node_put_record_loop rest obj (<[o := output']> st))
               (fun output' => <[o := output']> st)
      end
  end.

Definition Node_put_record (n : Node) (obj : record) (st : list Pipe)
  : result (list Pipe) :=
  Node_put_record_loop (outputs n) obj st.

(** [brewery/nodes/base.py]: the newer copy of the node classes.  Its
    text is that of [pipes/base.py] but for [Node.put], which asks
    [output.closed()]. *)
Module NodesBase.

(** Modelled from the spec: [closed()] is not defined by the pipe
    classes of [pipes/base.py]; a pipe not to be written is one
    "already closed for write (queried via each pipe's closed-for-write
    state)", the flag that [stop] sets. *)
Definition closed (p : Pipe) : bool := stop_sending p.

Fixpoint Node_put_loop (outs : list nat) (obj : row) (st : list Pipe)
    (active_outputs : nat) : result (list Pipe * nat) :=
  match outs with
  | [] => Return (st, active_outputs)
  | o :: rest =>
      match st !! o with
      | None => Raise DanglingReference (st, active_outputs)
      | Some output =>
          if negb (closed output) then
            bind (pipe_put output obj)
                 (fun output' =>
                    Node_put_loop rest obj (<[o := output']> st) (S active_outputs))
                 (fun output' => (<[o := output']> st, active_outputs))
          else Node_put_loop rest obj st active_outputs
      end
  end.

Definition Node_put (n : Node) (obj : row) (st : list Pipe)
  : result (list Pipe) :=
  bind (Node_put_loop (outputs n) obj st 0)
       (fun r => match r.2 with
                 | O => Raise NodeFinished r.1
                 | S _ => Return r.1
                 end)
       fst.

End NodesBase.

(** ** The two threads of a pipe *)

(** [stop()], step by step, for the thread that reads: [SFlag] at
    [self.stop_sending = True], [SDrain] at [self.queue.get_nowait()],
    [SReturned] after [Queue.Empty] has ended the loop. *)
Inductive stop_pc := SFlag | SDrain | SReturned.

Definition stop_step (p : Pipe) (pc : stop_pc) : option (Pipe * stop_pc) :=
  match pc with
  | SFlag => Some (set_stop_sending p true, SDrain)
  | SDrain =>
      match Queue_get (queue p) with
      | Some (_, q) => Some (set_queue p q, SDrain)
      | None => Some (p, SReturned)
      end
  | SReturned => None
  end.

(** The states [stop()] goes through, the first one after its first
    step. *)
Fixpoint stop_trace (fuel : nat) (p : Pipe) (pc : stop_pc)
  : list (Pipe * stop_pc) :=
  match fuel with
  | O => []
  | S fuel' =>
      match stop_step p pc with
      | None => []
      | Some (p', pc') => (p', pc') :: stop_trace fuel' p' pc'
      end
  end.

(** The thread that writes runs a script of calls on the pipe. *)
Inductive call := CallPut (obj : row) | CallFlush.

(** [_send_buffer] is called from [put] and from [flush]. *)
Inductive caller := InPut | InFlush.

(** Control points of the writing thread:
    - [PIdle]: between two calls; the step from it enters the next call
      and, for [put], reads [stop_sending] (line 100);
    - [PAppend obj]: at [self.buffer.append(obj)];
    - [PLen]: at [if len(self.buffer) >= self.buffer_size];
    - [PSendCheck k]: in [_send_buffer], at [if self.stop_sending];
    - [PQueuePut k]: at [self.queue.put(self.buffer)], where the thread
      waits while the queue is full;
    - [PReset]: at [self.buffer = []] in [put];
    - [PFinish]: at [self.finished = True] in [flush]. *)
Inductive prod_pc :=
| PIdle
| PAppend (obj : row)
| PLen
| PSendCheck (k : caller)
| PQueuePut (k : caller)
| PReset
| PFinish.

Definition after_send (k : caller) : prod_pc :=
  match k with InPut => PReset | InFlush => PFinish end.

Definition prod_step (p : Pipe) (pc : prod_pc) (script : list call)
  : option (Pipe * prod_pc * list call) :=
  match pc with
  | PIdle =>
      match script with
      | [] => None
      | CallPut obj :: rest =>
          if stop_sending p then Some (p, PIdle, rest)
          else Some (p, PAppend obj, rest)
      | CallFlush :: rest => Some (p, PSendCheck InFlush, rest)
      end
  | PAppend obj =>
      Some (set_heap p (list_append (heap p) (buffer p) obj), PLen, script)
  | PLen =>
      if buffer_size p <=? Z.of_nat (length (buffered p))
      then Some (p, PSendCheck InPut, script)
      else Some (p, PIdle, script)
  | PSendCheck k =>
      if stop_sending p then Some (p, after_send k, script)
      else Some (p, PQueuePut k, script)
  | PQueuePut k =>
      match Queue_put (queue p) (buffer p) with
      | None => None
      | Some q => Some (set_queue p q, after_send k, script)
      end
  | PReset => Some (new_buffer p, PIdle, script)
  | PFinish => Some (set_finished p true, PIdle, script)
  end.

(** The writing thread alone, for at most [fuel] steps. *)
Fixpoint prod_run (fuel : nat) (p : Pipe) (pc : prod_pc) (script : list call)
  : Pipe * prod_pc * list call :=
  match fuel with
  | O => (p, pc, script)
  | S fuel' =>
      match prod_step p pc script with
      | None => (p, pc, script)
      | Some (p', pc', script') => prod_run fuel' p' pc' script'
      end
  end.

(** A pipe with its two threads: the writer with its script, the reader
    running [for row in pipe.rows(): seen.append(row)]. *)
Record Config := mkConfig {
  pipe : Pipe;
  ppc : prod_pc;
  script : list call;
  cpc : rows_pc;
  seen : list row
}.

Inductive thread := Producer | Consumer.

Definition step (t : thread) (c : Config) : option Config :=
  match t with
  | Producer =>
      match prod_step (pipe c) (ppc c) (script c) with
      | None => None
      | Some (p', pc', script') => Some (mkConfig p' pc' script' (cpc c) (seen c))
      end
  | Consumer =>
      match rows_step (pipe c) (cpc c) with
      | None => None
      | Some (p', pc', None) => Some (mkConfig p' (ppc c) (script c) pc' (seen c))
      | Some (p', pc', Some obj) =>
          Some (mkConfig p' (ppc c) (script c) pc' (seen c ++ [obj]))
      end
  end.

(** An interleaving is the list of the threads scheduled in turn; a
    thread that cannot move when scheduled waits and the turn passes. *)
Fixpoint run (sched : list thread) (c : Config) : Config :=
  match sched with
  | [] => c
  | t :: sched' =>
      match step t c with
      | None => run sched' c
      | Some c' => run sched' c'
      end
  end.

(** One particular scheduler: the writer moves whenever it can, the
    reader when the writer waits or is done. *)
Definition eager_step (c : Config) : option Config :=
  match step Producer c with
  | Some c' => Some c'
  | None => step Consumer c
  end.

Fixpoint eager_run (fuel : nat) (c : Config) : Config :=
  match fuel with
  | O => c
  | S fuel' =>
      match eager_step c with
      | None => c
      | Some c' => eager_run fuel' c'
      end
  end.

(** The writer puts [rows] and flushes; the reader has just called
    [rows()]. *)
Definition start (p : Pipe) (s : list call) : Config :=
  mkConfig p PIdle s RGet [].

Definition puts_then_flush (rows : list row) : list call :=
  map CallPut rows ++ [CallFlush].

(** Nothing is in flight: the script is over, the queue is empty and the
    reader holds no unread row of a batch. *)
Definition batch_rest (h : store) (g : rows_pc) : list row :=
  match g with
  | RFor b i => drop i (deref h b)
  | _ => []
  end.

Definition unread (c : Config) : list row :=
  batch_rest (heap (pipe c)) (cpc c).

Definition drained (c : Config) : Prop :=
  ppc c = PIdle /\ script c = [] /\ items (queue (pipe c)) = [] /\ unread c = [].

(** ** Calls in sequence, and vocabulary for the statements *)

Definition Pipe_call (c : call) (p : Pipe) : result Pipe :=
  match c with
  | CallPut obj => Pipe_put p obj
  | CallFlush => Pipe_flush p
  end.

(** A script run by one thread, call after call; it stops at the first
    call that does not return. *)
Fixpoint Pipe_calls (cs : list call) (p : Pipe) : result Pipe :=
  match cs with
  | [] => Return p
  | c :: rest => bind (Pipe_call c p) (Pipe_calls rest) id
  end.

Definition raises_NodeFinished {A} (r : result A) : bool :=
  match r with
  | Raise NodeFinished _ => true
  | _ => false
  end.

(** The outputs of a node that are closed for write, and those that are
    not, in a store of pipes. *)
Definition closed_at (st : list Pipe) (o : nat) : bool :=
  match st !! o with
  | Some p => stop_sending p
  | None => false
  end.

Definition closed_outputs (st : list Pipe) (outs : list nat) : list nat :=
  List.filter (closed_at st) outs.

Definition open_outputs (st : list Pipe) (outs : list nat) : list nat :=
  List.filter (fun o => negb (closed_at st o)) outs.

(** The rows a pipe of class [SimpleDataPipe] or [Pipe] holds for its
    reader: the batches queued, then the buffer. *)
Definition contents (p : Pipe) : list row := concat (queued p) ++ buffered p.

(** The pipe after [rows] have been appended to the list behind its
    buffer. *)
Definition extend_buffer (p : Pipe) (rows : list row) : Pipe :=
  set_heap p (alter (fun l => l ++ rows) (buffer p) (heap p)).

(** The address in [self.buffer] is that of a list in the store. *)
Definition buffer_live (p : Pipe) : Prop := (buffer p < length (heap p))%nat.

(** Steps the reader needs to consume the batches now in the queue: for
    each batch one [get], one step per row, the end of the [for] loop,
    [task_done] and the check. *)
Definition drain_fuel (p : Pipe) : nat :=
  sum_list (map (fun b => (length (deref (heap p) b) + 4)%nat) (items (queue p))).

(** A pipe nobody has used yet: open, not finished, with an empty
    buffer and an empty queue, as [Pipe(buffer_size, queue_size)] makes
    it (its [fields] may have been set since). *)
Definition fresh (p : Pipe) : Prop :=
  stop_sending p = false /\ finished p = false /\ buffer_live p
  /\ buffered p = [] /\ items (queue p) = [] /\ unfinished_tasks (queue p) = 0%nat.

(** ** The invariant of a run of [puts_then_flush rows] *)

(** The list behind [self.buffer] still belongs to the writer alone:
    it has not been handed to the queue since it was made. *)
Definition owns_buffer (pc : prod_pc) (s : list call) : bool :=
  match pc with
  | PReset | PFinish => false
  | PIdle => match s with [] => false | _ => true end
  | _ => true
  end.

(** Rows appended to the buffer and not yet handed to the queue. *)
Definition pending (c : Config) : list row :=
  if owns_buffer (ppc c) (script c) then buffered (pipe c) else [].

(** The script that is left, given the rows [todo] not yet appended. *)
Definition script_shape (pc : prod_pc) (s : list call) (todo : list row) : Prop :=
  match pc with
  | PIdle => s = puts_then_flush todo \/ (s = [] /\ todo = [])
  | PAppend obj => exists rest, todo = obj :: rest /\ s = puts_then_flush rest
  | PLen | PSendCheck InPut | PQueuePut InPut | PReset => s = puts_then_flush todo
  | PSendCheck InFlush | PQueuePut InFlush | PFinish => s = [] /\ todo = []
  end.

(** Batches the reader has taken from the queue without [task_done]. *)
Definition holding (g : rows_pc) : nat :=
  match g with
  | RFor _ _ | RTaskDone => 1
  | _ => 0
  end.

Record inv (rows : list row) (c : Config) : Prop := mkInv {
  inv_open : stop_sending (pipe c) = false;
  inv_rows : exists todo,
      script_shape (ppc c) (script c) todo
      /\ rows = (seen c ++ unread c ++ concat (queued (pipe c)) ++ pending c)
               ++ todo;
  inv_buffer_live : buffer_live (pipe c);
  inv_queue_live : forall b, b ∈ items (queue (pipe c)) ->
                             (b < length (heap (pipe c)))%nat;
  inv_batch_live : forall b i, cpc c = RFor b i ->
                               (b < length (heap (pipe c)))%nat;
  inv_own_queue : owns_buffer (ppc c) (script c) = true ->
                  buffer (pipe c) ∉ items (queue (pipe c));
  inv_own_batch : owns_buffer (ppc c) (script c) = true ->
                  forall b i, cpc c = RFor b i -> b <> buffer (pipe c);
  inv_finished : finished (pipe c) = true <-> ppc c = PIdle /\ script c = [];
  inv_cpc : match cpc c with
            | RRaised _ => False
            | RStop => finished (pipe c) = true /\ items (queue (pipe c)) = []
            | _ => True
            end;
  inv_tasks : (qsize (queue (pipe c)) + holding (cpc c)
               <= unfinished_tasks (queue (pipe c)))%nat
}.

(** What the eager scheduler keeps in addition: the writer never sets
    [finished], and is never done, with the reader about to wait on an
    empty queue. *)
Definition eager_inv (rows : list row) (c : Config) : Prop :=
  inv rows c
  /\ (ppc c = PFinish -> items (queue (pipe c)) <> [])
  /\ (ppc c = PIdle -> script c = [] -> cpc c = RGet ->
      items (queue (pipe c)) <> []).

(** A bound on the steps left. *)
Definition prod_rank (pc : prod_pc) : nat :=
  match pc with
  | PIdle => 0
  | PAppend _ => 10
  | PLen => 8
  | PSendCheck _ => 7
  | PQueuePut _ => 6
  | PReset | PFinish => 1
  end.

Definition cons_rank (g : rows_pc) : nat :=
  match g with
  | RFor _ _ => 3
  | RTaskDone => 2
  | RCheck => 1
  | _ => 0
  end.

Definition steps_left (rows : list row) (c : Config) : nat :=
  11 * length (script c) + prod_rank (ppc c)
  + 4 * qsize (queue (pipe c))
  + (length rows - length (seen c)) + cons_rank (cpc c).

(** ** More of the pipe and node classes *)

(** Puts in sequence, with the put of the receiver's class. *)
Fixpoint pipe_puts (rows : list row) (p : Pipe) : result Pipe :=
  match rows with
  | [] => Return p
  | obj :: rest => bind (pipe_put p obj) (pipe_puts rest) id
  end.

(** The reader of the record view alone:
    [for record in pipe.records(): seen.append(record)], for at most
    [fuel] steps of the generator. *)
Fixpoint records_drain (fuel : nat) (p : Pipe) (pc : records_pc)
    (seen : list (gmap string value))
  : Pipe * records_pc * list (gmap string value) :=
  match fuel with
  | O => (p, pc, seen)
  | S fuel' =>
      match records_step p pc with
      | None => (p, pc, seen)
      | Some (p', pc', None) => records_drain fuel' p' pc' seen
      | Some (p', pc', Some r) => records_drain fuel' p' pc' (seen ++ [r])
      end
  end.

(** Where [records()] stands when the [rows()] generator under it stands
    at [g]. *)
Definition records_over (fs : list string) (g : rows_pc) : records_pc :=
  match g with
  | RStop => RecStop
  | RRaised e => RecRaised e
  | _ => RecFor fs (IterGen g)
  end.

(** The property [input_fields]: [self.input.fields]. *)
Definition Node_input_fields (n : Node) (st : list Pipe)
  : result (option FieldList) :=
  match Node_input n with
  | Return pipe =>
      match st !! pipe with
      | Some p => Return (fields p)
      | None => Raise DanglingReference None
      end
  | Raise e _ => Raise e None
  | Blocks _ => Blocks None
  end.

(** The property [output_field_names]: [self.output_fields.names()]. *)
Definition Node_output_field_names (n : Node) (st : list Pipe)
  : result (list string) :=
  match Node_output_fields n st with
  | Return (Some fl) => Return (names fl)
  | Return None =>
      Raise (AttributeError "'NoneType' object has no attribute 'names'") []
  | Raise e _ => Raise e []
  | Blocks _ => Blocks []
  end.

(** Wiring a node: calls of [add_input] and [add_output] in sequence, up
    to the first one that raises. *)
Inductive wiring := AddInput (pipe : nat) | AddOutput (pipe : nat).

Definition Node_wire1 (w : wiring) (n : Node) : result Node :=
  match w with
  | AddInput pipe => Node_add_input n pipe
  | AddOutput pipe => Node_add_output n pipe
  end.

Fixpoint Node_wire (ws : list wiring) (n : Node) : result Node :=
  match ws with
  | [] => Return n
  | w :: rest => bind (Node_wire1 w n) (Node_wire rest) id
  end.

(** [Node.configure(config, protected)].  What the method reads and is
    not in the sources is a parameter:
    - [node_info]: the list [self.__node_info__["attributes"]] of
      attribute descriptions, each reduced to its ["name"] and to the
      truth value of its ["protected"] entry; [None] for a class without
      [__node_info__], as [Node], [SourceNode] and [TargetNode] are
      themselves, where line 219 raises [AttributeError];
    - [settable]: the names on which [setattr(self, name, value)]
      succeeds for this node; on the others it raises [AttributeError],
      as it does on a property without setter.
    The instance's attributes that [setattr] writes are a map from names
    to values, and [config] is given as the list of its items in the
    order the loop meets them. *)
Record attribute_info := mkAttribute {
  attr_name : string;
  attr_protected : bool
}.

(** The read-only properties that [Node] defines and its subclasses
    inherit ([SourceNode] and [TargetNode] redefine [output_fields] as
    a property again). *)
Definition Node_properties : list string :=
  ["input"; "input_fields"; "output_fields"; "output_field_names"]%string.


(** [dict((a["name"], a) for a in self.__node_info__["attributes"])] *)
Definition attributes_dict (infos : list attribute_info)
  : gmap string attribute_info :=
  fold_left (fun m a => <[attr_name a := a]> m) infos ∅.

Fixpoint Node_configure_loop (attributes : gmap string attribute_info)
    (settable : string -> bool)
    (protected : bool) (config : list (string * value))
    (attrs : gmap string value) : result (gmap string value) :=
  match config with
  | [] => Return attrs
  | (attribute, v) :: rest =>
      match attributes !! attribute with
      | None => Node_configure_loop attributes settable protected rest attrs
      | Some info =>
          if protected && attr_protected info then
            Raise (Exception "Trying to set protected attribute '%s' of node '%s'") attrs
          else if settable attribute then
            Node_configure_loop attributes settable protected rest
                                (<[attribute := v]> attrs)
          else Raise (AttributeError "can't set attribute") attrs
      end
  end.

Definition Node_configure (node_info : option (list attribute_info))
    (settable : string -> bool)
    (config : list (string * value)) (protected : bool)
    (attrs : gmap string value) : result (gmap string value) :=
  match node_info with
  | None => Raise (AttributeError "object has no attribute '__node_info__'") attrs
  | Some infos =>
      Node_configure_loop (attributes_dict infos) settable protected config attrs
  end.

(** The state a call has reached, whatever its outcome. *)
Definition outcome_state {A} (r : result A) : A :=
  match r with
  | Return a | Raise _ a | Blocks a => a
  end.

(** The pipes that the calls of a wiring add, in the order of the
    calls. *)
Fixpoint wired_inputs (ws : list wiring) : list nat :=
  match ws with
  | [] => []
  | AddInput pipe :: rest => pipe :: wired_inputs rest
  | AddOutput _ :: rest => wired_inputs rest
  end.

Fixpoint wired_outputs (ws : list wiring) : list nat :=
  match ws with
  | [] => []
  | AddInput _ :: rest => wired_outputs rest
  | AddOutput pipe :: rest => pipe :: wired_outputs rest
  end.

(** What every wiring of a node keeps: no pipe twice in a list, no
    input on a source node, no output on a target node. *)
Definition wired_ok (n : Node) : Prop :=
  NoDup (inputs n) /\ NoDup (outputs n)
  /\ (ncls n = ClsSourceNode -> inputs n = [])
  /\ (ncls n = ClsTargetNode -> outputs n = []).

(** ** A writer and a reader that stops *)

(** The reader gives up and calls [stop()] while the writer runs its
    script. *)
Record StopConfig := mkStopConfig {
  s_pipe : Pipe;
  s_ppc : prod_pc;
  s_script : list call;
  s_spc : stop_pc
}.

Inductive party := Writer | Stopper.

Definition stop_sys_step (t : party) (c : StopConfig) : option StopConfig :=
  match t with
  | Writer =>
      match prod_step (s_pipe c) (s_ppc c) (s_script c) with
      | None => None
      | Some (p', pc', script') => Some (mkStopConfig p' pc' script' (s_spc c))
      end
  | Stopper =>
      match stop_step (s_pipe c) (s_spc c) with
      | None => None
      | Some (p', spc') => Some (mkStopConfig p' (s_ppc c) (s_script c) spc')
      end
  end.

Fixpoint stop_sys_run (sched : list party) (c : StopConfig) : StopConfig :=
  match sched with
  | [] => c
  | t :: sched' =>
      match stop_sys_step t c with
      | None => stop_sys_run sched' c
      | Some c' => stop_sys_run sched' c'
      end
  end.

(** After [stop()] has returned the queue is empty, but for the one
    batch of a hand-over that had passed its check of [stop_sending]. *)
Definition after_stop (p : Pipe) (pc : prod_pc) : Prop :=
  stop_sending p = true
  /\ match pc with
     | PQueuePut _ => qsize (queue p) = 0%nat
     | _ => (qsize (queue p) <= 1)%nat
     end.

(** ** Vocabulary for batches *)

(** The buffer is a list of the store that is not in the queue, and the
    queue holds lists of the store. *)
Definition unshared (p : Pipe) : Prop :=
  buffer_live p
  /\ (forall b, b ∈ items (queue p) -> (b < length (heap p))%nat)
  /\ buffer p ∉ items (queue p).

(** Rows per batch: [buffer_size], and 1 when that is not positive. *)
Definition batch_size (p : Pipe) : Z := Z.max 1 (buffer_size p).

Definition is_flush (c : call) : bool :=
  match c with CallFlush => true | CallPut _ => false end.

(** ** The hand-overs of a run *)

(** The lists the writer hands to the queue in the course of an
    interleaving, oldest first: for each step of [queue.put(self.buffer)]
    that goes through, the address handed over and the rows the list
    holds at that moment. *)
Fixpoint handovers (sched : list thread) (c : Config)
  : list (ref * list row) :=
  match sched with
  | [] => []
  | t :: sched' =>
      match step t c with
      | None => handovers sched' c
      | Some c' =>
          match t, ppc c with
          | Producer, PQueuePut _ =>
              (buffer (pipe c), buffered (pipe c)) :: handovers sched' c'
          | _, _ => handovers sched' c'
          end
      end
  end.

#[global] Instance value_eq_dec : EqDecision value.
Proof. solve_decision. Defined.

(** How often the reader has yielded [obj]. *)
Definition times_seen (obj : row) (c : Config) : nat :=
  length (filter (fun r => r = obj) (seen c)).

(** Where the writer stands in the script [flush; puts of rs; tail] on a
    pipe whose buffer is the list at [b], holding [bs] at the start, and
    what it has handed to the queue so far: nothing, the list at [b]
    with [bs], or the list at [b] twice. *)
Definition resend_inv (b : ref) (bs rs : list row) (tail : list call)
    (p : Pipe) (pc : prod_pc) (s : list call)
    (log : list (ref * list row)) : Prop :=
  let once := [(b, bs)] in
  let twice := [(b, bs); (b, bs ++ rs)] in
  stop_sending p = false
  /\ (b < length (heap p))%nat
  /\ match pc with
     | PIdle =>
         (s = CallFlush :: map CallPut rs ++ tail
          /\ buffer p = b /\ deref (heap p) b = bs /\ log = [])
         \/ (exists rs1 rs2,
               rs = rs1 ++ rs2 /\ (rs2 <> [] \/ tail <> [])
               /\ s = map CallPut rs2 ++ tail
               /\ buffer p = b /\ deref (heap p) b = bs ++ rs1 /\ log = once)
         \/ (s = [] /\ deref (heap p) b = bs ++ rs /\ log = twice)
     | PSendCheck InFlush | PQueuePut InFlush =>
         (s = map CallPut rs ++ tail
          /\ buffer p = b /\ deref (heap p) b = bs /\ log = [])
         \/ (s = [] /\ tail = [CallFlush]
             /\ buffer p = b /\ deref (heap p) b = bs ++ rs /\ log = once)
     | PFinish =>
         (s = map CallPut rs ++ tail
          /\ buffer p = b /\ deref (heap p) b = bs /\ log = once)
         \/ (s = [] /\ tail = [CallFlush]
             /\ deref (heap p) b = bs ++ rs /\ log = twice)
     | PAppend y =>
         exists rs1 rs2,
           rs = rs1 ++ y :: rs2 /\ s = map CallPut rs2 ++ tail
           /\ buffer p = b /\ deref (heap p) b = bs ++ rs1 /\ log = once
     | PLen =>
         exists rs1 rs2,
           rs = rs1 ++ rs2 /\ rs1 <> [] /\ s = map CallPut rs2 ++ tail
           /\ buffer p = b /\ deref (heap p) b = bs ++ rs1 /\ log = once
     | PSendCheck InPut | PQueuePut InPut =>
         s = [] /\ tail = []
         /\ buffer p = b /\ deref (heap p) b = bs ++ rs /\ log = once
     | PReset =>
         s = [] /\ tail = []
         /\ buffer p = b /\ deref (heap p) b = bs ++ rs /\ log = twice
     end.

(** The puts of [rs] after the flush keep the buffer below capacity
    until the last one, which brings it to capacity ([tail] is empty), or
    keep it below capacity throughout and the writer flushes again. *)
Definition resend_script (C : Z) (bs rs : list row) (tail : list call) : Prop :=
  (forall rs1 rs2, rs = rs1 ++ rs2 -> rs2 <> [] ->
     Z.of_nat (length bs + length rs1) < C)
  /\ ((tail = [] /\ rs <> [] /\ C <= Z.of_nat (length bs + length rs))
      \/ (tail = [CallFlush] /\ Z.of_nat (length bs + length rs) < C)).

(** * Properties *)

(** ** Basic facts about the store and the queue *)

Lemma deref_list_append_eq (h : store) (a : ref) (x : row) :
  (a < length h)%nat -> deref (list_append h a x) a = deref h a ++ [x].
Proof.
  intros Ha. unfold deref, list_append.
  destruct (lookup_lt_is_Some_2 h a Ha) as [l Hl].
  rewrite list_lookup_alter_eq, Hl. reflexivity.
Qed.

Lemma deref_list_append_ne (h : store) (a b : ref) (x : row) :
  a <> b -> deref (list_append h a x) b = deref h b.
Proof.
  intros Hab. unfold deref, list_append.
  rewrite list_lookup_alter_ne by done. reflexivity.
Qed.

Lemma length_list_append (h : store) (a : ref) (x : row) :
  length (list_append h a x) = length h.
Proof. unfold list_append. apply length_alter. Qed.

Lemma deref_list_new_old (h : store) (a : ref) :
  (a < length h)%nat -> deref (h ++ [[]]) a = deref h a.
Proof. intros Ha. unfold deref. rewrite lookup_app_l by done. reflexivity. Qed.

Lemma deref_list_new_fresh (h : store) : deref (h ++ [[]]) (length h) = [].
Proof.
  unfold deref. rewrite lookup_app_r by lia.
  replace (length h - length h)%nat with 0%nat by lia. reflexivity.
Qed.

Lemma drain_queue_nil (its : list ref) : drain_queue its = [].
Proof. induction its; simpl; auto. Qed.

Lemma put_record_loop_map (r : record) (fs : list string) (acc : row) :
  put_record_loop r fs acc = acc ++ map (record_get r) fs.
Proof.
  revert acc. induction fs as [|f fs IH]; intros acc; simpl.
  - rewrite app_nil_r. reflexivity.
  - rewrite IH, <- app_assoc. reflexivity.
Qed.

(** ** Writes to a pipe that is closed for write *)

Lemma Pipe_put_stopped (p : Pipe) (obj : row) :
  stop_sending p = true -> Pipe_put p obj = Return p.
Proof. intros H. unfold Pipe_put. rewrite H. reflexivity. Qed.

Lemma Pipe_puts_stopped (p : Pipe) (rows : list row) :
  stop_sending p = true -> Pipe_calls (map CallPut rows) p = Return p.
Proof.
  intros H. induction rows as [|obj rows IH]; simpl; [reflexivity|].
  rewrite Pipe_put_stopped by done. simpl. exact IH.
Qed.

Lemma rows_step_stop_sending (p p' : Pipe) (pc pc' : rows_pc) (o : option row) :
  rows_step p pc = Some (p', pc', o) -> stop_sending p' = stop_sending p.
Proof.
  destruct pc; simpl; intros H; repeat case_match; simplify_eq; reflexivity.
Qed.

(** For a stopped pipe, the reader's side of every interleaving is the
    same whether the writer's script holds puts or nothing. *)
Lemma run_puts_stopped (sched : list thread) (rows : list row) (c : Config) :
  stop_sending (pipe c) = true ->
  ppc c = PIdle ->
  script c = map CallPut rows ->
  let c1 := run sched c in
  let c2 := run sched (mkConfig (pipe c) PIdle [] (cpc c) (seen c)) in
  pipe c1 = pipe c2 /\ cpc c1 = cpc c2 /\ seen c1 = seen c2.
Proof.
  revert rows c. induction sched as [|t sched IH]; intros rows c Hs Hp Hsc; simpl.
  - auto.
  - destruct c as [p pc sc g sn]; simpl in *; subst pc sc.
    destruct t; simpl.
    + destruct rows as [|obj rows]; simpl.
      * apply (IH [] (mkConfig p PIdle [] g sn)); auto.
      * rewrite Hs.
        apply (IH rows (mkConfig p PIdle (map CallPut rows) g sn)); auto.
    + destruct (rows_step p g) as [[[p' g'] o]|] eqn:Hstep.
      * pose proof (rows_step_stop_sending _ _ _ _ _ Hstep) as Hs'.
        rewrite Hs in Hs'.
        destruct o as [obj|].
        -- apply (IH rows (mkConfig p' PIdle (map CallPut rows) g' (sn ++ [obj]))); auto.
        -- apply (IH rows (mkConfig p' PIdle (map CallPut rows) g' sn)); auto.
      * apply (IH rows (mkConfig p PIdle (map CallPut rows) g sn)); auto.
Qed.

(** C3. On a pipe whose [stop_sending] flag is set, [Pipe.put] returns at
    once: it neither raises nor waits, and it leaves the whole pipe, its
    buffer included, as it was.  The same holds for every further put,
    and in every interleaving with the reader the reader's pipe, control
    point and rows seen are those of a run in which the writer made no
    call at all: none of the rows reaches the reader. *)
Theorem put_on_stopped_pipe_is_noop
    (p : Pipe) (obj : row) (rows : list row) (s : list call)
    (g : rows_pc) (sn : list row) (sched : list thread) :
  stop_sending p = true ->
  Pipe_put p obj = Return p
  /\ prod_step p PIdle (CallPut obj :: s) = Some (p, PIdle, s)
  /\ Pipe_calls (map CallPut rows) p = Return p
  /\ (let c1 := run sched (mkConfig p PIdle (map CallPut rows) g sn) in
      let c2 := run sched (mkConfig p PIdle [] g sn) in
      pipe c1 = pipe c2 /\ cpc c1 = cpc c2 /\ seen c1 = seen c2).
Proof.
  intros H. split; [|split; [|split]].
  - apply Pipe_put_stopped, H.
  - simpl. rewrite H. reflexivity.
  - apply Pipe_puts_stopped, H.
  - apply (run_puts_stopped sched rows (mkConfig p PIdle (map CallPut rows) g sn));
      auto.
Qed.

Lemma put_on_stopped_pipe_is_noop_witness :
  let p := Pipe_stop (Pipe_init 3 1) in
  Pipe_put p [VInt 1] = Return p.
Proof.
  intros p.
  apply (put_on_stopped_pipe_is_noop p [VInt 1] [] [] RGet [] []).
  reflexivity.
Defined.

(** ** [stop] *)

Lemma stop_trace_flag (fuel : nat) (p : Pipe) (pc : stop_pc) :
  pc = SFlag \/ stop_sending p = true ->
  Forall (fun s => stop_sending s.1 = true) (stop_trace fuel p pc).
Proof.
  revert p pc. induction fuel as [|fuel IH]; intros p pc H; simpl.
  - constructor.
  - destruct pc; simpl.
    + constructor; [reflexivity|]. apply IH. right. reflexivity.
    + destruct H as [H|H]; [discriminate|].
      destruct (Queue_get (queue p)) as [[x q]|].
      * constructor; [exact H|]. apply IH. right. exact H.
      * constructor; [exact H|]. apply IH. right. exact H.
    + constructor.
Qed.

Lemma stop_trace_drain_cons (x : ref) (its : list ref) (p : Pipe) (fuel : nat) :
  items (queue p) = x :: its ->
  let p' := set_queue p (mkQueue (maxsize (queue p)) its
                                 (unfinished_tasks (queue p))) in
  stop_trace (S fuel) p SDrain = (p', SDrain) :: stop_trace fuel p' SDrain.
Proof. intros H. simpl. unfold Queue_get. rewrite H. reflexivity. Qed.

Lemma stop_drain_last (its : list ref) (p : Pipe) :
  items (queue p) = its ->
  stop_sending p = true ->
  last (stop_trace (S (length its)) p SDrain) = Some (Pipe_stop p, SReturned).
Proof.
  revert p. induction its as [|x its IH]; intros p Hits Hs.
  - simpl. unfold Queue_get. rewrite Hits. simpl.
    destruct p as [c h b f s bs qs [m it u] fin]; simpl in *; subst.
    reflexivity.
  - cbn [length]. rewrite (stop_trace_drain_cons x its) by done.
    rewrite last_cons.
    rewrite (IH (set_queue p (mkQueue (maxsize (queue p)) its
                                      (unfinished_tasks (queue p))))) by done.
    unfold Pipe_stop. simpl. rewrite !drain_queue_nil. reflexivity.
Qed.

Lemma stop_drain_items (its : list ref) (p : Pipe) (j : nat) :
  items (queue p) = its ->
  (j < length its)%nat ->
  (fun s => items (queue s.1)) <$> (stop_trace (S (length its)) p SDrain !! j)
  = Some (drop (S j) its).
Proof.
  revert p j. induction its as [|x its IH]; intros p j Hits Hj; simpl in Hj.
  - lia.
  - cbn [length]. rewrite (stop_trace_drain_cons x its) by done.
    destruct j as [|j]; cbn [lookup list_lookup fmap option_fmap option_map].
    + simpl. rewrite drop_0. reflexivity.
    + apply (IH (set_queue p (mkQueue (maxsize (queue p)) its
                                      (unfinished_tasks (queue p))))); [done|lia].
Qed.

(** [stop()] with no other thread moving: it sets the [stop_sending]
    flag in its first step, with the queue still untouched, and the flag
    stays set in every later state of the call; the steps that follow
    remove the batches of the queue one by one, oldest first, until
    [get_nowait] finds it empty.  It touches neither the list behind
    [self.buffer] nor the queue's count of unfinished tasks. *)
Lemma stop_alone (p : Pipe) :
  let n := qsize (queue p) in
  let trace := stop_trace (S (S n)) p SFlag in
  stop_step p SFlag = Some (set_stop_sending p true, SDrain)
  /\ (forall fuel,
        Forall (fun s => stop_sending s.1 = true) (stop_trace fuel p SFlag))
  /\ (forall k, (k <= n)%nat ->
        (fun s => items (queue s.1)) <$> (trace !! k)
        = Some (drop k (items (queue p))))
  /\ last trace = Some (Pipe_stop p, SReturned)
  /\ stop_sending (Pipe_stop p) = true
  /\ items (queue (Pipe_stop p)) = []
  /\ qsize (queue (Pipe_stop p)) = 0%nat
  /\ queued (Pipe_stop p) = []
  /\ buffered (Pipe_stop p) = buffered p
  /\ unfinished_tasks (queue (Pipe_stop p)) = unfinished_tasks (queue p).
Proof.
  intros n trace. subst n trace. unfold qsize.
  split; [reflexivity|].
  split; [intros fuel; apply stop_trace_flag; left; reflexivity|].
  assert (Hcons : stop_trace (S (S (length (items (queue p))))) p SFlag
          = (set_stop_sending p true, SDrain)
            :: stop_trace (S (length (items (queue p))))
                          (set_stop_sending p true) SDrain) by reflexivity.
  rewrite Hcons. clear Hcons.
  split.
  { intros k Hk. destruct k as [|k]; [reflexivity|].
    rewrite lookup_cons_ne_0 by lia. replace (pred (S k)) with k by lia.
    apply (stop_drain_items (items (queue p)) (set_stop_sending p true) k);
      [reflexivity|lia]. }
  split.
  { rewrite last_cons.
    rewrite (stop_drain_last (items (queue p)) (set_stop_sending p true))
      by reflexivity.
    unfold Pipe_stop. reflexivity. }
  unfold Pipe_stop, queued, qsize, buffered. simpl. rewrite drain_queue_nil.
  repeat split; reflexivity.
Qed.

(** ** Record view *)

(** C6. On a pipe of either class whose field list is not set, the
    record-view read fails: the first [next()] on [records()] raises the
    exception "fields for pipe are not initialized", yields no record,
    leaves the pipe as it was and ends the generator.  The record-view
    write fails too: [put_record] raises (the [AttributeError] of
    [None.names()]) before any row is built or put, the pipe being left as
    it was. *)
Theorem record_view_needs_fields (p : Pipe) (r : record) :
  fields p = None ->
  let e := Exception "Can not provide records: fields for pipe are not initialized." in
  records_step p RecStart = Some (p, RecRaised e, None)
  /\ records_step p (RecRaised e) = None
  /\ SimpleDataPipe_put_record p r
     = Raise (AttributeError "'NoneType' object has no attribute 'names'") p.
Proof.
  intros H e. subst e. split; [|split].
  - simpl. rewrite H. reflexivity.
  - reflexivity.
  - unfold SimpleDataPipe_put_record. rewrite H. reflexivity.
Qed.

Lemma record_view_needs_fields_witness :
  SimpleDataPipe_put_record (Pipe_init 1000 1) {[ "a"%string := VInt 1 ]}
  = Raise (AttributeError "'NoneType' object has no attribute 'names'")
          (Pipe_init 1000 1).
Proof.
  apply (record_view_needs_fields (Pipe_init 1000 1) {[ "a"%string := VInt 1 ]}).
  reflexivity.
Defined.

Lemma record_get_Some (r : record) (f : string) (v : value) :
  r !! f = Some v -> record_get r f = v.
Proof. intros H. unfold record_get. rewrite H. reflexivity. Qed.

Lemma record_get_None (r : record) (f : string) :
  r !! f = None -> record_get r f = VNone.
Proof. intros H. unfold record_get. rewrite H. reflexivity. Qed.

(** C7. On a pipe with a field list, [put_record] puts, with the put of
    the pipe's class, the row that has one value per field name, in the
    order of the field list: the value the mapping has for that name, and
    the null value where the mapping has no such name. *)
Theorem put_record_builds_row (p : Pipe) (fl : FieldList) (r : record) :
  fields p = Some fl ->
  let built := put_record_loop r (names fl) [] in
  SimpleDataPipe_put_record p r = pipe_put p built
  /\ length built = length (names fl)
  /\ (forall i f, names fl !! i = Some f ->
        built !! i = Some (match r !! f with Some v => v | None => VNone end)).
Proof.
  intros H built. subst built. rewrite put_record_loop_map. simpl.
  split; [|split].
  - unfold SimpleDataPipe_put_record. rewrite H, put_record_loop_map. reflexivity.
  - apply length_map.
  - intros i f Hf.
    change (map (record_get r) (names fl)) with (record_get r <$> names fl).
    rewrite list_lookup_fmap, Hf. reflexivity.
Qed.

Lemma put_record_builds_row_witness :
  let p := set_fields SimpleDataPipe_init (Some ["a"; "b"]%string) in
  let r : record := {[ "b"%string := VInt 2 ]} in
  SimpleDataPipe_put_record p r = pipe_put p (put_record_loop r ["a"; "b"]%string []).
Proof.
  intros p r.
  apply (put_record_builds_row p ["a"; "b"]%string r). reflexivity.
Defined.

(** ** Source and target nodes *)

(** C8. On a [SourceNode], [add_input] raises for every pipe and leaves
    the node as it was; on a [TargetNode], [add_output] raises for every
    pipe and leaves the node as it was, and reading [output_fields]
    raises in every store of pipes. *)
Theorem source_target_restrictions (n : Node) (pipe_id : nat) (st : list Pipe) :
  (ncls n = ClsSourceNode ->
     Node_add_input n pipe_id
     = Raise (Exception "Should not add input pipe to a source node") n)
  /\ (ncls n = ClsTargetNode ->
        Node_add_output n pipe_id
        = Raise (RuntimeError "Should not add output pipe to a target node") n
        /\ Node_output_fields n st
           = Raise (RuntimeError "Output fields asked from a target object.") None).
Proof.
  split.
  - intros H. unfold Node_add_input. rewrite H. reflexivity.
  - intros H. unfold Node_add_output, Node_output_fields. rewrite H. auto.
Qed.

Lemma source_target_restrictions_witness :
  Node_add_input (Node_init ClsSourceNode) 0%nat
  = Raise (Exception "Should not add input pipe to a source node")
          (Node_init ClsSourceNode)
  /\ Node_add_output (Node_init ClsTargetNode) 0%nat
     = Raise (RuntimeError "Should not add output pipe to a target node")
             (Node_init ClsTargetNode)
  /\ Node_output_fields (Node_init ClsTargetNode) [Pipe_init 1000 1]
     = Raise (RuntimeError "Output fields asked from a target object.") None.
Proof.
  split.
  - apply (source_target_restrictions (Node_init ClsSourceNode) 0%nat []).
    reflexivity.
  - apply (source_target_restrictions (Node_init ClsTargetNode) 0%nat
             [Pipe_init 1000 1]).
    reflexivity.
Defined.

(** ** Puts below and at capacity, and flush *)

Lemma set_heap_id (p : Pipe) : set_heap p (heap p) = p.
Proof. destruct p; reflexivity. Qed.

Lemma extend_buffer_nil (p : Pipe) : extend_buffer p [] = p.
Proof.
  unfold extend_buffer. rewrite list_alter_id; [apply set_heap_id|].
  intros l. apply app_nil_r.
Qed.

Lemma extend_buffer_cons (p : Pipe) (x : row) (rows : list row) :
  extend_buffer (extend_buffer p [x]) rows = extend_buffer p (x :: rows).
Proof.
  unfold extend_buffer. simpl. rewrite list_alter_alter_eq.
  f_equal. apply list_alter_ext; [|reflexivity].
  intros l _. simpl. rewrite <- app_assoc. reflexivity.
Qed.

Lemma buffered_extend_buffer (p : Pipe) (rows : list row) :
  buffer_live p -> buffered (extend_buffer p rows) = buffered p ++ rows.
Proof.
  intros Hl. unfold buffered, extend_buffer, deref. simpl.
  destruct (lookup_lt_is_Some_2 (heap p) (buffer p) Hl) as [l Hlk].
  rewrite list_lookup_alter_eq, Hlk. reflexivity.
Qed.

Lemma buffer_live_extend_buffer (p : Pipe) (rows : list row) :
  buffer_live p -> buffer_live (extend_buffer p rows).
Proof. unfold buffer_live, extend_buffer. simpl. rewrite length_alter. auto. Qed.

Lemma Pipe_put_below (p : Pipe) (obj : row) :
  stop_sending p = false ->
  buffer_live p ->
  Z.of_nat (length (buffered p) + 1) < buffer_size p ->
  Pipe_put p obj = Return (extend_buffer p [obj]).
Proof.
  intros Hs Hl Hlt. unfold Pipe_put. rewrite Hs.
  change (set_heap p (list_append (heap p) (buffer p) obj))
    with (extend_buffer p [obj]).
  rewrite buffered_extend_buffer by done. rewrite length_app. simpl.
  destruct (Z.leb_spec (buffer_size p) (Z.of_nat (length (buffered p) + 1)));
    [lia|reflexivity].
Qed.

Lemma Pipe_puts_below (rows : list row) (p : Pipe) :
  stop_sending p = false ->
  buffer_live p ->
  Z.of_nat (length (buffered p) + length rows) < buffer_size p ->
  Pipe_calls (map CallPut rows) p = Return (extend_buffer p rows).
Proof.
  revert p. induction rows as [|x rows IH]; intros p Hs Hl Hlt; simpl.
  - rewrite extend_buffer_nil. reflexivity.
  - simpl in Hlt. rewrite Pipe_put_below by (auto; lia). simpl.
    rewrite IH.
    + rewrite extend_buffer_cons. reflexivity.
    + exact Hs.
    + apply buffer_live_extend_buffer, Hl.
    + rewrite buffered_extend_buffer by done. rewrite length_app. simpl.
      unfold extend_buffer. simpl. lia.
Qed.

Lemma Pipe_put_at_capacity (p : Pipe) (obj : row) :
  stop_sending p = false ->
  buffer_live p ->
  buffer_size p <= Z.of_nat (length (buffered p) + 1) ->
  Queue_full (queue p) = false ->
  Pipe_put p obj
  = Return (new_buffer
              (set_queue (extend_buffer p [obj])
                 (mkQueue (maxsize (queue p)) (items (queue p) ++ [buffer p])
                          (S (unfinished_tasks (queue p)))))).
Proof.
  intros Hs Hl Hge Hfull. unfold Pipe_put. rewrite Hs.
  change (set_heap p (list_append (heap p) (buffer p) obj))
    with (extend_buffer p [obj]).
  rewrite buffered_extend_buffer by done. rewrite length_app. simpl.
  destruct (Z.leb_spec (buffer_size p) (Z.of_nat (length (buffered p) + 1)));
    [|lia].
  unfold Pipe__send_buffer, Queue_put. simpl. rewrite Hs, Hfull. reflexivity.
Qed.

Lemma Pipe_flush_open (p : Pipe) :
  stop_sending p = false ->
  Queue_full (queue p) = false ->
  Pipe_flush p
  = Return (set_finished
              (set_queue p
                 (mkQueue (maxsize (queue p)) (items (queue p) ++ [buffer p])
                          (S (unfinished_tasks (queue p)))))
              true).
Proof.
  intros Hs Hfull. unfold Pipe_flush, Pipe__send_buffer, Queue_put.
  rewrite Hs, Hfull. reflexivity.
Qed.

Lemma Pipe_flush_Return (p p1 : Pipe) :
  Pipe_flush p = Return p1 ->
  finished p1 = true /\ heap p1 = heap p /\ buffer p1 = buffer p
  /\ stop_sending p1 = stop_sending p /\ buffer_size p1 = buffer_size p
  /\ (stop_sending p = false -> items (queue p1) = items (queue p) ++ [buffer p])
  /\ (stop_sending p = true -> queue p1 = queue p).
Proof.
  unfold Pipe_flush, Pipe__send_buffer, Queue_put.
  destruct (stop_sending p) eqn:Hs; simpl.
  - intros [= <-]. simpl. repeat split; auto. discriminate.
  - destruct (Queue_full (queue p)); simpl; [discriminate|].
    intros [= <-]. simpl. repeat split; auto. discriminate.
Qed.

(** Counterexample to C5 as stated: on a new pipe of capacity 1 with an
    unbounded queue, a put after [flush()] hands a second batch to the
    queue. *)
Lemma put_after_flush_hands_batch :
  ~ (forall (p p1 p2 : Pipe) (obj : row),
       Pipe_flush p = Return p1 ->
       Pipe_put p1 obj = Return p2 ->
       items (queue p2) = items (queue p1)).
Proof.
  intros H.
  specialize (H (Pipe_init 1 0) _ _ [VInt 1] eq_refl eq_refl).
  discriminate H.
Qed.

(** C5, amended. [flush()] sets [finished], and the flag stays set, but
    [put] does not read it: after [flush()] further puts hand no batch to
    the queue as long as the buffer, which [flush()] has not emptied,
    stays below capacity (or the pipe is closed for write); on a pipe
    open for write the put that brings the buffer to capacity hands it to
    the queue once more. *)
Theorem batches_after_flush (p p1 : Pipe) (rows : list row) (obj : row) :
  Pipe_flush p = Return p1 ->
  buffer_live p ->
  finished p1 = true
  /\ buffered p1 = buffered p
  /\ (stop_sending p1 = true
      \/ Z.of_nat (length (buffered p1) + length rows) < buffer_size p1 ->
      exists p2, Pipe_calls (map CallPut rows) p1 = Return p2
                 /\ items (queue p2) = items (queue p1)
                 /\ finished p2 = true)
  /\ (stop_sending p1 = false ->
      buffer_size p1 <= Z.of_nat (length (buffered p1) + 1) ->
      Queue_full (queue p1) = false ->
      exists p2, Pipe_put p1 obj = Return p2
                 /\ items (queue p2) = items (queue p1) ++ [buffer p1]
                 /\ finished p2 = true).
Proof.
  intros Hf Hl.
  destruct (Pipe_flush_Return _ _ Hf) as (Hfin & Hh & Hb & Hs & Hsz & _).
  assert (Hl1 : buffer_live p1) by (unfold buffer_live; rewrite Hh, Hb; exact Hl).
  split; [exact Hfin|]. split; [unfold buffered; rewrite Hh, Hb; reflexivity|].
  split.
  - intros Hcase. destruct (stop_sending p1) eqn:Hs1.
    + exists p1. rewrite Pipe_puts_stopped by done. auto.
    + destruct Hcase as [Hc|Hc]; [discriminate|].
      exists (extend_buffer p1 rows). rewrite Pipe_puts_below by done. auto.
  - intros Hs1 Hge Hfull. eexists.
    rewrite Pipe_put_at_capacity by done. simpl. auto.
Qed.

Lemma batches_after_flush_witness :
  exists p2, Pipe_put (set_finished
                         (set_queue (Pipe_init 1 0) (mkQueue 0 [1%nat] 1)) true)
                      [VInt 1] = Return p2
             /\ items (queue p2) = [1%nat; 1%nat]
             /\ finished p2 = true.
Proof.
  apply (batches_after_flush (Pipe_init 1 0) _ [] [VInt 1] eq_refl);
    [unfold buffer_live; simpl; lia | reflexivity | simpl; lia | reflexivity].
Defined.

(** ** Fan-out writes of a node *)

Lemma pipe_put_not_Raise (p p' : Pipe) (obj : row) (e : exn) :
  pipe_put p obj <> Raise e p'.
Proof.
  unfold pipe_put, SimpleDataPipe_put, Pipe_put, Pipe__send_buffer.
  destruct (cls p); [discriminate|].
  destruct (stop_sending p) eqn:Hs; [discriminate|].
  destruct (_ <=? _); [|discriminate].
  simpl. rewrite Hs. destruct (Queue_put _ _); discriminate.
Qed.

Lemma SimpleDataPipe_put_record_Raise (p p' : Pipe) (r : record) (e : exn) :
  SimpleDataPipe_put_record p r = Raise e p' ->
  e = AttributeError "'NoneType' object has no attribute 'names'".
Proof.
  unfold SimpleDataPipe_put_record. destruct (fields p).
  - intros H. exfalso. exact (pipe_put_not_Raise _ _ _ _ H).
  - intros [= <- _]. reflexivity.
Qed.

Lemma Node_put_record_loop_not_NodeFinished
    (outs : list nat) (r : record) (st : list Pipe) :
  raises_NodeFinished (Node_put_record_loop outs r st) = false.
Proof.
  revert st. induction outs as [|o outs IH]; intros st; simpl; [reflexivity|].
  destruct (st !! o) as [p|]; [|reflexivity].
  destruct (SimpleDataPipe_put_record p r) as [p'|e p'|p'] eqn:Hp; simpl.
  - apply IH.
  - rewrite (SimpleDataPipe_put_record_Raise _ _ _ _ Hp). reflexivity.
  - reflexivity.
Qed.

Lemma Node_put_record_loop_spec (r : record) (outs : list nat) (st : list Pipe) :
  NoDup outs ->
  (forall o, o ∈ outs ->
     exists p p', st !! o = Some p /\ SimpleDataPipe_put_record p r = Return p') ->
  exists st',
    Node_put_record_loop outs r st = Return st'
    /\ length st' = length st
    /\ (forall o p, o ∈ outs -> st !! o = Some p ->
          exists p', SimpleDataPipe_put_record p r = Return p' /\ st' !! o = Some p')
    /\ (forall o, o ∉ outs -> st' !! o = st !! o).
Proof.
  revert st. induction outs as [|o outs IH]; intros st Hnd Hall.
  - exists st. simpl. repeat split; auto.
    intros o p Ho. inversion Ho.
  - apply NoDup_cons in Hnd as [Ho Hnd].
    destruct (Hall o) as (p & p' & Hlk & Hput); [left|].
    simpl. rewrite Hlk, Hput. simpl.
    destruct (IH (<[o := p']> st) Hnd) as (st' & Hrun & Hlen & Hin & Hout).
    { intros o' Ho'. rewrite list_lookup_insert_ne by (intros ->; contradiction).
      apply Hall. right. exact Ho'. }
    exists st'. split; [exact Hrun|]. split; [rewrite Hlen; apply length_insert|].
    split.
    + intros o' q Ho' Hq. apply elem_of_cons in Ho' as [->|Ho'].
      * rewrite Hlk in Hq. injection Hq as <-. exists p'. split; [exact Hput|].
        rewrite Hout by exact Ho.
        apply list_lookup_insert_eq. eapply lookup_lt_Some, Hlk.
      * apply Hin; [exact Ho'|].
        rewrite list_lookup_insert_ne by (intros ->; contradiction). exact Hq.
    + intros o' Ho'. apply not_elem_of_cons in Ho' as [Hne Ho'].
      rewrite Hout by exact Ho'. apply list_lookup_insert_ne. congruence.
Qed.

Lemma closed_at_insert_ne (st : list Pipe) (o o' : nat) (p : Pipe) :
  o <> o' -> closed_at (<[o := p]> st) o' = closed_at st o'.
Proof. intros H. unfold closed_at. rewrite list_lookup_insert_ne by done. reflexivity. Qed.

Lemma open_outputs_insert (st : list Pipe) (o : nat) (p : Pipe) (outs : list nat) :
  o ∉ outs -> open_outputs (<[o := p]> st) outs = open_outputs st outs.
Proof.
  intros Ho. unfold open_outputs. apply List.filter_ext_in.
  intros a Ha. rewrite closed_at_insert_ne; [reflexivity|].
  intros ->. apply Ho, list_elem_of_In, Ha.
Qed.

Lemma open_outputs_cons (st : list Pipe) (o : nat) (outs : list nat) :
  open_outputs st (o :: outs)
  = if closed_at st o then open_outputs st outs else o :: open_outputs st outs.
Proof. unfold open_outputs. simpl. destruct (closed_at st o); reflexivity. Qed.

Lemma closed_at_Some (st : list Pipe) (o : nat) (p : Pipe) :
  st !! o = Some p -> closed_at st o = stop_sending p.
Proof. intros H. unfold closed_at. rewrite H. reflexivity. Qed.

Lemma closed_open_length (st : list Pipe) (outs : list nat) :
  (length (closed_outputs st outs) + length (open_outputs st outs)
   = length outs)%nat.
Proof. unfold closed_outputs, open_outputs. apply List.filter_length. Qed.

(** The loop of [Node.put] on live, pairwise distinct outputs: it never
    raises; it returns with the number of open outputs added to the
    counter, or it waits in the put of an open output. *)
Lemma Node_put_loop_outcome (obj : row) (outs : list nat) (st : list Pipe) (k : nat) :
  NoDup outs ->
  (forall o, o ∈ outs -> (o < length st)%nat) ->
  match Node_put_loop outs obj st k with
  | Return (_, active) => active = (k + length (open_outputs st outs))%nat
  | Raise _ _ => False
  | Blocks _ => (0 < length (open_outputs st outs))%nat
  end.
Proof.
  revert st k. induction outs as [|o outs IH]; intros st k Hnd Hlive.
  - simpl. lia.
  - apply NoDup_cons in Hnd as [Ho Hnd].
    destruct (lookup_lt_is_Some_2 st o) as [p Hp]; [apply Hlive; left|].
    cbn [Node_put_loop]. rewrite Hp.
    rewrite open_outputs_cons, (closed_at_Some _ _ _ Hp).
    destruct (stop_sending p) eqn:Hs; cbn [negb].
    + apply IH; [exact Hnd|]. intros o' Ho'. apply Hlive. right. exact Ho'.
    + destruct (pipe_put p obj) as [p'|e p'|p'] eqn:Hput; cbn [bind].
      * specialize (IH (<[o := p']> st) (S k) Hnd).
        rewrite open_outputs_insert in IH by exact Ho.
        destruct (Node_put_loop outs obj (<[o := p']> st) (S k)) as [[st' a]|e a|a];
          cbn [length].
        -- rewrite IH; [lia|]. intros o' Ho'. rewrite length_insert.
           apply Hlive. right. exact Ho'.
        -- apply IH. intros o' Ho'. rewrite length_insert.
           apply Hlive. right. exact Ho'.
        -- lia.
      * exact (pipe_put_not_Raise _ _ _ _ Hput).
      * cbn [length]. lia.
Qed.

Lemma Node_put_loop_spec (obj : row) (outs : list nat) (st : list Pipe) (k : nat) :
  NoDup outs ->
  (forall o, o ∈ outs -> (o < length st)%nat) ->
  (forall o p, o ∈ outs -> st !! o = Some p -> stop_sending p = false ->
     exists p', pipe_put p obj = Return p') ->
  exists st',
    Node_put_loop outs obj st k
    = Return (st', (k + length (open_outputs st outs))%nat)
    /\ length st' = length st
    /\ (forall o, o ∉ outs -> st' !! o = st !! o)
    /\ (forall o p, o ∈ outs -> st !! o = Some p ->
          if stop_sending p then st' !! o = Some p
          else exists p', pipe_put p obj = Return p' /\ st' !! o = Some p').
Proof.
  revert st k. induction outs as [|o outs IH]; intros st k Hnd Hlive Hgo.
  - exists st. simpl. rewrite Nat.add_0_r. repeat split; auto.
    intros o p Ho. inversion Ho.
  - apply NoDup_cons in Hnd as [Ho Hnd].
    destruct (lookup_lt_is_Some_2 st o) as [p Hp]; [apply Hlive; left|].
    cbn [Node_put_loop]. rewrite Hp.
    rewrite open_outputs_cons, (closed_at_Some _ _ _ Hp).
    destruct (stop_sending p) eqn:Hs; cbn [negb].
    + destruct (IH st k Hnd) as (st' & Hrun & Hlen & Hout & Hin).
      { intros o' Ho'. apply Hlive. right. exact Ho'. }
      { intros o' q Ho'. apply (Hgo o'). right. exact Ho'. }
      exists st'. split; [exact Hrun|]. split; [exact Hlen|]. split.
      * intros o' Ho'. apply not_elem_of_cons in Ho' as [_ Ho']. auto.
      * intros o' q Ho' Hq. apply elem_of_cons in Ho' as [->|Ho'].
        -- rewrite Hp in Hq. injection Hq as <-. rewrite Hs.
           rewrite Hout by exact Ho. exact Hp.
        -- apply Hin; assumption.
    + destruct (Hgo o p) as [p' Hput]; [left|exact Hp|exact Hs|].
      rewrite Hput. cbn [bind].
      destruct (IH (<[o := p']> st) (S k) Hnd) as (st' & Hrun & Hlen & Hout & Hin).
      { intros o' Ho'. rewrite length_insert. apply Hlive. right. exact Ho'. }
      { intros o' q Ho' Hq.
        rewrite list_lookup_insert_ne in Hq by (intros ->; contradiction).
        apply (Hgo o'); [right; exact Ho'|exact Hq]. }
      rewrite open_outputs_insert in Hrun by exact Ho.
      exists st'. split; [rewrite Hrun; cbn [length]; do 2 f_equal; lia|].
      split; [rewrite Hlen; apply length_insert|]. split.
      * intros o' Ho'. apply not_elem_of_cons in Ho' as [Hne Ho'].
        rewrite Hout by exact Ho'. apply list_lookup_insert_ne. congruence.
      * intros o' q Ho' Hq. apply elem_of_cons in Ho' as [->|Ho'].
        -- rewrite Hp in Hq. injection Hq as <-. rewrite Hs.
           exists p'. split; [exact Hput|]. rewrite Hout by exact Ho.
           apply list_lookup_insert_eq. eapply lookup_lt_Some, Hp.
        -- apply Hin; [exact Ho'|].
           rewrite list_lookup_insert_ne by (intros ->; contradiction). exact Hq.
Qed.

Lemma NodesBase_Node_put_eq (n : Node) (obj : row) (st : list Pipe) :
  NodesBase.Node_put n obj st = Node_put n obj st.
Proof. reflexivity. Qed.

Lemma open_outputs_elem (st : list Pipe) (outs : list nat) (o : nat) (p : Pipe) :
  o ∈ outs -> st !! o = Some p -> stop_sending p = false ->
  (0 < length (open_outputs st outs))%nat.
Proof.
  intros Ho Hp Hs.
  assert (Hin : In o (open_outputs st outs)).
  { unfold open_outputs. apply List.filter_In. split.
    - apply list_elem_of_In, Ho.
    - rewrite (closed_at_Some _ _ _ Hp), Hs. reflexivity. }
  destruct (open_outputs st outs); [destruct Hin|simpl; lia].
Qed.

(** The put of a [SimpleDataPipe], and the put of a [Pipe] whose queue
    has room, do not wait. *)
Lemma pipe_put_returns (p : Pipe) (obj : row) :
  cls p = ClsSimpleDataPipe \/ Queue_full (queue p) = false ->
  exists p', pipe_put p obj = Return p'.
Proof.
  intros H. unfold pipe_put, SimpleDataPipe_put, Pipe_put, Pipe__send_buffer.
  destruct (cls p); [eauto|]. destruct H as [H|H]; [discriminate|].
  destruct (stop_sending p) eqn:Hs; [eauto|].
  destruct (_ <=? _); [|eauto].
  unfold Queue_put. simpl. rewrite Hs, H. simpl. eauto.
Qed.

(** A put that returns on an open pipe has taken the row: it is the last
    row of the buffer, or of the batch just handed to the queue. *)
Lemma pipe_put_takes_row (p p' : Pipe) (obj : row) :
  stop_sending p = false ->
  buffer_live p ->
  pipe_put p obj = Return p' ->
  buffered p' = buffered p ++ [obj]
  \/ (last (queued p') = Some (buffered p ++ [obj]) /\ buffered p' = []).
Proof.
  intros Hs Hl. unfold pipe_put, SimpleDataPipe_put, Pipe_put.
  change (set_heap p (list_append (heap p) (buffer p) obj))
    with (extend_buffer p [obj]).
  destruct (cls p).
  - intros [= <-]. left. apply buffered_extend_buffer, Hl.
  - rewrite Hs. destruct (_ <=? _).
    + unfold Pipe__send_buffer, Queue_put. simpl. rewrite Hs.
      destruct (Queue_full (queue p)); simpl; [discriminate|].
      intros [= <-]. right. unfold queued, buffered, new_buffer. simpl.
      rewrite length_alter. split.
      * rewrite map_app. cbn [map]. rewrite last_snoc. f_equal.
        rewrite deref_list_new_old by (rewrite length_alter; exact Hl).
        apply (buffered_extend_buffer p [obj] Hl).
      * rewrite <- (length_alter (fun l => l ++ [obj]) (heap p) (buffer p)).
        apply deref_list_new_fresh.
    + intros [= <-]. left. apply buffered_extend_buffer, Hl.
Qed.

(** ** [put_record] on every output *)

(** What [put_record] does to one pipe, by its class and its
    [stop_sending] flag. *)
Lemma SimpleDataPipe_put_record_effect (p p' : Pipe) (r : record) :
  SimpleDataPipe_put_record p r = Return p' ->
  buffer_live p ->
  exists fl,
    fields p = Some fl
    /\ match cls p, stop_sending p with
       | ClsSimpleDataPipe, _ =>
           buffered p' = buffered p ++ [map (record_get r) (names fl)]
       | ClsPipe, true => p' = p
       | ClsPipe, false =>
           buffered p' = buffered p ++ [map (record_get r) (names fl)]
           \/ (last (queued p')
               = Some (buffered p ++ [map (record_get r) (names fl)])
               /\ buffered p' = [])
       end.
Proof.
  unfold SimpleDataPipe_put_record. destruct (fields p) as [fl|]; [|discriminate].
  rewrite put_record_loop_map. cbn [app]. intros Hput Hl. exists fl.
  split; [reflexivity|].
  destruct (cls p) eqn:Hc.
  - unfold pipe_put in Hput. rewrite Hc in Hput. injection Hput as <-.
    apply (buffered_extend_buffer p [map (record_get r) (names fl)] Hl).
  - destruct (stop_sending p) eqn:Hs.
    + unfold pipe_put in Hput. rewrite Hc, Pipe_put_stopped in Hput by exact Hs.
      injection Hput as <-. reflexivity.
    + exact (pipe_put_takes_row p p' _ Hs Hl Hput).
Qed.

(** The loop reaches every output: the first one without a field list
    stops it with [AttributeError], closed for write or not. *)
Lemma Node_put_record_loop_raise (r : record) (outs1 : list nat) :
  forall (o : nat) (outs2 : list nat) (st : list Pipe) (p : Pipe),
    NoDup (outs1 ++ o :: outs2) ->
    (forall o', o' ∈ outs1 ->
       exists q q', st !! o' = Some q /\ SimpleDataPipe_put_record q r = Return q') ->
    st !! o = Some p ->
    fields p = None ->
    exists st',
      Node_put_record_loop (outs1 ++ o :: outs2) r st
      = Raise (AttributeError "'NoneType' object has no attribute 'names'") st'.
Proof.
  induction outs1 as [|o1 outs1 IH]; intros o outs2 st p Hnd Hall Hp Hf.
  - simpl. rewrite Hp. unfold SimpleDataPipe_put_record. rewrite Hf. simpl. eauto.
  - cbn [app] in Hnd. apply NoDup_cons in Hnd as [Ho1 Hnd].
    destruct (Hall o1) as (q & q' & Hq & Hput); [left|].
    cbn [app Node_put_record_loop]. rewrite Hq, Hput. cbn [bind].
    apply (IH o outs2 (<[o1 := q']> st) p Hnd).
    + intros o' Ho'.
      rewrite list_lookup_insert_ne
        by (intros ->; apply Ho1, elem_of_app; left; exact Ho').
      apply Hall. right. exact Ho'.
    + rewrite list_lookup_insert_ne; [exact Hp|].
      intros ->. apply Ho1, elem_of_app. right. left.
    + exact Hf.
Qed.

(** Counterexample to C10 as stated: a node whose one output is a
    [Pipe] with a field list, closed for write.  [put_record] returns and
    the pipe holds nothing more than before: the record is not written. *)
Lemma put_record_on_closed_pipe_writes_nothing :
  ~ (forall (n : Node) (r : record) (st st' : list Pipe) (o : nat)
            (p p' : Pipe) (fl : FieldList),
       Node_put_record n r st = Return st' ->
       o ∈ outputs n ->
       st !! o = Some p ->
       fields p = Some fl ->
       st' !! o = Some p' ->
       contents p' = contents p ++ [map (record_get r) (names fl)]).
Proof.
  intros H.
  set (p := Pipe_stop (set_fields (Pipe_init 1 0) (Some ["a"%string]))).
  specialize (H (set_outputs (Node_init ClsNode) [0%nat])
                {[ "a"%string := VInt 1 ]} [p] [p] 0%nat p p ["a"%string]
                eq_refl ltac:(left) eq_refl eq_refl eq_refl).
  apply (f_equal length) in H. rewrite length_app in H. simpl in H. lia.
Qed.

(** C10, amended. [Node.put_record], unlike [Node.put], does not ask
    whether an output is closed for write: it calls [put_record] on
    every output in turn and never raises [NodeFinished], not with zero
    outputs (it returns and changes nothing) and not with every output
    stopped.  What reaches an output is decided by the pipe's own
    [put]: a [SimpleDataPipe] output takes the row even when it is
    stopped, a [Pipe] output that is open takes it, and a [Pipe] output
    that is closed for write is left as it was, the record dropped.
    That closed outputs are called too shows on one without a field
    list: the call on it raises [AttributeError]. *)
Theorem put_record_calls_every_output (n : Node) (r : record) (st : list Pipe) :
  raises_NodeFinished (Node_put_record n r st) = false
  /\ (outputs n = [] -> Node_put_record n r st = Return st)
  /\ (forall outs1 o outs2 p,
        outputs n = outs1 ++ o :: outs2 ->
        NoDup (outputs n) ->
        (forall o', o' ∈ outs1 ->
           exists q q', st !! o' = Some q
                        /\ SimpleDataPipe_put_record q r = Return q') ->
        st !! o = Some p ->
        fields p = None ->
        exists st',
          Node_put_record n r st
          = Raise (AttributeError "'NoneType' object has no attribute 'names'") st')
  /\ (NoDup (outputs n) ->
      (forall o, o ∈ outputs n ->
         exists p p', st !! o = Some p /\ SimpleDataPipe_put_record p r = Return p') ->
      exists st',
        Node_put_record n r st = Return st'
        /\ length st' = length st
        /\ (forall o, o ∉ outputs n -> st' !! o = st !! o)
        /\ (forall o p, o ∈ outputs n -> st !! o = Some p ->
              exists p' fl,
                st' !! o = Some p'
                /\ SimpleDataPipe_put_record p r = Return p'
                /\ fields p = Some fl
                /\ (buffer_live p ->
                    match cls p, stop_sending p with
                    | ClsSimpleDataPipe, _ =>
                        buffered p' = buffered p ++ [map (record_get r) (names fl)]
                    | ClsPipe, true => p' = p
                    | ClsPipe, false =>
                        buffered p' = buffered p ++ [map (record_get r) (names fl)]
                        \/ (last (queued p')
                            = Some (buffered p ++ [map (record_get r) (names fl)])
                            /\ buffered p' = [])
                    end)))
  /\ (forall p fl, fields p = Some fl ->
        cls p = ClsSimpleDataPipe \/ stop_sending p = true
        \/ Queue_full (queue p) = false ->
        exists p', SimpleDataPipe_put_record p r = Return p').
Proof.
  split; [apply Node_put_record_loop_not_NodeFinished|].
  split; [intros H; unfold Node_put_record; rewrite H; reflexivity|].
  split; [|split].
  - intros outs1 o outs2 p Houts Hnd Hall Hp Hf. unfold Node_put_record.
    rewrite Houts in *. exact (Node_put_record_loop_raise r outs1 o outs2 st p Hnd Hall Hp Hf).
  - intros Hnd Hall.
    destruct (Node_put_record_loop_spec r (outputs n) st Hnd Hall)
      as (st' & Hrun & Hlen & Hin & Hout).
    exists st'. split; [exact Hrun|]. split; [exact Hlen|]. split; [exact Hout|].
    intros o p Ho Hp. destruct (Hin o p Ho Hp) as (p' & Hput & Hst').
    assert (Hfl : exists fl, fields p = Some fl).
    { unfold SimpleDataPipe_put_record in Hput.
      destruct (fields p); [eauto|discriminate]. }
    destruct Hfl as [fl Hfl]. exists p', fl.
    split; [exact Hst'|]. split; [exact Hput|]. split; [exact Hfl|].
    intros Hl.
    destruct (SimpleDataPipe_put_record_effect p p' r Hput Hl) as (fl' & Hfl' & Heff).
    rewrite Hfl in Hfl'. injection Hfl' as <-. exact Heff.
  - intros p fl Hf Hcase. unfold SimpleDataPipe_put_record. rewrite Hf.
    destruct Hcase as [Hc|[Hs|Hq]].
    + apply pipe_put_returns. left. exact Hc.
    + unfold pipe_put. destruct (cls p); [unfold SimpleDataPipe_put; eauto|].
      rewrite Pipe_put_stopped by exact Hs. eauto.
    + apply pipe_put_returns. right. exact Hq.
Qed.

Lemma put_record_calls_every_output_witness :
  let closed_pipe :=
    Pipe_stop (set_fields (Pipe_init 1 0) (Some ["a"%string])) in
  let closed_simple :=
    set_stop_sending (set_fields SimpleDataPipe_init (Some ["a"%string])) true in
  let n := set_outputs (Node_init ClsNode) [0%nat; 1%nat] in
  exists st',
    Node_put_record n {[ "a"%string := VInt 1 ]} [closed_pipe; closed_simple]
    = Return st'
    /\ st' !! 0%nat = Some closed_pipe
    /\ (SimpleDataPipe_rows <$> st' !! 1%nat) = Some [[VInt 1]].
Proof.
  intros closed_pipe closed_simple n.
  destruct (put_record_calls_every_output n {[ "a"%string := VInt 1 ]}
              [closed_pipe; closed_simple]) as (_ & _ & _ & H & _).
  destruct H as (st' & Hrun & _ & _ & Hin).
  - repeat constructor; [|intros Hx; inversion Hx].
    intros Hx. apply list_elem_of_singleton in Hx. discriminate.
  - intros o Ho. simpl in Ho.
    repeat (apply elem_of_cons in Ho as [->|Ho]);
      [eexists _, _; split; reflexivity..|inversion Ho].
  - exists st'. split; [exact Hrun|]. split.
    + destruct (Hin 0%nat closed_pipe) as (p' & fl & -> & _ & _ & Heff);
        [left|reflexivity|].
      rewrite Heff; [reflexivity|]. unfold buffer_live. simpl. lia.
    + destruct (Hin 1%nat closed_simple) as (p' & fl & -> & Hput & _);
        [right; left|reflexivity|].
      injection Hput as <-. reflexivity.
Defined.

(** ** [Node.put] *)

(** C2. For a node whose [N] outputs are distinct pipes of the store, [M]
    of them closed for write: [Node.put] raises [NodeFinished] if and only
    if [M = N] (with [N = 0] included), and then no pipe has changed.
    When the put of no open output has to wait, the loop writes [N - M]
    outputs: each open output is left in the state its own [put] gives
    (the row at the end of its buffer, or of the batch just queued), each
    closed output and each other pipe is left as it was, and for [M < N]
    the call returns.  [Node.put] of [nodes/base.py], which asks
    [closed()], is the same function. *)
Theorem Node_put_fan_out (n : Node) (obj : row) (st : list Pipe) :
  let N := length (outputs n) in
  let M := length (closed_outputs st (outputs n)) in
  NoDup (outputs n) ->
  (forall o, o ∈ outputs n -> (o < length st)%nat) ->
  (M <= N)%nat
  /\ (raises_NodeFinished (Node_put n obj st) = true <-> M = N)
  /\ (M = N -> Node_put n obj st = Raise NodeFinished st)
  /\ ((forall o p, o ∈ outputs n -> st !! o = Some p -> stop_sending p = false ->
         exists p', pipe_put p obj = Return p') ->
      exists st',
        Node_put_loop (outputs n) obj st 0 = Return (st', (N - M)%nat)
        /\ (M < N -> Node_put n obj st = Return st')%nat
        /\ length st' = length st
        /\ (forall o, o ∉ outputs n -> st' !! o = st !! o)
        /\ (forall o p, o ∈ outputs n -> st !! o = Some p ->
              if stop_sending p then st' !! o = Some p
              else exists p', pipe_put p obj = Return p' /\ st' !! o = Some p'
                     /\ (buffer_live p ->
                         buffered p' = buffered p ++ [obj]
                         \/ (last (queued p') = Some (buffered p ++ [obj])
                             /\ buffered p' = []))))
  /\ NodesBase.Node_put n obj st = Node_put n obj st.
Proof.
  intros N M Hnd Hlive. subst N M.
  pose proof (closed_open_length st (outputs n)) as Hsum.
  assert (Hall : length (closed_outputs st (outputs n)) = length (outputs n) ->
                 Node_put n obj st = Raise NodeFinished st).
  { intros HM.
    destruct (Node_put_loop_spec obj (outputs n) st 0 Hnd Hlive)
      as (st' & Hrun & Hlen & Hout & Hin).
    { intros o p Ho Hp Hs.
      pose proof (open_outputs_elem _ _ _ _ Ho Hp Hs). lia. }
    unfold Node_put. rewrite Hrun. simpl.
    replace (length (open_outputs st (outputs n))) with 0%nat by lia.
    f_equal. apply list_eq. intros o.
    destruct (decide (o ∈ outputs n)) as [Ho|Ho]; [|apply Hout, Ho].
    destruct (lookup_lt_is_Some_2 st o (Hlive o Ho)) as [p Hp].
    specialize (Hin o p Ho Hp). destruct (stop_sending p) eqn:Hs.
    - rewrite Hin, Hp. reflexivity.
    - pose proof (open_outputs_elem _ _ _ _ Ho Hp Hs). lia. }
  split; [lia|]. split; [|split; [exact Hall|split; [|reflexivity]]].
  - split.
    + intros Hr. unfold Node_put in Hr.
      pose proof (Node_put_loop_outcome obj (outputs n) st 0 Hnd Hlive) as Hcase.
      destruct (Node_put_loop (outputs n) obj st 0) as [[st' a]|e a|a];
        simpl in Hr.
      * destruct a; [simpl in Hcase; lia|discriminate].
      * destruct Hcase.
      * discriminate.
    + intros HM. rewrite Hall by exact HM. reflexivity.
  - intros Hgo.
    destruct (Node_put_loop_spec obj (outputs n) st 0 Hnd Hlive Hgo)
      as (st' & Hrun & Hlen & Hout & Hin).
    exists st'. split; [rewrite Hrun; do 2 f_equal; lia|].
    split; [|split; [exact Hlen|split; [exact Hout|]]].
    + intros Hlt. unfold Node_put. rewrite Hrun. simpl.
      destruct (length (open_outputs st (outputs n))) eqn:Hopen; [lia|reflexivity].
    + intros o p Ho Hp. specialize (Hin o p Ho Hp).
      destruct (stop_sending p) eqn:Hs; [exact Hin|].
      destruct Hin as (p' & Hput & Hst'). exists p'.
      split; [exact Hput|]. split; [exact Hst'|].
      intros Hl. exact (pipe_put_takes_row p p' obj Hs Hl Hput).
Qed.

Lemma Node_put_fan_out_witness :
  let st := [Pipe_stop (Pipe_init 3 1); Pipe_init 3 1] in
  let n := set_outputs (Node_init ClsNode) [0%nat; 1%nat] in
  exists st', Node_put_loop (outputs n) [VInt 1] st 0 = Return (st', 1%nat).
Proof.
  intros st n.
  destruct (Node_put_fan_out n [VInt 1] st) as (_ & _ & _ & H & _).
  - repeat constructor; [|intros Hx; inversion Hx].
    intros Hx. apply list_elem_of_singleton in Hx. discriminate.
  - intros o Ho. simpl in Ho.
    repeat (apply elem_of_cons in Ho as [->|Ho]); [simpl; lia|simpl; lia|].
    inversion Ho.
  - destruct H as (st' & Hrun & _).
    + intros o p Ho Hp Hs. simpl in Ho.
      repeat (apply elem_of_cons in Ho as [->|Ho]).
      * injection Hp as <-. discriminate Hs.
      * injection Hp as <-. eexists. reflexivity.
      * inversion Ho.
    + exists st'. exact Hrun.
Defined.

(** ** The reader alone *)

Lemma rows_drain_RStop (fuel : nat) (p : Pipe) (s : list row) :
  rows_drain fuel p RStop s = (p, RStop, s).
Proof. destruct fuel; reflexivity. Qed.

Lemma rows_drain_for (p : Pipe) (b : nat) (l : list row) (k : nat) :
  deref (heap p) b = l ->
  forall (i : nat) (s : list row) (fuel : nat),
    (k + i = length l)%nat ->
    rows_drain (S k + fuel) p (RFor b i) s
    = rows_drain fuel p RTaskDone (s ++ drop i l).
Proof.
  intros Hl. induction k as [|k IH]; intros i s fuel Hk.
  - cbn [rows_drain Nat.add rows_step]. rewrite Hl.
    rewrite lookup_ge_None_2 by lia. rewrite drop_ge by lia.
    rewrite app_nil_r. reflexivity.
  - destruct (lookup_lt_is_Some_2 l i) as [x Hx]; [lia|].
    change (S (S k) + fuel)%nat with (S (S k + fuel)).
    cbn [rows_drain rows_step]. rewrite Hl, Hx.
    rewrite IH by lia. rewrite (drop_S l x i Hx), <- app_assoc. reflexivity.
Qed.

Lemma rows_drain_batches (its : list nat) :
  forall (p : Pipe) (s : list row) (extra : nat),
    items (queue p) = its ->
    its <> [] ->
    finished p = true ->
    (length its <= unfinished_tasks (queue p))%nat ->
    rows_drain (drain_fuel p + extra) p RGet s
    = (set_queue p (mkQueue (maxsize (queue p)) []
                            (unfinished_tasks (queue p) - length its)),
       RStop,
       s ++ concat (map (deref (heap p)) its)).
Proof.
  induction its as [|b rest IH]; intros p s extra Hits Hne Hfin Hu; [done|].
  unfold drain_fuel. rewrite Hits. cbn [map sum_list sum_list_with length id] in *.
  assert (Hunf : exists u, unfinished_tasks (queue p) = S u).
  { destruct (unfinished_tasks (queue p)); [lia|eauto]. }
  destruct Hunf as [u Hunf].
  set (p1 := set_queue p (mkQueue (maxsize (queue p)) rest
                                  (unfinished_tasks (queue p)))).
  set (p2 := set_queue p (mkQueue (maxsize (queue p)) rest u)).
  replace (length (deref (heap p) b) + 4
           + sum_list (map (fun b0 => (length (deref (heap p) b0) + 4)%nat) rest)
           + extra)%nat
    with (S (S (length (deref (heap p) b))
             + S (S (sum_list (map (fun b0 => (length (deref (heap p) b0) + 4)%nat) rest)
                     + extra)))) by lia.
  cbn [rows_drain]. unfold rows_step at 1. unfold Queue_get. rewrite Hits.
  fold p1.
  rewrite (rows_drain_for p1 b (deref (heap p) b) (length (deref (heap p) b)))
    by (reflexivity || lia).
  rewrite drop_0.
  cbn [rows_drain]. unfold rows_step at 1. unfold Queue_task_done.
  change (unfinished_tasks (queue p1)) with (unfinished_tasks (queue p)).
  rewrite Hunf.
  change (set_queue p1 (mkQueue (maxsize (queue p1)) (items (queue p1)) u)) with p2.
  unfold rows_step at 1.
  change (finished p2) with (finished p). rewrite Hfin.
  unfold Queue_empty. change (items (queue p2)) with rest. cbn [andb].
  destruct rest as [|b' rest'].
  - rewrite rows_drain_RStop. cbn [concat map]. rewrite app_nil_r.
    unfold p2. simpl. rewrite Nat.sub_0_r. reflexivity.
  - specialize (IH p2 (s ++ deref (heap p) b) extra).
    unfold drain_fuel in IH. change (items (queue p2)) with (b' :: rest') in IH.
    change (heap p2) with (heap p) in IH.
    rewrite IH; try done; [|simpl in *; lia].
    cbn [concat map]. rewrite <- app_assoc.
    unfold p2. reflexivity.
Qed.

(** ** A flush in mid-stream *)

Lemma Pipe_calls_app (cs1 cs2 : list call) (p : Pipe) :
  Pipe_calls (cs1 ++ cs2) p = bind (Pipe_calls cs1 p) (Pipe_calls cs2) id.
Proof.
  revert p. induction cs1 as [|c cs1 IH]; intros p; simpl; [reflexivity|].
  destruct (Pipe_call c p); simpl; auto.
Qed.

Lemma Queue_full_init_one (D : Z) (b : nat) (u : nat) :
  D <> 1 -> Queue_full (mkQueue D [b] u) = false.
Proof.
  intros HD. unfold Queue_full, qsize. cbn [items maxsize length].
  destruct (Z.ltb_spec 0 D); [|reflexivity].
  cbn [andb]. apply Z.eqb_neq. lia.
Qed.

Lemma Queue_full_init_zero (D : Z) (u : nat) : Queue_full (mkQueue D [] u) = false.
Proof.
  unfold Queue_full, qsize. cbn [items maxsize length].
  destruct (Z.ltb_spec 0 D); [|reflexivity].
  cbn [andb]. apply Z.eqb_neq. lia.
Qed.

(** The pipe after [puts bs; flush; puts rs] on a new pipe, as long as
    the buffer stays below capacity: the one batch queued is the buffer
    itself. *)
Lemma flush_in_mid_stream (C D : Z) (bs rs : list row) :
  Z.of_nat (length bs + length rs) < C ->
  Pipe_calls (map CallPut bs ++ CallFlush :: map CallPut rs) (Pipe_init C D)
  = Return (mkPipe ClsPipe [[]; bs ++ rs] 1%nat None false C D
                   (mkQueue D [1%nat] 1) true).
Proof.
  intros Hlt. rewrite Pipe_calls_app.
  rewrite Pipe_puts_below; [|reflexivity|unfold buffer_live; simpl; lia|].
  2:{ change (buffered (Pipe_init C D)) with (@nil row).
      change (buffer_size (Pipe_init C D)) with C. cbn [length]. lia. }
  cbn [bind Pipe_calls Pipe_call].
  rewrite Pipe_flush_open; [|reflexivity|apply Queue_full_init_zero].
  cbn [bind].
  rewrite Pipe_puts_below;
    [|reflexivity|unfold buffer_live; simpl; lia|].
  2:{ unfold buffered, extend_buffer, deref. cbn. exact Hlt. }
  unfold extend_buffer. simpl. reflexivity.
Qed.

Lemma drain_same_batch_twice (C D : Z) (h : list (list row)) (buf : nat)
    (l : list row) (extra : nat) :
  h !! 1%nat = Some l ->
  let p := mkPipe ClsPipe h buf None false C D (mkQueue D [1%nat; 1%nat] 2) true in
  queued p = [l; l]
  /\ rows_drain (drain_fuel p + extra) p RGet []
     = (set_queue p (mkQueue D [] 0), RStop, l ++ l).
Proof.
  intros Hl p.
  assert (Hd : deref h 1%nat = l) by (unfold deref; rewrite Hl; reflexivity).
  split.
  - unfold queued. simpl. rewrite Hd. reflexivity.
  - rewrite (rows_drain_batches [1%nat; 1%nat]) by (first [done | simpl; lia]).
    simpl. rewrite Hd, app_nil_r. reflexivity.
Qed.

(** With the default queue depth 1 the second hand-over waits for the
    reader; scheduled as soon as it can go on, the writer gets the
    buffer into the queue a second time all the same. *)
Example mid_stream_flush_depth_one :
  let c := eager_run 40 (start (Pipe_init 2 1)
                           [CallPut [VInt 1]; CallFlush; CallPut [VInt 2]]) in
  cpc c = RStop /\ seen c = [[VInt 1]; [VInt 2]; [VInt 1]; [VInt 2]].
Proof. vm_compute. split; reflexivity. Qed.

(** ** The same list handed over twice *)

Lemma rows_step_frame (p p' : Pipe) (g g' : rows_pc) (o : option row) :
  rows_step p g = Some (p', g', o) ->
  heap p' = heap p /\ buffer p' = buffer p
  /\ stop_sending p' = stop_sending p /\ buffer_size p' = buffer_size p.
Proof.
  destruct g; simpl; intros H; repeat case_match; simplify_eq; simpl; auto.
Qed.

Lemma prod_step_buffer_size (p p' : Pipe) (pc pc' : prod_pc) (s s' : list call) :
  prod_step p pc s = Some (p', pc', s') -> buffer_size p' = buffer_size p.
Proof.
  destruct pc; simpl; intros H; repeat case_match; simplify_eq; reflexivity.
Qed.

(** A step of the writer keeps it on the course of the script, and adds
    to what it has handed over exactly when the step is a
    [queue.put(self.buffer)]. *)
Lemma resend_inv_prod_step (b : ref) (bs rs : list row) (tail : list call)
    (p p' : Pipe) (pc pc' : prod_pc) (s s' : list call)
    (log : list (ref * list row)) :
  resend_script (buffer_size p) bs rs tail ->
  resend_inv b bs rs tail p pc s log ->
  prod_step p pc s = Some (p', pc', s') ->
  resend_inv b bs rs tail p' pc' s'
    (log ++ match pc with
            | PQueuePut _ => [(buffer p, buffered p)]
            | _ => []
            end).
Proof.
  intros [Hbelow Htail] (Hs & Hb & Hpc) Hstep.
  destruct pc as [|y| |k|k| |]; cbn [prod_step] in Hstep.
  - (* PIdle *)
    rewrite app_nil_r.
    destruct Hpc as [(-> & Hbuf & Hd & ->)|[(rs1 & rs2 & Hrs & Hne & -> & Hbuf & Hd & ->)|(-> & _)]].
    + injection Hstep as <- <- <-. split; [exact Hs|]. split; [exact Hb|].
      left. auto.
    + destruct rs2 as [|y rs2]; cbn [map app] in Hstep.
      * destruct Htail as [(Ht & _)|(Ht & _)]; [destruct Hne as [Hne|Hne]; [done|]; congruence|].
        subst tail. injection Hstep as <- <- <-.
        split; [exact Hs|]. split; [exact Hb|]. right.
        rewrite app_nil_r in Hrs. subst rs1. auto.
      * rewrite Hs in Hstep. injection Hstep as <- <- <-.
        split; [exact Hs|]. split; [exact Hb|]. exists rs1, rs2. auto.
    + discriminate.
  - (* PAppend *)
    rewrite app_nil_r. destruct Hpc as (rs1 & rs2 & Hrs & -> & Hbuf & Hd & ->).
    injection Hstep as <- <- <-.
    split; [exact Hs|]. split; [cbn [heap set_heap]; rewrite length_list_append; exact Hb|].
    exists (rs1 ++ [y]), rs2. rewrite <- app_assoc. cbn [app].
    split; [exact Hrs|]. split; [intros H; destruct rs1; discriminate|].
    split; [reflexivity|]. split; [exact Hbuf|]. split; [|reflexivity].
    cbn [heap set_heap]. rewrite Hbuf. rewrite deref_list_append_eq by exact Hb.
    rewrite Hd, <- app_assoc. reflexivity.
  - (* PLen *)
    rewrite app_nil_r. destruct Hpc as (rs1 & rs2 & Hrs & Hne1 & -> & Hbuf & Hd & ->).
    assert (Hlen : length (buffered p) = (length bs + length rs1)%nat).
    { unfold buffered. rewrite Hbuf, Hd, length_app. reflexivity. }
    rewrite Hlen in Hstep.
    destruct (Z.leb_spec (buffer_size p) (Z.of_nat (length bs + length rs1)))
      as [Hge|Hlt]; injection Hstep as <- <- <-;
      (split; [exact Hs|]); (split; [exact Hb|]).
    + destruct rs2 as [|y rs2].
      * rewrite app_nil_r in Hrs. subst rs1.
        destruct Htail as [(-> & _ & _)|(_ & Hlt)]; [auto 10|exfalso; lia].
      * exfalso. specialize (Hbelow rs1 (y :: rs2) Hrs ltac:(discriminate)). lia.
    + right. left. exists rs1, rs2. split; [exact Hrs|]. split; [|auto].
      destruct rs2 as [|y rs2]; [|left; discriminate].
      rewrite app_nil_r in Hrs. subst rs1.
      destruct Htail as [(_ & _ & Hge)|(-> & _)]; [exfalso; lia|right; discriminate].
  - (* PSendCheck *)
    rewrite app_nil_r. rewrite Hs in Hstep. injection Hstep as <- <- <-.
    split; [exact Hs|]. split; [exact Hb|]. destruct k; exact Hpc.
  - (* PQueuePut *)
    destruct (Queue_put (queue p) (buffer p)) as [q|]; [|discriminate].
    injection Hstep as <- <- <-.
    split; [exact Hs|]. split; [exact Hb|].
    unfold buffered. destruct k; cbn [after_send].
    + destruct Hpc as (-> & -> & Hbuf & Hd & ->). rewrite Hbuf, Hd.
      repeat split; auto.
    + destruct Hpc as [(-> & Hbuf & Hd & ->)|(-> & Ht & Hbuf & Hd & ->)];
        rewrite Hbuf, Hd; [left|right]; repeat split; auto.
  - (* PReset *)
    rewrite app_nil_r. destruct Hpc as (-> & Ht & Hbuf & Hd & ->).
    injection Hstep as <- <- <-.
    split; [exact Hs|]. unfold new_buffer. cbn [list_new heap set_heap set_buffer].
    split; [rewrite length_app; simpl; lia|].
    right. right. rewrite deref_list_new_old by exact Hb. auto.
  - (* PFinish *)
    rewrite app_nil_r. injection Hstep as <- <- <-.
    split; [exact Hs|]. split; [exact Hb|].
    destruct Hpc as [(-> & Hbuf & Hd & ->)|(-> & Ht & Hd & ->)].
    + right. left. exists [], rs. rewrite app_nil_r.
      split; [reflexivity|]. split; [|auto].
      destruct Htail as [(_ & Hne & _)|(-> & _)]; [left; exact Hne|right; discriminate].
    + right. right. auto.
Qed.

Lemma resend_inv_run (b : ref) (bs rs : list row) (tail : list call)
    (sched : list thread) :
  forall (c : Config) (log : list (ref * list row)),
    resend_script (buffer_size (pipe c)) bs rs tail ->
    resend_inv b bs rs tail (pipe c) (ppc c) (script c) log ->
    resend_inv b bs rs tail (pipe (run sched c)) (ppc (run sched c))
               (script (run sched c)) (log ++ handovers sched c).
Proof.
  induction sched as [|t sched IH]; intros c log Hsc Hinv; cbn [run handovers].
  - rewrite app_nil_r. exact Hinv.
  - destruct (step t c) as [c1|] eqn:Hstep; [|apply IH; assumption].
    destruct c as [p pc s g sn]. unfold step in Hstep.
    cbn [pipe ppc script cpc seen] in *. destruct t.
    + destruct (prod_step p pc s) as [[[p' pc'] s']|] eqn:Hp; [|discriminate].
      injection Hstep as <-.
      pose proof (resend_inv_prod_step _ _ _ _ _ _ _ _ _ _ _ Hsc Hinv Hp) as Hinv'.
      pose proof (prod_step_buffer_size _ _ _ _ _ _ Hp) as Hsz.
      assert (Hgo : forall log',
                resend_inv b bs rs tail p' pc' s' log' ->
                resend_inv b bs rs tail
                  (pipe (run sched (mkConfig p' pc' s' g sn)))
                  (ppc (run sched (mkConfig p' pc' s' g sn)))
                  (script (run sched (mkConfig p' pc' s' g sn)))
                  (log' ++ handovers sched (mkConfig p' pc' s' g sn))).
      { intros log' H. apply (IH (mkConfig p' pc' s' g sn)); cbn [pipe ppc script].
        - rewrite Hsz. exact Hsc.
        - exact H. }
      destruct pc; try (rewrite app_nil_r in Hinv'; apply Hgo; exact Hinv').
      specialize (Hgo _ Hinv'). rewrite <- app_assoc in Hgo. exact Hgo.
    + assert (Hc1 : exists p' g' sn', c1 = mkConfig p' pc s g' sn'
                     /\ heap p' = heap p /\ buffer p' = buffer p
                     /\ stop_sending p' = stop_sending p
                     /\ buffer_size p' = buffer_size p).
      { destruct (rows_step p g) as [[[p' g'] o]|] eqn:Hr; [|discriminate].
        apply rows_step_frame in Hr.
        destruct o; injection Hstep as <-; eauto 10. }
      destruct Hc1 as (p' & g' & sn' & -> & Hh & Hbuf & Hs & Hsz).
      assert (Hinv' : resend_inv b bs rs tail p' pc s log).
      { unfold resend_inv in *. rewrite Hh, Hbuf, Hs. exact Hinv. }
      assert (Hrun := IH (mkConfig p' pc s g' sn') log).
      cbn [pipe ppc script] in Hrun. rewrite Hsz in Hrun.
      specialize (Hrun Hsc Hinv'). destruct pc; exact Hrun.
Qed.

Lemma resend_inv_log (b : ref) (bs rs : list row) (tail : list call)
    (p : Pipe) (pc : prod_pc) (s : list call) (log : list (ref * list row)) :
  resend_inv b bs rs tail p pc s log ->
  log `prefix_of` [(b, bs); (b, bs ++ rs)]
  /\ (pc = PIdle -> s = [] ->
      log = [(b, bs); (b, bs ++ rs)] /\ deref (heap p) b = bs ++ rs).
Proof.
  intros (_ & _ & Hpc).
  assert (H0 : @nil (ref * list row) `prefix_of` [(b, bs); (b, bs ++ rs)])
    by apply prefix_nil.
  assert (H1 : [(b, bs)] `prefix_of` [(b, bs); (b, bs ++ rs)])
    by (exists [(b, bs ++ rs)]; reflexivity).
  destruct pc as [|y| |k|k| |].
  - destruct Hpc as [(-> & _ & _ & ->)|[(rs1 & rs2 & _ & Hne & -> & _ & _ & ->)|(_ & Hd & ->)]].
    + split; [exact H0|]. intros _ [=].
    + split; [exact H1|]. intros _ Hnil. apply app_eq_nil in Hnil as [Hm ->].
      destruct rs2; [|discriminate]. destruct Hne as [Hne|Hne]; done.
    + split; [reflexivity|]. auto.
  - destruct Hpc as (rs1 & rs2 & _ & _ & _ & _ & ->). split; [exact H1|]. intros [=].
  - destruct Hpc as (rs1 & rs2 & _ & _ & _ & _ & _ & ->). split; [exact H1|]. intros [=].
  - split; [|intros [=]]. destruct k.
    + destruct Hpc as (_ & _ & _ & _ & ->). exact H1.
    + destruct Hpc as [(_ & _ & _ & ->)|(_ & _ & _ & _ & ->)]; assumption.
  - split; [|intros [=]]. destruct k.
    + destruct Hpc as (_ & _ & _ & _ & ->). exact H1.
    + destruct Hpc as [(_ & _ & _ & ->)|(_ & _ & _ & _ & ->)]; assumption.
  - destruct Hpc as (_ & _ & _ & _ & ->). split; [reflexivity|]. intros [=].
  - split; [|intros [=]].
    destruct Hpc as [(_ & _ & _ & ->)|(_ & _ & _ & ->)]; [exact H1|reflexivity].
Qed.

Lemma Pipe_put_Return_room (p p' : Pipe) (obj : row) :
  stop_sending p = false ->
  buffer_live p ->
  buffer_size p <= Z.of_nat (length (buffered p) + 1) ->
  Pipe_put p obj = Return p' ->
  Queue_full (queue p) = false.
Proof.
  intros Hs Hl Hge. unfold Pipe_put. rewrite Hs.
  change (set_heap p (list_append (heap p) (buffer p) obj))
    with (extend_buffer p [obj]).
  rewrite buffered_extend_buffer by done. rewrite length_app. simpl.
  destruct (Z.leb_spec (buffer_size p) (Z.of_nat (length (buffered p) + 1)));
    [|lia].
  unfold Pipe__send_buffer, Queue_put. simpl. rewrite Hs.
  destruct (Queue_full (queue p)); [discriminate|reflexivity].
Qed.

(** The script as calls that return: the queue has received the list at
    [buffer p] two times. *)
Lemma Pipe_calls_resend (p p' : Pipe) (rs : list row) (tail : list call) :
  stop_sending p = false ->
  buffer_live p ->
  resend_script (buffer_size p) (buffered p) rs tail ->
  Pipe_calls (CallFlush :: map CallPut rs ++ tail) p = Return p' ->
  items (queue p') = items (queue p) ++ [buffer p; buffer p]
  /\ deref (heap p') (buffer p) = buffered p ++ rs.
Proof.
  intros Hs Hl [Hbelow Htail]. cbn [Pipe_calls Pipe_call].
  destruct (Pipe_flush p) as [p1|e p1|p1] eqn:Hf; cbn [bind]; try discriminate.
  destruct (Pipe_flush_Return _ _ Hf) as (_ & Hh & Hb & Hs1 & Hsz & Hq & _).
  specialize (Hq Hs). rewrite Hs in Hs1.
  assert (Hl1 : buffer_live p1) by (unfold buffer_live; rewrite Hh, Hb; exact Hl).
  assert (Hbuf1 : buffered p1 = buffered p) by (unfold buffered; rewrite Hh, Hb; reflexivity).
  rewrite Pipe_calls_app.
  destruct Htail as [(-> & Hne & Hge)|(-> & Hlt)].
  - destruct rs as [|x rs0 _] using rev_ind; [done|].
    rewrite map_app, Pipe_calls_app.
    rewrite (Pipe_puts_below rs0 p1 Hs1 Hl1)
      by (rewrite Hbuf1, Hsz; apply (Hbelow rs0 [x]); [reflexivity|discriminate]).
    cbn [bind map Pipe_calls Pipe_call].
    set (p3 := extend_buffer p1 rs0).
    assert (Hl3 : buffer_live p3) by apply buffer_live_extend_buffer, Hl1.
    assert (Hb3 : buffered p3 = buffered p ++ rs0).
    { unfold p3. rewrite buffered_extend_buffer by exact Hl1. rewrite Hbuf1. reflexivity. }
    assert (Hge3 : buffer_size p3 <= Z.of_nat (length (buffered p3) + 1)).
    { rewrite Hb3. change (buffer_size p3) with (buffer_size p1). rewrite Hsz.
      rewrite !length_app in *. simpl in Hge. lia. }
    destruct (Pipe_put p3 x) as [p4|e p4|p4] eqn:Hput; cbn [bind]; try discriminate.
    pose proof (Pipe_put_Return_room p3 p4 x Hs1 Hl3 Hge3 Hput) as Hfull.
    rewrite (Pipe_put_at_capacity p3 x Hs1 Hl3 Hge3 Hfull) in Hput.
    injection Hput as <-. intros [= <-].
    unfold id, new_buffer. cbn [list_new heap set_heap set_buffer queue set_queue items].
    change (items (queue p3)) with (items (queue p1)).
    change (buffer p3) with (buffer p1). rewrite Hq, Hb, <- app_assoc.
    split; [reflexivity|].
    rewrite deref_list_new_old.
    + change (deref (heap (extend_buffer p3 [x])) (buffer p))
        with (deref (heap (extend_buffer p3 [x])) (buffer p)).
      rewrite <- Hb. change (buffer p1) with (buffer p3).
      change (deref (heap (extend_buffer p3 [x])) (buffer p3))
        with (buffered (extend_buffer p3 [x])).
      rewrite buffered_extend_buffer by exact Hl3. rewrite Hb3, <- app_assoc.
      reflexivity.
    + unfold extend_buffer. cbn [heap set_heap]. rewrite length_alter.
      rewrite <- Hb. exact Hl3.
  - rewrite (Pipe_puts_below rs p1 Hs1 Hl1) by (rewrite Hbuf1, Hsz; exact Hlt).
    cbn [bind Pipe_calls Pipe_call].
    set (p3 := extend_buffer p1 rs).
    destruct (Pipe_flush p3) as [p4|e p4|p4] eqn:Hf3; cbn [bind]; try discriminate.
    intros [= <-].
    destruct (Pipe_flush_Return _ _ Hf3) as (_ & Hh4 & Hb4 & _ & _ & Hq4 & _).
    specialize (Hq4 Hs1). unfold id.
    change (items (queue p3)) with (items (queue p1)) in Hq4.
    change (buffer p3) with (buffer p1) in Hq4.
    rewrite Hq4, Hq, Hb, <- app_assoc. split; [reflexivity|].
    rewrite Hh4, <- Hb. change (buffer p1) with (buffer p3).
    change (deref (heap p3) (buffer p3)) with (buffered p3).
    unfold p3. rewrite buffered_extend_buffer by exact Hl1. rewrite Hbuf1.
    reflexivity.
Qed.

(** Counterexample to C9 as stated: on [Pipe(2, 0)] the writer puts row
    1 and flushes; the reader takes the batch, yields row 1, finds
    [finished] set and the queue empty, and ends; only then the writer
    puts row 2, which brings the buffer to capacity and hands the list,
    rows 1 and 2, to the queue again.  Both threads are done and the
    reader has seen row 1 once. *)
Lemma reader_ends_before_second_hand_over :
  ~ (forall sched : list thread,
       let c := run sched (start (Pipe_init 2 0)
                             [CallPut [VInt 1]; CallFlush; CallPut [VInt 2]]) in
       ppc c = PIdle -> script c = [] -> cpc c = RStop ->
       times_seen [VInt 1] c = 2%nat).
Proof.
  intros H.
  specialize (H (replicate 7 Producer ++ replicate 5 Consumer
                 ++ replicate 6 Producer) eq_refl eq_refl eq_refl).
  vm_compute in H. discriminate H.
Qed.

(** C9, amended. [flush()] does not clear the producer-side buffer: the
    list it hands to the queue stays the producer's buffer.  After a
    flush in mid-stream, with the pipe open for write, the rows already
    handed over remain in that list, further puts append to it, and when
    the buffer next reaches capacity (or the producer flushes again) the
    same list is handed to the queue a second time: in every
    interleaving with the reader, for every queue depth, the hand-overs
    of the writer are this list twice, the second time with the rows of
    the first and the rows put since.  What the consumer observes depends
    on the schedule: a reader finding the list twice in the queue yields
    its rows two times over, while a reader that finds it once, after
    the flush, yields the rows once and ends its iteration, and takes
    nothing that is queued later. *)
Theorem flush_hands_same_list_again
    (p : Pipe) (rs : list row) (tail : list call) :
  stop_sending p = false ->
  buffer_live p ->
  resend_script (buffer_size p) (buffered p) rs tail ->
  let b := buffer p in
  let s := CallFlush :: map CallPut rs ++ tail in
  let twice := [(b, buffered p); (b, buffered p ++ rs)] in
  (forall p1, Pipe_flush p = Return p1 ->
     buffer p1 = b /\ buffered p1 = buffered p
     /\ items (queue p1) = items (queue p) ++ [b])
  /\ (forall p', Pipe_calls s p = Return p' ->
        items (queue p') = items (queue p) ++ [b; b]
        /\ deref (heap p') b = buffered p ++ rs)
  /\ (forall sched g sn,
        let c := run sched (mkConfig p PIdle s g sn) in
        handovers sched (mkConfig p PIdle s g sn) `prefix_of` twice
        /\ (ppc c = PIdle -> script c = [] ->
            handovers sched (mkConfig p PIdle s g sn) = twice
            /\ deref (heap (pipe c)) b = buffered p ++ rs))
  /\ (forall pp extra,
        finished pp = true ->
        (2 <= unfinished_tasks (queue pp))%nat ->
        items (queue pp) = [b; b] ->
        rows_drain (drain_fuel pp + extra) pp RGet []
        = (set_queue pp (mkQueue (maxsize (queue pp)) []
                                 (unfinished_tasks (queue pp) - 2)),
           RStop, deref (heap pp) b ++ deref (heap pp) b))
  /\ (forall pp extra,
        finished pp = true ->
        (1 <= unfinished_tasks (queue pp))%nat ->
        items (queue pp) = [b] ->
        rows_drain (drain_fuel pp + extra) pp RGet []
        = (set_queue pp (mkQueue (maxsize (queue pp)) []
                                 (unfinished_tasks (queue pp) - 1)),
           RStop, deref (heap pp) b))
  /\ (forall pp, rows_step pp RStop = None).
Proof.
  intros Hs Hl Hsc b s twice.
  split; [|split; [|split; [|split; [|split]]]].
  - intros p1 Hf.
    destruct (Pipe_flush_Return _ _ Hf) as (_ & Hh & Hb & _ & _ & Hq & _).
    split; [exact Hb|]. split; [unfold buffered; rewrite Hh, Hb; reflexivity|].
    exact (Hq Hs).
  - intros p' Hrun. exact (Pipe_calls_resend p p' rs tail Hs Hl Hsc Hrun).
  - intros sched g sn c.
    assert (Hinv : resend_inv b (buffered p) rs tail p PIdle s []).
    { split; [exact Hs|]. split; [exact Hl|]. left. auto. }
    pose proof (resend_inv_run b (buffered p) rs tail sched
                  (mkConfig p PIdle s g sn) [] Hsc Hinv) as Hrun.
    cbn [app] in Hrun. apply resend_inv_log in Hrun. exact Hrun.
  - intros pp extra Hfin Hu Hi.
    rewrite (rows_drain_batches [b; b]) by (first [done | simpl; lia]).
    cbn [length map concat app]. rewrite app_nil_r. reflexivity.
  - intros pp extra Hfin Hu Hi.
    rewrite (rows_drain_batches [b]) by (first [done | simpl; lia]).
    cbn [length map concat app]. rewrite app_nil_r. reflexivity.
  - reflexivity.
Qed.

Lemma flush_hands_same_list_again_witness :
  let p := extend_buffer (Pipe_init 2 1) [[VInt 1]] in
  let c0 := mkConfig p PIdle [CallFlush; CallPut [VInt 2]] RGet [] in
  let sched := replicate 8 Producer ++ [Consumer] ++ replicate 2 Producer in
  handovers sched c0
  = [(1%nat, [[VInt 1]]); (1%nat, [[VInt 1]; [VInt 2]])].
Proof.
  intros p c0 sched.
  destruct (flush_hands_same_list_again p [[VInt 2]] []) as (_ & _ & H & _).
  - reflexivity.
  - unfold buffer_live. simpl. lia.
  - split.
    + intros rs1 rs2 Hrs Hne. destruct rs1 as [|y rs1]; [simpl; lia|].
      injection Hrs as _ Hnil. symmetry in Hnil.
      apply app_eq_nil in Hnil as [_ ->]. done.
    + left. split; [reflexivity|]. split; [discriminate|]. simpl. lia.
  - destruct (H sched RGet []) as [_ Hdone].
    destruct Hdone as [Hlog _]; [reflexivity|reflexivity|]. exact Hlog.
Defined.

(** ** The steps of a call, run alone, and the call as a whole *)

Lemma prod_run_idle (fuel : nat) (p : Pipe) : prod_run fuel p PIdle [] = (p, PIdle, []).
Proof. destruct fuel; reflexivity. Qed.

Lemma prod_run_blocked (fuel : nat) (p : Pipe) (k : caller) (s : list call) :
  Queue_full (queue p) = true ->
  prod_run fuel p (PQueuePut k) s = (p, PQueuePut k, s).
Proof.
  intros H. destruct fuel; [reflexivity|]. simpl. unfold Queue_put. rewrite H.
  reflexivity.
Qed.

(** The steps of one [put], with no other thread moving, end where
    [Pipe_put] says: back between calls with the same pipe, or waiting at
    [queue.put] with the row already appended. *)
Lemma prod_run_put (extra : nat) (p : Pipe) (obj : row) :
  prod_run (6 + extra) p PIdle [CallPut obj]
  = match Pipe_put p obj with
    | Return p' => (p', PIdle, [])
    | Raise _ p' => (p', PIdle, [])
    | Blocks p' => (p', PQueuePut InPut, [])
    end.
Proof.
  unfold Pipe_put, Pipe__send_buffer.
  change (6 + extra)%nat with (S (S (S (S (S (S extra)))))).
  cbn [prod_run prod_step].
  destruct (stop_sending p) eqn:Hs.
  - destruct extra; reflexivity.
  - cbn [prod_run prod_step].
    destruct (_ <=? _); [|destruct extra; reflexivity].
    cbn [prod_run prod_step set_heap stop_sending]. rewrite Hs.
    cbn [prod_run prod_step]. unfold Queue_put.
    destruct (Queue_full (queue (set_heap p _))) eqn:Hfull.
    + cbn [bind id]. reflexivity.
    + cbn [bind id after_send prod_run prod_step]. destruct extra; reflexivity.
Qed.

Lemma prod_run_flush (extra : nat) (p : Pipe) :
  prod_run (4 + extra) p PIdle [CallFlush]
  = match Pipe_flush p with
    | Return p' => (p', PIdle, [])
    | Raise _ p' => (p', PIdle, [])
    | Blocks p' => (p', PQueuePut InFlush, [])
    end.
Proof.
  unfold Pipe_flush, Pipe__send_buffer.
  change (4 + extra)%nat with (S (S (S (S extra)))).
  cbn [prod_run prod_step].
  destruct (stop_sending p) eqn:Hs.
  - cbn [bind after_send prod_run prod_step]. destruct extra; reflexivity.
  - cbn [prod_run prod_step]. unfold Queue_put.
    destruct (Queue_full (queue p)) eqn:Hfull.
    + cbn [bind id]. reflexivity.
    + cbn [bind id after_send prod_run prod_step]. destruct extra; reflexivity.
Qed.

(** ** Every interleaving of puts, a flush and a draining reader *)

Lemma queued_list_append (h : list (list row)) (buf : nat) (x : row) (its : list nat) :
  buf ∉ its ->
  map (deref (list_append h buf x)) its = map (deref h) its.
Proof.
  intros Hn. apply List.map_ext_in. intros b Hb.
  apply deref_list_append_ne. intros ->. apply Hn, list_elem_of_In, Hb.
Qed.

Lemma queued_list_new (h : list (list row)) (its : list nat) :
  (forall b, b ∈ its -> (b < length h)%nat) ->
  map (deref (h ++ [[]])) its = map (deref h) its.
Proof.
  intros Hl. apply List.map_ext_in. intros b Hb.
  apply deref_list_new_old, Hl, list_elem_of_In, Hb.
Qed.

Lemma puts_then_flush_cons (s : list call) (c : call) (todo : list row) :
  c :: s = puts_then_flush todo ->
  (exists obj rest, c = CallPut obj /\ todo = obj :: rest /\ s = puts_then_flush rest)
  \/ (c = CallFlush /\ todo = [] /\ s = []).
Proof.
  unfold puts_then_flush. destruct todo as [|obj rest]; simpl; intros [= -> ->].
  - right. auto.
  - left. eauto.
Qed.

Lemma puts_then_flush_not_nil (todo : list row) : puts_then_flush todo <> [].
Proof. unfold puts_then_flush. destruct todo; discriminate. Qed.

Lemma owns_buffer_PIdle_script (todo : list row) :
  owns_buffer PIdle (puts_then_flush todo) = true.
Proof. unfold puts_then_flush. destruct todo; reflexivity. Qed.


Lemma batch_rest_list_append (h : list (list row)) (buf : nat) (x : row) (g : rows_pc) :
  (forall b i, g = RFor b i -> b <> buf) ->
  batch_rest (list_append h buf x) g = batch_rest h g.
Proof.
  intros Hn. destruct g as [|b i| | | |]; try reflexivity. simpl.
  rewrite deref_list_append_ne; [reflexivity|]. intros ->. exact (Hn b i eq_refl eq_refl).
Qed.

Lemma batch_rest_list_new (h : list (list row)) (g : rows_pc) :
  (forall b i, g = RFor b i -> (b < length h)%nat) ->
  batch_rest (h ++ [[]]) g = batch_rest h g.
Proof.
  intros Hl. destruct g as [|b i| | | |]; try reflexivity. simpl.
  rewrite deref_list_new_old; [reflexivity|]. exact (Hl b i eq_refl).
Qed.

Ltac inv_fields :=
  constructor; unfold pending, unread, buffer_live, buffered, queued;
  cbn [pipe ppc script cpc seen set_heap set_queue set_finished set_buffer
       new_buffer list_new heap buffer queue finished stop_sending items
       unfinished_tasks maxsize qsize after_send].

Lemma inv_prod_step (rows : list row) (c c' : Config) :
  inv rows c -> step Producer c = Some c' -> inv rows c'.
Proof.
  destruct c as [p pc s g sn].
  intros [Hopen (todo & Hshape & Hrows) Hlive Hql Hbl Hoq Hob Hfin Hcpc Htasks].
  unfold pending, unread, buffer_live, buffered, queued in *.
  cbn [pipe ppc script cpc seen] in *.
  unfold step. cbn [pipe ppc script cpc seen].
  destruct pc as [|obj| |k|k| |]; cbn [prod_step].
  - (* PIdle *)
    destruct s as [|[obj|] s]; [discriminate| |].
    + rewrite Hopen. intros [= <-].
      destruct Hshape as [Hs|[Hs _]]; [|discriminate].
      apply puts_then_flush_cons in Hs
        as [(obj' & rest & [= <-] & -> & ->)|([=] & _)].
      inv_fields; cbn [owns_buffer]; auto.
      * exists (obj :: rest). split; [cbn; eauto|].
        rewrite Hrows. cbn [owns_buffer puts_then_flush map app]. reflexivity.
      * split; [|intros [[=] _]]. intros Hf. apply Hfin in Hf as [_ [=]].
    + intros [= <-].
      destruct Hshape as [Hs|[Hs _]]; [|discriminate].
      apply puts_then_flush_cons in Hs
        as [(obj' & rest & [=] & _)|(_ & -> & ->)].
      inv_fields; cbn [owns_buffer]; auto.
      * exists []. split; [cbn; auto|]. rewrite Hrows. reflexivity.
      * split; [|intros [[=] _]]. intros Hf. apply Hfin in Hf as [_ [=]].
  - (* PAppend *)
    intros [= <-]. destruct Hshape as (rest & -> & ->).
    cbn [owns_buffer] in *.
    inv_fields; cbn [owns_buffer]; rewrite ?length_list_append; auto.
    + exists rest. split; [reflexivity|].
      rewrite batch_rest_list_append by (apply Hob; reflexivity).
      rewrite queued_list_append by (apply Hoq; reflexivity).
      rewrite deref_list_append_eq by exact Hlive.
      rewrite Hrows. rewrite <- !app_assoc. reflexivity.
    + split; [|intros [[=] _]]. intros Hf. apply Hfin in Hf as [[=] _].
  - (* PLen *)
    cbn [script_shape] in Hshape. subst s.
    cbn [owns_buffer] in *.
    assert (Hfalse : finished p = true -> False).
    { intros Hf. apply Hfin in Hf as [[=] _]. }
    destruct (_ <=? _); intros [= <-]; inv_fields;
      rewrite ?owns_buffer_PIdle_script; cbn [owns_buffer]; auto.
    + exists todo. split; [reflexivity|exact Hrows].
    + split; [intros Hf; destruct (Hfalse Hf)|intros [[=] _]].
    + exists todo. split; [left; reflexivity|exact Hrows].
    + split; [intros Hf; destruct (Hfalse Hf)|].
      intros [_ Hs]. destruct (puts_then_flush_not_nil _ Hs).
  - (* PSendCheck *)
    rewrite Hopen. intros [= <-]. cbn [owns_buffer] in *.
    assert (Hfalse : finished p = true -> False).
    { intros Hf. apply Hfin in Hf as [[=] _]. }
    inv_fields; cbn [owns_buffer]; auto.
    + exists todo. split; [destruct k; exact Hshape|exact Hrows].
    + split; [intros Hf; destruct (Hfalse Hf)|intros [[=] _]].
  - (* PQueuePut *)
    unfold Queue_put. destruct (Queue_full (queue p)); [discriminate|].
    intros [= <-]. cbn [owns_buffer] in *.
    assert (Hfalse : finished p = true -> False).
    { intros Hf. apply Hfin in Hf as [[=] _]. }
    assert (Hown : owns_buffer (after_send k) s = false) by (destruct k; reflexivity).
    inv_fields; rewrite ?Hown; auto; try discriminate.
    + exists todo. split; [destruct k; exact Hshape|].
      rewrite Hrows, map_app, concat_app. cbn [map concat].
      rewrite !app_nil_r. reflexivity.
    + intros b Hb. apply elem_of_app in Hb as [Hb|Hb]; [auto|].
      apply list_elem_of_singleton in Hb as ->. exact Hlive.
    + split; [intros Hf; destruct (Hfalse Hf)|intros [Hk _]; destruct k; discriminate].
    + destruct g; auto. destruct Hcpc as [Hf _]. destruct (Hfalse Hf).
    + unfold qsize in *. cbn [items]. rewrite length_app. cbn [length]. lia.
  - (* PReset *)
    intros [= <-]. cbn [owns_buffer script_shape] in *. subst s.
    assert (Hfalse : finished p = true -> False).
    { intros Hf. apply Hfin in Hf as [[=] _]. }
    inv_fields; fold (owns_buffer PIdle (puts_then_flush todo));
      rewrite ?owns_buffer_PIdle_script; rewrite ?length_app; cbn [length]; auto.
    + exists todo. split; [left; reflexivity|].
      rewrite batch_rest_list_new by exact Hbl.
      rewrite queued_list_new by exact Hql.
      rewrite deref_list_new_fresh. exact Hrows.
    + lia.
    + intros b Hb. specialize (Hql b Hb). lia.
    + intros b i Hg. specialize (Hbl b i Hg). lia.
    + intros _ Hin. specialize (Hql _ Hin). lia.
    + intros _ b i Hg. specialize (Hbl b i Hg). lia.
    + split; [intros Hf; destruct (Hfalse Hf)|].
      intros [_ Hs]. destruct (puts_then_flush_not_nil _ Hs).
  - (* PFinish *)
    intros [= <-]. cbn [owns_buffer script_shape] in *.
    destruct Hshape as [-> ->].
    assert (Hfalse : finished p = true -> False).
    { intros Hf. apply Hfin in Hf as [[=] _]. }
    inv_fields; auto; try discriminate.
    + exists []. split; [right; auto|exact Hrows].
    + split; auto.
    + destruct g; auto. destruct Hcpc as [Hf _]. destruct (Hfalse Hf).
Qed.

Lemma inv_cons_step (rows : list row) (c c' : Config) :
  inv rows c -> step Consumer c = Some c' -> inv rows c'.
Proof.
  destruct c as [p pc s g sn].
  intros [Hopen (todo & Hshape & Hrows) Hlive Hql Hbl Hoq Hob Hfin Hcpc Htasks].
  unfold pending, unread, buffer_live, buffered, queued in *.
  cbn [pipe ppc script cpc seen] in *.
  unfold step. cbn [pipe ppc script cpc seen].
  destruct g as [|b i| | | |e]; cbn [rows_step].
  - (* RGet *)
    unfold Queue_get. destruct (items (queue p)) as [|b rest] eqn:Hits;
      [discriminate|].
    intros [= <-]. inv_fields; auto; try (intros; discriminate).
    + exists todo. split; [exact Hshape|].
      rewrite Hrows. cbn [batch_rest map concat app]. rewrite drop_0.
      rewrite <- !app_assoc. reflexivity.
    + intros b' Hb'. apply Hql. right. exact Hb'.
    + intros b' i' [= <- <-]. apply Hql. left.
    + intros Ho Hin. apply (Hoq Ho). right. exact Hin.
    + intros Ho b' i' [= <- <-] ->. apply (Hoq Ho). left.
    + unfold qsize in *. rewrite Hits in Htasks.
      cbn [items holding length] in *. lia.
  - (* RFor *)
    destruct (deref (heap p) b !! i) as [obj|] eqn:Hlk; intros [= <-];
      inv_fields; auto; try (intros; discriminate).
    + exists todo. split; [exact Hshape|].
      rewrite Hrows. cbn [batch_rest]. rewrite (drop_S _ _ _ Hlk).
      rewrite <- !app_assoc. reflexivity.
    + intros b' i' [= <- <-]. apply (Hbl b i). reflexivity.
    + intros Ho b' i' [= <- <-]. apply (Hob Ho b i). reflexivity.
    + exists todo. split; [exact Hshape|].
      rewrite Hrows. cbn [batch_rest].
      rewrite (drop_ge _ i) by (apply lookup_ge_None; exact Hlk). reflexivity.
  - (* RTaskDone *)
    unfold Queue_task_done.
    destruct (unfinished_tasks (queue p)) as [|u] eqn:Hu;
      [cbn [holding] in Htasks; lia|].
    intros [= <-]. inv_fields; auto; try (intros; discriminate).
    + exists todo. split; [exact Hshape|exact Hrows].
    + unfold qsize in *. cbn [items holding] in *. lia.
  - (* RCheck *)
    destruct (finished p && Queue_empty (queue p)) eqn:Hchk; intros [= <-];
      inv_fields; auto; try (intros; discriminate).
    + exists todo. split; [exact Hshape|exact Hrows].
    + apply andb_true_iff in Hchk as [Hf He]. split; [exact Hf|].
      unfold Queue_empty in He. destruct (items (queue p)); [reflexivity|discriminate].
    + exists todo. split; [exact Hshape|exact Hrows].
  - discriminate.
  - discriminate.
Qed.

Lemma inv_step (rows : list row) (t : thread) (c c' : Config) :
  inv rows c -> step t c = Some c' -> inv rows c'.
Proof. destruct t; [apply inv_prod_step|apply inv_cons_step]. Qed.

Lemma inv_run (rows : list row) (sched : list thread) (c : Config) :
  inv rows c -> inv rows (run sched c).
Proof.
  revert c. induction sched as [|t sched IH]; intros c Hc; simpl; [exact Hc|].
  destruct (step t c) as [c'|] eqn:Hs; [|apply IH, Hc].
  apply IH. exact (inv_step rows t c c' Hc Hs).
Qed.

Lemma fresh_Pipe_init (C D : Z) (f : option FieldList) :
  fresh (set_fields (Pipe_init C D) f).
Proof. unfold fresh, buffer_live. simpl. repeat split; auto. Qed.

Lemma inv_start (p : Pipe) (rows : list row) :
  fresh p -> inv rows (start p (puts_then_flush rows)).
Proof.
  intros (Hopen & Hfin & Hlive & Hbuf & Hits & Hu).
  constructor; unfold pending, unread, start;
    cbn [pipe ppc script cpc seen holding batch_rest].
  - exact Hopen.
  - exists rows. split; [left; reflexivity|].
    rewrite owns_buffer_PIdle_script. unfold queued. rewrite Hbuf, Hits.
    reflexivity.
  - exact Hlive.
  - intros b Hb. rewrite Hits in Hb. inversion Hb.
  - intros b i [=].
  - intros _ Hb. rewrite Hits in Hb. inversion Hb.
  - intros _ b i [=].
  - split; [rewrite Hfin; discriminate|].
    intros [_ Hs]. destruct (puts_then_flush_not_nil _ Hs).
  - exact I.
  - unfold qsize. rewrite Hits, Hu. simpl. lia.
Qed.

Lemma inv_prefix (rows : list row) (c : Config) :
  inv rows c -> seen c `prefix_of` rows.
Proof.
  intros [_ (todo & _ & Hrows) _ _ _ _ _ _ _ _].
  rewrite Hrows, <- app_assoc. apply prefix_app_r. reflexivity.
Qed.

Lemma inv_drained (rows : list row) (c : Config) :
  inv rows c -> drained c -> seen c = rows.
Proof.
  intros [_ (todo & Hshape & Hrows) _ _ _ _ _ _ _ _] (Hpc & Hs & Hits & Hun).
  unfold pending, queued in Hrows. rewrite Hpc, Hs, Hits, Hun in *.
  cbn in Hshape. destruct Hshape as [Hs'|[_ ->]].
  - symmetry in Hs'. destruct (puts_then_flush_not_nil _ Hs').
  - rewrite Hrows. cbn. rewrite !app_nil_r. reflexivity.
Qed.

Lemma inv_RStop_drained (rows : list row) (c : Config) :
  inv rows c -> cpc c = RStop -> drained c.
Proof.
  intros Hinv Hg. pose proof (inv_cpc _ _ Hinv) as Hc. rewrite Hg in Hc.
  destruct Hc as [Hf Hits]. apply (inv_finished _ _ Hinv) in Hf as [Hpc Hs].
  unfold drained, unread. rewrite Hg. auto.
Qed.

Lemma inv_not_raised (rows : list row) (c : Config) (e : exn) :
  inv rows c -> cpc c <> RRaised e.
Proof.
  intros Hinv Hg. pose proof (inv_cpc _ _ Hinv) as Hc. rewrite Hg in Hc. exact Hc.
Qed.

(** *** The eager scheduler ends the run *)

Lemma prod_step_None (p : Pipe) (pc : prod_pc) (s : list call) :
  prod_step p pc s = None ->
  (pc = PIdle /\ s = [])
  \/ (exists k, pc = PQueuePut k /\ Queue_full (queue p) = true).
Proof.
  destruct pc as [|obj| |k|k| |]; cbn [prod_step].
  - destruct s as [|[obj|] s]; [auto| |discriminate].
    destruct (stop_sending p); discriminate.
  - discriminate.
  - destruct (_ <=? _); discriminate.
  - destruct (stop_sending p); discriminate.
  - unfold Queue_put. destruct (Queue_full (queue p)); [eauto|discriminate].
  - discriminate.
  - discriminate.
Qed.

Lemma Queue_full_not_empty (q : Queue) : Queue_full q = true -> items q <> [].
Proof.
  unfold Queue_full, qsize. intros H Hnil. rewrite Hnil in H.
  apply andb_true_iff in H as [H1 H2].
  apply Z.ltb_lt in H1. apply Z.eqb_eq in H2. simpl in H2. lia.
Qed.

Lemma step_decreases (rows : list row) (t : thread) (c c' : Config) :
  inv rows c -> step t c = Some c' ->
  (steps_left rows c' < steps_left rows c)%nat.
Proof.
  intros Hinv Hstep.
  pose proof (prefix_length _ _ (inv_prefix rows c' (inv_step rows t c c' Hinv Hstep)))
    as Hlen.
  destruct c as [p pc s g sn]. unfold steps_left.
  destruct t; unfold step in Hstep; cbn [pipe ppc script cpc seen] in *.
  - destruct pc as [|obj| |k|k| |]; cbn [prod_step] in Hstep.
    + destruct s as [|[obj|] s]; [discriminate| |].
      * destruct (stop_sending p); injection Hstep as <-;
          cbn [pipe ppc script cpc seen prod_rank length]; lia.
      * injection Hstep as <-. cbn [pipe ppc script cpc seen prod_rank length]. lia.
    + injection Hstep as <-. cbn [pipe ppc script cpc seen prod_rank set_heap queue]. lia.
    + destruct (_ <=? _); injection Hstep as <-;
        cbn [pipe ppc script cpc seen prod_rank]; lia.
    + destruct (stop_sending p); injection Hstep as <-;
        cbn [pipe ppc script cpc seen prod_rank]; destruct k; cbn; lia.
    + unfold Queue_put in Hstep. destruct (Queue_full (queue p)); [discriminate|].
      injection Hstep as <-.
      cbn [pipe ppc script cpc seen prod_rank set_queue queue].
      unfold qsize. cbn [items]. rewrite length_app. cbn [length].
      destruct k; cbn [after_send prod_rank]; lia.
    + injection Hstep as <-.
      unfold new_buffer. cbn [pipe ppc script cpc seen prod_rank list_new
                               set_buffer set_heap queue]. lia.
    + injection Hstep as <-. cbn [pipe ppc script cpc seen prod_rank set_finished queue]. lia.
  - destruct g as [|b i| | | |e]; cbn [rows_step] in Hstep.
    + unfold Queue_get in Hstep. unfold qsize.
      destruct (items (queue p)) as [|b rest]; [discriminate|].
      injection Hstep as <-.
      cbn [pipe ppc script cpc seen cons_rank set_queue queue items length]. lia.
    + destruct (deref (heap p) b !! i); injection Hstep as <-;
        cbn [pipe ppc script cpc seen cons_rank] in *.
      * rewrite length_app in *. cbn [length] in *. lia.
      * lia.
    + unfold Queue_task_done in Hstep.
      destruct (unfinished_tasks (queue p)); injection Hstep as <-;
        cbn [pipe ppc script cpc seen cons_rank set_queue queue qsize items];
        unfold qsize; cbn [items]; lia.
    + destruct (finished p && Queue_empty (queue p)); injection Hstep as <-;
        cbn [pipe ppc script cpc seen cons_rank]; lia.
    + discriminate.
    + discriminate.
Qed.

Lemma eager_inv_start (p : Pipe) (rows : list row) :
  fresh p -> eager_inv rows (start p (puts_then_flush rows)).
Proof.
  intros Hp. split; [apply inv_start, Hp|]. split.
  - discriminate.
  - intros _ Hs. destruct (puts_then_flush_not_nil _ Hs).
Qed.

Lemma eager_prod_step (rows : list row) (c c' : Config) :
  eager_inv rows c -> step Producer c = Some c' -> eager_inv rows c'.
Proof.
  intros (Hinv & H3 & H2) Hstep.
  split; [exact (inv_prod_step rows c c' Hinv Hstep)|].
  destruct Hinv as [Hopen (todo & Hshape & _) _ _ _ _ _ _ _ _].
  destruct c as [p pc s g sn]. unfold step in Hstep.
  cbn [pipe ppc script cpc seen] in *.
  destruct pc as [|obj| |k|k| |]; cbn [prod_step] in Hstep.
  - destruct s as [|[obj|] s]; [discriminate| |].
    + rewrite Hopen in Hstep. injection Hstep as <-.
      cbn [pipe ppc script cpc seen]. split; discriminate.
    + injection Hstep as <-. cbn [pipe ppc script cpc seen]. split; discriminate.
  - injection Hstep as <-. cbn [pipe ppc script cpc seen]. split; discriminate.
  - cbn [script_shape] in Hshape.
    destruct (_ <=? _); injection Hstep as <-; cbn [pipe ppc script cpc seen];
      (split; [discriminate|]); try discriminate.
    intros _ Hs. subst s. destruct (puts_then_flush_not_nil _ Hs).
  - rewrite Hopen in Hstep. injection Hstep as <-.
    cbn [pipe ppc script cpc seen]. split; discriminate.
  - unfold Queue_put in Hstep. destruct (Queue_full (queue p)); [discriminate|].
    injection Hstep as <-. cbn [pipe ppc script cpc seen set_queue queue items].
    split.
    + intros _ Hnil. apply app_eq_nil in Hnil as [_ [=]].
    + destruct k; discriminate.
  - cbn [script_shape] in Hshape. injection Hstep as <-.
    cbn [pipe ppc script cpc seen]. split; [discriminate|].
    intros _ Hs. subst s. destruct (puts_then_flush_not_nil _ Hs).
  - injection Hstep as <-. cbn [pipe ppc script cpc seen set_finished queue].
    split; [discriminate|]. intros _ _ _. apply H3. reflexivity.
Qed.

Lemma eager_cons_step (rows : list row) (c c' : Config) :
  eager_inv rows c -> step Producer c = None -> step Consumer c = Some c' ->
  eager_inv rows c'.
Proof.
  intros (Hinv & H3 & H2) Hnone Hstep.
  split; [exact (inv_cons_step rows c c' Hinv Hstep)|].
  pose proof (inv_finished _ _ Hinv) as Hfin.
  destruct c as [p pc s g sn]. unfold step in Hnone, Hstep.
  cbn [pipe ppc script cpc seen] in *.
  destruct (prod_step p pc s) as [[[? ?] ?]|] eqn:Hp; [discriminate|].
  assert (Hpc : ppc c' = pc /\ script c' = s).
  { destruct (rows_step p g) as [[[p' g'] [obj|]]|]; [| |discriminate];
      injection Hstep as <-; auto. }
  destruct Hpc as [Hpc Hs]. rewrite Hpc, Hs.
  split.
  - intros ->. discriminate Hp.
  - intros -> -> Hg'.
    assert (Hf : finished p = true) by (apply Hfin; auto).
    destruct g as [|b i| | | |e]; cbn [rows_step] in Hstep.
    + unfold Queue_get in Hstep.
      destruct (items (queue p)); [discriminate|].
      injection Hstep as <-. discriminate Hg'.
    + destruct (deref (heap p) b !! i); injection Hstep as <-; discriminate Hg'.
    + unfold Queue_task_done in Hstep.
      destruct (unfinished_tasks (queue p)); injection Hstep as <-; discriminate Hg'.
    + rewrite Hf in Hstep. unfold Queue_empty in Hstep.
      destruct (items (queue p)) eqn:Hits; cbn [andb] in Hstep;
        injection Hstep as <-; [discriminate Hg'|].
      cbn [pipe queue]. rewrite Hits. discriminate.
    + discriminate.
    + discriminate.
Qed.

Lemma eager_progress (rows : list row) (c : Config) :
  eager_inv rows c -> cpc c <> RStop ->
  exists c', eager_step c = Some c' /\ eager_inv rows c'
             /\ (steps_left rows c' < steps_left rows c)%nat.
Proof.
  intros HJ Hg. unfold eager_step.
  destruct (step Producer c) as [c'|] eqn:Hp.
  - exists c'. split; [reflexivity|]. split; [exact (eager_prod_step _ _ _ HJ Hp)|].
    exact (step_decreases rows Producer c c' (proj1 HJ) Hp).
  - assert (Hc : exists c', step Consumer c = Some c').
    { destruct HJ as (Hinv & H3 & H2).
      pose proof (inv_cpc _ _ Hinv) as Hcpc.
      destruct c as [p pc s g sn]. unfold step in *.
      cbn [pipe ppc script cpc seen] in *.
      destruct (prod_step p pc s) as [[[? ?] ?]|] eqn:Hps; [discriminate|].
      destruct g as [|b i| | | |e]; cbn [rows_step].
      - assert (Hne : items (queue p) <> []).
        { apply prod_step_None in Hps as [[-> ->]|(k & -> & Hfull)].
          - apply H2; reflexivity.
          - apply Queue_full_not_empty, Hfull. }
        unfold Queue_get. destruct (items (queue p)); [done|eauto].
      - destruct (deref (heap p) b !! i); eauto.
      - destruct (Queue_task_done (queue p)); eauto.
      - destruct (finished p && Queue_empty (queue p)); eauto.
      - done.
      - destruct Hcpc. }
    destruct Hc as [c' Hc]. exists c'. split; [exact Hc|].
    split; [exact (eager_cons_step _ _ _ HJ Hp Hc)|].
    exact (step_decreases rows Consumer c c' (proj1 HJ) Hc).
Qed.

Lemma eager_step_RStop (rows : list row) (c : Config) :
  inv rows c -> cpc c = RStop -> eager_step c = None.
Proof.
  intros Hinv Hg. destruct (inv_RStop_drained rows c Hinv Hg) as (Hpc & Hs & _).
  destruct c as [p pc s g sn]. cbn [pipe ppc script cpc seen] in *. subst.
  reflexivity.
Qed.

Lemma eager_run_ends (rows : list row) (fuel : nat) (c : Config) :
  eager_inv rows c ->
  (steps_left rows c <= fuel)%nat ->
  cpc (eager_run fuel c) = RStop /\ inv rows (eager_run fuel c).
Proof.
  revert c. induction fuel as [|fuel IH]; intros c HJ Hfuel.
  - assert (Hg : cpc c = RStop).
    { destruct (cpc c) eqn:Hg; try reflexivity;
        (destruct (eager_progress rows c HJ) as (c' & _ & _ & Hlt);
         [rewrite Hg; discriminate|lia]). }
    simpl. split; [exact Hg|exact (proj1 HJ)].
  - cbn [eager_run].
    destruct (eager_step c) as [c'|] eqn:Hstep.
    + assert (Hg : cpc c <> RStop).
      { intros Hg. rewrite (eager_step_RStop rows c (proj1 HJ) Hg) in Hstep.
        discriminate. }
      destruct (eager_progress rows c HJ Hg) as (c'' & Hs'' & HJ' & Hlt).
      rewrite Hstep in Hs''. injection Hs'' as <-.
      apply IH; [exact HJ'|lia].
    + split; [|exact (proj1 HJ)].
      destruct (cpc c) eqn:Hg; try reflexivity;
        (destruct (eager_progress rows c HJ) as (c' & Hs' & _);
         [rewrite Hg; discriminate|rewrite Hstep in Hs'; discriminate]).
Qed.

Lemma steps_left_start (p : Pipe) (rows : list row) :
  items (queue p) = [] ->
  steps_left rows (start p (puts_then_flush rows)) = (12 * length rows + 11)%nat.
Proof.
  intros Hq. unfold steps_left, start, puts_then_flush, qsize.
  cbn [pipe ppc script cpc seen prod_rank cons_rank length].
  rewrite Hq, length_app, length_map. cbn [length]. lia.
Qed.

(** C1. A new pipe of any capacity and queue depth, a writer that puts
    [rows] one after the other and then flushes once, and a reader that
    iterates [rows()]: in every interleaving of the two threads the rows
    seen so far are an initial part of [rows] (same order, none twice),
    the generator never raises, and once the reader has drained the pipe
    (nothing left in the writer's script, in the queue or in the batch at
    hand) or the generator has ended, the rows seen are exactly [rows].
    With the writer scheduled whenever it can move, the generator does
    end, after at most [12 * length rows + 11] steps of the two
    threads. *)
Theorem pipe_delivers_rows_in_order (p : Pipe) (rows : list row) :
  fresh p ->
  let c0 := start p (puts_then_flush rows) in
  (forall sched,
     let c := run sched c0 in
     seen c `prefix_of` rows
     /\ (drained c -> seen c = rows)
     /\ (cpc c = RStop -> seen c = rows)
     /\ (forall e, cpc c <> RRaised e))
  /\ (forall fuel,
        (12 * length rows + 11 <= fuel)%nat ->
        let c := eager_run fuel c0 in
        cpc c = RStop /\ seen c = rows /\ ppc c = PIdle /\ script c = []).
Proof.
  intros Hp c0. split.
  - intros sched c.
    assert (Hinv : inv rows c) by apply inv_run, inv_start, Hp.
    split; [exact (inv_prefix rows c Hinv)|].
    split; [exact (inv_drained rows c Hinv)|].
    split; [|intros e; exact (inv_not_raised rows c e Hinv)].
    intros Hg. apply (inv_drained rows c Hinv), (inv_RStop_drained rows c Hinv Hg).
  - intros fuel Hfuel c.
    destruct (eager_run_ends rows fuel c0 (eager_inv_start p rows Hp)) as [Hg Hinv].
    { unfold c0. rewrite steps_left_start by apply Hp. exact Hfuel. }
    pose proof (inv_RStop_drained rows _ Hinv Hg) as Hd.
    split; [exact Hg|]. split; [exact (inv_drained rows _ Hinv Hd)|].
    destruct Hd as (Hpc & Hs & _). auto.
Qed.

Lemma pipe_delivers_rows_in_order_witness :
  let rows := [[VInt 1]; [VInt 2]; [VInt 3]; [VInt 4]; [VInt 5]] in
  let c := eager_run 71 (start (Pipe_init 3 1) (puts_then_flush rows)) in
  cpc c = RStop /\ seen c = rows /\ ppc c = PIdle /\ script c = [].
Proof.
  intros rows.
  apply (pipe_delivers_rows_in_order (Pipe_init 3 1) rows).
  - apply (fresh_Pipe_init 3 1 None).
  - simpl. lia.
Defined.

(** Where the reader is served first, it can read the last batch and
    reach its check before [flush] has set [finished]: it then waits in
    [queue.get()] with the queue empty and the writer gone, all rows
    seen. *)
Example reader_can_miss_finished :
  let rows := [[VInt 1]; [VInt 2]; [VInt 3]; [VInt 4]; [VInt 5]] in
  let round := [Consumer; Consumer; Consumer; Consumer; Consumer; Consumer;
                Producer] in
  let c := run (concat (replicate 30 round))
               (start (Pipe_init 3 1) (puts_then_flush rows)) in
  cpc c = RGet /\ seen c = rows /\ finished (pipe c) = true
  /\ step Producer c = None /\ step Consumer c = None.
Proof. vm_compute. repeat split; reflexivity. Qed.

(** * Further properties *)

(** ** Wiring of nodes *)

Lemma Node_add_input_cases (n : Node) (pipe : nat) :
  match Node_add_input n pipe with
  | Return n' =>
      ncls n <> ClsSourceNode /\ (pipe ∉ inputs n)
      /\ n' = set_inputs n (inputs n ++ [pipe])
  | Raise _ n' => n' = n /\ (ncls n = ClsSourceNode \/ pipe ∈ inputs n)
  | Blocks _ => False
  end.
Proof.
  unfold Node_add_input.
  destruct (ncls n) eqn:Hc; try (split; [reflexivity|left; reflexivity]);
    case_bool_decide; auto; repeat split; auto; discriminate.
Qed.

Lemma Node_add_output_cases (n : Node) (pipe : nat) :
  match Node_add_output n pipe with
  | Return n' =>
      ncls n <> ClsTargetNode /\ (pipe ∉ outputs n)
      /\ n' = set_outputs n (outputs n ++ [pipe])
  | Raise _ n' => n' = n /\ (ncls n = ClsTargetNode \/ pipe ∈ outputs n)
  | Blocks _ => False
  end.
Proof.
  unfold Node_add_output.
  destruct (ncls n) eqn:Hc; try (split; [reflexivity|left; reflexivity]);
    case_bool_decide; auto; repeat split; auto; discriminate.
Qed.


(** X1. Wiring a node by any sequence of [add_input] and [add_output]
    calls, up to the first one that raises, keeps its lists free of
    duplicates, keeps a source node without inputs and a target node
    without outputs, and never changes the class.  When every call
    returns, the pipes named by the calls have been appended to the two
    lists in the order of the calls.  When a call raises, the node is
    exactly the one the calls before it made: the raising call has
    changed nothing. *)
Theorem wiring_keeps_lists_distinct (ws : list wiring) (n : Node) :
  wired_ok n ->
  match Node_wire ws n with
  | Return n' =>
      wired_ok n' /\ ncls n' = ncls n
      /\ inputs n' = inputs n ++ wired_inputs ws
      /\ outputs n' = outputs n ++ wired_outputs ws
      /\ _active_outputs n' = _active_outputs n
      /\ description n' = description n
  | Raise e n' =>
      wired_ok n' /\ ncls n' = ncls n
      /\ exists ws1 w ws2,
           ws = ws1 ++ w :: ws2
           /\ Node_wire ws1 n = Return n'
           /\ Node_wire1 w n' = Raise e n'
  | Blocks _ => False
  end.
Proof.
  revert n. induction ws as [|w ws IH]; intros n Hok; simpl.
  { rewrite !app_nil_r. auto 10. }
  assert (Hstep : match Node_wire1 w n with
                  | Return n' =>
                      wired_ok n' /\ ncls n' = ncls n
                      /\ inputs n' = inputs n ++ wired_inputs [w]
                      /\ outputs n' = outputs n ++ wired_outputs [w]
                      /\ _active_outputs n' = _active_outputs n
                      /\ description n' = description n
                  | Raise _ n' => n' = n
                  | Blocks _ => False
                  end).
  { destruct Hok as (Hi & Ho & Hs & Ht). destruct w as [pipe|pipe]; simpl.
    - pose proof (Node_add_input_cases n pipe) as H.
      destruct (Node_add_input n pipe) as [n'|e n'|n']; [|tauto|exact H].
      destruct H as (Hc & Hnin & ->). simpl. rewrite app_nil_r.
      split; [|auto 10].
      unfold wired_ok. simpl. repeat split; auto.
      + apply NoDup_app. repeat split; auto.
        * intros x Hx Hx'. apply list_elem_of_singleton in Hx' as ->. auto.
        * apply NoDup_singleton.
      + intros Hsrc. contradiction.
    - pose proof (Node_add_output_cases n pipe) as H.
      destruct (Node_add_output n pipe) as [n'|e n'|n']; [|tauto|exact H].
      destruct H as (Hc & Hnin & ->). simpl. rewrite app_nil_r.
      split; [|auto 10].
      unfold wired_ok. simpl. repeat split; auto.
      + apply NoDup_app. repeat split; auto.
        * intros x Hx Hx'. apply list_elem_of_singleton in Hx' as ->. auto.
        * apply NoDup_singleton.
      + intros Htgt. contradiction. }
  destruct (Node_wire1 w n) as [n1|e n1|n1] eqn:Hw; simpl.
  - destruct Hstep as (Hok1 & Hc1 & Hi1 & Ho1 & Ha1 & Hd1). specialize (IH n1 Hok1).
    destruct (Node_wire ws n1) as [n'|e n'|n'] eqn:Hrest.
    + destruct IH as (Hok' & Hc' & Hi' & Ho' & Ha' & Hd').
      split; [exact Hok'|]. split; [congruence|].
      rewrite Hi', Ho', Hi1, Ho1, <- !app_assoc.
      destruct w; simpl; repeat split; congruence.
    + destruct IH as (Hok' & Hc' & ws1 & w' & ws2 & -> & Hrun & Hraise).
      split; [exact Hok'|]. split; [congruence|].
      exists (w :: ws1), w', ws2. split; [reflexivity|].
      split; [simpl; rewrite Hw; exact Hrun|exact Hraise].
    + exact IH.
  - subst n1. unfold id. split; [exact Hok|]. split; [reflexivity|].
    exists [], w, ws. split; [reflexivity|]. split; [reflexivity|exact Hw].
  - exact Hstep.
Qed.

Lemma wiring_keeps_lists_distinct_witness :
  let ws := [AddInput 0%nat; AddOutput 1%nat; AddInput 0%nat] in
  match Node_wire ws (Node_init ClsNode) with
  | Return n' => False
  | Raise e n' =>
      wired_ok n' /\ ncls n' = ClsNode
      /\ exists ws1 w ws2,
           ws = ws1 ++ w :: ws2
           /\ Node_wire ws1 (Node_init ClsNode) = Return n'
           /\ Node_wire1 w n' = Raise e n'
  | Blocks _ => False
  end.
Proof.
  intros ws.
  pose proof (wiring_keeps_lists_distinct ws (Node_init ClsNode)) as H.
  simpl in *. apply H.
  unfold wired_ok. simpl. repeat split; try apply NoDup_nil_2; auto.
Defined.

(** ** Default output fields *)

(** X2. The default [output_fields] of a node returns a field list
    exactly when the node is a plain [Node] with one input whose field
    list is set and not empty, and then it is that pipe's list, the one
    [input_fields] returns, with [output_field_names] its names. *)
Theorem output_fields_default (n : Node) (st : list Pipe) (f : option FieldList) :
  (Node_output_fields n st = Return f
   <-> ncls n = ClsNode
       /\ exists pipe p, inputs n = [pipe] /\ st !! pipe = Some p
                         /\ fields p = f /\ fields_missing f = false)
  /\ (Node_output_fields n st = Return f ->
      Node_input_fields n st = Return f
      /\ exists fl, f = Some fl /\ fl <> []
                    /\ Node_output_field_names n st = Return (names fl)).
Proof.
  assert (Hiff : Node_output_fields n st = Return f
                 <-> ncls n = ClsNode
                     /\ exists pipe p, inputs n = [pipe] /\ st !! pipe = Some p
                                       /\ fields p = f /\ fields_missing f = false).
  { unfold Node_output_fields. split.
    - destruct (ncls n); [|discriminate|discriminate].
      destruct (inputs n) as [|pipe [|q rest]] eqn:Hin; [discriminate| |discriminate].
      destruct (st !! pipe) as [p|] eqn:Hp; [|discriminate].
      destruct (fields_missing (fields p)) eqn:Hm; [discriminate|].
      intros [= <-]. split; [reflexivity|]. exists pipe, p. auto.
    - intros (-> & pipe & p & -> & -> & <- & ->). reflexivity. }
  split; [exact Hiff|].
  intros Hret. pose proof Hret as Hret'.
  apply Hiff in Hret as (Hc & pipe & p & Hin & Hp & <- & Hm).
  split.
  - unfold Node_input_fields, Node_input. rewrite Hin, Hp. reflexivity.
  - unfold fields_missing in Hm. destruct (fields p) as [fl|] eqn:Hf; [|discriminate].
    exists fl. split; [reflexivity|]. split.
    + intros ->. discriminate Hm.
    + unfold Node_output_field_names. rewrite Hret'. reflexivity.
Qed.

Lemma output_fields_default_witness :
  let st := [set_fields (Pipe_init 1000 1) (Some ["a"; "b"]%string)] in
  let n := set_inputs (Node_init ClsNode) [0%nat] in
  Node_output_fields n st = Return (Some ["a"; "b"]%string)
  <-> ncls n = ClsNode
      /\ exists pipe p, inputs n = [pipe] /\ st !! pipe = Some p
                        /\ fields p = Some ["a"; "b"]%string
                        /\ fields_missing (Some ["a"; "b"]%string) = false.
Proof.
  intros st n.
  apply (output_fields_default n st (Some ["a"; "b"]%string)).
Defined.

(** ** The dummy pipe *)

Lemma pipe_puts_simple (rows : list row) (p : Pipe) :
  cls p = ClsSimpleDataPipe ->
  pipe_puts rows p = Return (extend_buffer p rows).
Proof.
  revert p. induction rows as [|obj rows IH]; intros p Hc; simpl.
  - rewrite extend_buffer_nil. reflexivity.
  - unfold pipe_put. rewrite Hc. unfold SimpleDataPipe_put. simpl.
    change (set_heap p (list_append (heap p) (buffer p) obj))
      with (extend_buffer p [obj]).
    rewrite IH by exact Hc. rewrite extend_buffer_cons. reflexivity.
Qed.

(** X3. A [SimpleDataPipe] keeps every row put, in the order of the
    puts, and [rows()] shows them all after the rows it held; this holds
    after [stop()] as well, since its [put] does not read
    [stop_sending].  [flush()] changes nothing. *)
Theorem SimpleDataPipe_keeps_rows (p : Pipe) (rows : list row) :
  cls p = ClsSimpleDataPipe ->
  buffer_live p ->
  (exists p', pipe_puts rows p = Return p'
              /\ SimpleDataPipe_rows p' = SimpleDataPipe_rows p ++ rows
              /\ pipe_flush p' = Return p')
  /\ (exists p', pipe_puts rows (pipe_stop p) = Return p'
                 /\ stop_sending p' = true
                 /\ SimpleDataPipe_rows p' = SimpleDataPipe_rows p ++ rows).
Proof.
  intros Hc Hl. split.
  - exists (extend_buffer p rows). rewrite pipe_puts_simple by exact Hc.
    split; [reflexivity|]. split.
    + apply buffered_extend_buffer, Hl.
    + unfold pipe_flush. simpl. rewrite Hc. reflexivity.
  - unfold pipe_stop. rewrite Hc.
    exists (extend_buffer (SimpleDataPipe_stop p) rows).
    rewrite pipe_puts_simple by exact Hc.
    split; [reflexivity|]. split; [reflexivity|].
    apply (buffered_extend_buffer (SimpleDataPipe_stop p) rows Hl).
Qed.

Lemma SimpleDataPipe_keeps_rows_witness :
  exists p', pipe_puts [[VInt 1]; [VInt 2]] (pipe_stop SimpleDataPipe_init) = Return p'
             /\ stop_sending p' = true
             /\ SimpleDataPipe_rows p' = [[VInt 1]; [VInt 2]].
Proof.
  apply (SimpleDataPipe_keeps_rows SimpleDataPipe_init [[VInt 1]; [VInt 2]]).
  - reflexivity.
  - unfold buffer_live. simpl. lia.
Defined.

(** X4. [empty()] gives the pipe a new, empty list: [rows()] is empty
    afterwards, while the list that [rows()] returned before keeps its
    rows, and rows put later do not reach it. *)
Theorem SimpleDataPipe_empty_new_list (p : Pipe) (rows : list row) :
  cls p = ClsSimpleDataPipe ->
  buffer_live p ->
  let p1 := SimpleDataPipe_empty p in
  SimpleDataPipe_rows p1 = []
  /\ buffer p1 <> buffer p
  /\ deref (heap p1) (buffer p) = SimpleDataPipe_rows p
  /\ exists p2, pipe_puts rows p1 = Return p2
                /\ SimpleDataPipe_rows p2 = rows
                /\ deref (heap p2) (buffer p) = SimpleDataPipe_rows p.
Proof.
  intros Hc Hl. cbv zeta. set (p1 := SimpleDataPipe_empty p).
  unfold buffer_live in Hl.
  assert (Hb1 : buffer p1 = length (heap p)) by reflexivity.
  assert (Hh1 : heap p1 = heap p ++ [[]]) by reflexivity.
  assert (Hr1 : SimpleDataPipe_rows p1 = []).
  { unfold SimpleDataPipe_rows, buffered. rewrite Hb1, Hh1.
    apply deref_list_new_fresh. }
  split; [exact Hr1|]. split; [rewrite Hb1; lia|]. split.
  - rewrite Hh1. apply deref_list_new_old, Hl.
  - exists (extend_buffer p1 rows). rewrite pipe_puts_simple by exact Hc.
    split; [reflexivity|].
    assert (Hl1 : buffer_live p1).
    { unfold buffer_live. rewrite Hb1, Hh1, length_app. simpl. lia. }
    split.
    + unfold SimpleDataPipe_rows in *. rewrite buffered_extend_buffer by exact Hl1.
      rewrite Hr1. reflexivity.
    + unfold extend_buffer, deref. cbn [heap set_heap].
      rewrite list_lookup_alter_ne by (unfold p1; simpl; lia).
      exact (deref_list_new_old (heap p) (buffer p) Hl).
Qed.

Lemma SimpleDataPipe_empty_new_list_witness :
  let p := extend_buffer SimpleDataPipe_init [[VInt 1]; [VInt 2]] in
  let p1 := SimpleDataPipe_empty p in
  SimpleDataPipe_rows p = [[VInt 1]; [VInt 2]]
  /\ SimpleDataPipe_rows p1 = []
  /\ buffer p1 <> buffer p
  /\ deref (heap p1) (buffer p) = [[VInt 1]; [VInt 2]]
  /\ exists p2, pipe_puts [[VInt 3]] p1 = Return p2
                /\ SimpleDataPipe_rows p2 = [[VInt 3]]
                /\ deref (heap p2) (buffer p) = [[VInt 1]; [VInt 2]].
Proof.
  intros p p1. split; [reflexivity|].
  apply (SimpleDataPipe_empty_new_list p [[VInt 3]]).
  - reflexivity.
  - unfold buffer_live. simpl. lia.
Defined.

(** ** The record view *)

Lemma dict_zip_fold (g : string -> value) (fs : list string)
    (m : gmap string value) (f : string) :
  fold_left (fun m kv => <[kv.1 := kv.2]> m) (zip fs (map g fs)) m !! f
  = if decide (f ∈ fs) then Some (g f) else m !! f.
Proof.
  revert m. induction fs as [|a fs IH]; intros m; simpl.
  - destruct (decide (f ∈ [])) as [H|H]; [inversion H|reflexivity].
  - rewrite IH. destruct (decide (f ∈ fs)) as [Hin|Hin].
    + rewrite decide_True by (right; exact Hin). reflexivity.
    + destruct (decide (f = a)) as [->|Hne].
      * rewrite decide_True by left. apply lookup_insert_eq.
      * rewrite decide_False.
        -- apply lookup_insert_ne. congruence.
        -- intros H. apply elem_of_cons in H as [H|H]; contradiction.
Qed.

Lemma dict_zip_lookup (g : string -> value) (fs : list string) (f : string) :
  dict_zip fs (map g fs) !! f = if decide (f ∈ fs) then Some (g f) else None.
Proof. unfold dict_zip. rewrite dict_zip_fold. reflexivity. Qed.

Lemma records_drain_RecStop (fuel : nat) (p : Pipe) (acc : list (gmap string value)) :
  records_drain fuel p RecStop acc = (p, RecStop, acc).
Proof. destruct fuel; reflexivity. Qed.

Lemma records_drain_list (p : Pipe) (fs : list string) (b : nat) (l : list row)
    (k : nat) :
  deref (heap p) b = l ->
  forall (i : nat) (acc : list (gmap string value)) (extra : nat),
    (k + i = length l)%nat ->
    records_drain (S k + extra) p (RecFor fs (IterList b i)) acc
    = (p, RecStop, acc ++ map (dict_zip fs) (drop i l)).
Proof.
  intros Hl. induction k as [|k IH]; intros i acc extra Hk.
  - cbn [records_drain Nat.add records_step]. rewrite Hl.
    rewrite lookup_ge_None_2 by lia. rewrite drop_ge by lia.
    rewrite records_drain_RecStop. simpl. rewrite app_nil_r. reflexivity.
  - destruct (lookup_lt_is_Some_2 l i) as [x Hx]; [lia|].
    change (S (S k) + extra)%nat with (S (S k + extra)).
    cbn [records_drain records_step]. rewrite Hl, Hx.
    rewrite IH by lia. rewrite (drop_S l x i Hx). simpl.
    rewrite <- app_assoc. reflexivity.
Qed.

(** X5. Round trip of the record view on a [SimpleDataPipe] with a field
    list: after [put_record(record)], [records()] yields the records of
    the rows held before and then one that has exactly the names of the
    field list, each with the value [record] has for it, or with the null
    value where [record] has none. *)
Theorem put_record_then_records (p : Pipe) (fl : FieldList) (r : gmap string value)
    (extra : nat) :
  cls p = ClsSimpleDataPipe ->
  fields p = Some fl ->
  fl <> [] ->
  buffer_live p ->
  let d := dict_zip fl (put_record_loop r (names fl) []) in
  (exists p',
     SimpleDataPipe_put_record p r = Return p'
     /\ records_drain (length (SimpleDataPipe_rows p') + 2 + extra) p' RecStart []
        = (p', RecStop, map (dict_zip fl) (SimpleDataPipe_rows p) ++ [d]))
  /\ (forall f, d !! f = if decide (f ∈ fl) then Some (record_get r f) else None).
Proof.
  intros Hc Hf Hne Hl d. split.
  - exists (extend_buffer p [put_record_loop r (names fl) []]).
    split.
    + unfold SimpleDataPipe_put_record, pipe_put, SimpleDataPipe_put.
      rewrite Hf, Hc. reflexivity.
    + set (p' := extend_buffer p [put_record_loop r (names fl) []]).
      assert (Hrows : SimpleDataPipe_rows p'
                      = SimpleDataPipe_rows p ++ [put_record_loop r (names fl) []]).
      { apply buffered_extend_buffer, Hl. }
      replace (length (SimpleDataPipe_rows p') + 2 + extra)%nat
        with (S (S (length (SimpleDataPipe_rows p')) + extra)) by lia.
      cbn [records_drain]. unfold records_step at 1.
      change (fields p') with (fields p). rewrite Hf.
      unfold fields_missing, names. destruct fl as [|f0 fl0]; [done|].
      unfold pipe_rows. change (cls p') with (cls p). rewrite Hc.
      rewrite (records_drain_list p' _ (buffer p') (SimpleDataPipe_rows p'))
        by (reflexivity || lia).
      rewrite drop_0, Hrows, map_app. reflexivity.
  - intros f. subst d. rewrite put_record_loop_map. simpl.
    apply dict_zip_lookup.
Qed.

Lemma put_record_then_records_witness :
  let p := set_fields SimpleDataPipe_init (Some ["a"; "b"]%string) in
  let d := dict_zip ["a"; "b"]%string
             (put_record_loop {[ "b"%string := VInt 2 ]} ["a"; "b"]%string []) in
  d !! "a"%string = Some VNone /\ d !! "b"%string = Some (VInt 2)
  /\ d !! "c"%string = None.
Proof.
  intros p d.
  destruct (put_record_then_records p ["a"; "b"]%string
              {[ "b"%string := VInt 2 ]} 0) as [_ H];
    [reflexivity|reflexivity|discriminate|unfold buffer_live; simpl; lia|].
  split; [|split].
  - exact (H "a"%string).
  - exact (H "b"%string).
  - exact (H "c"%string).
Defined.

Lemma rows_step_yield (p p' : Pipe) (g g' : rows_pc) (obj : row) :
  rows_step p g = Some (p', g', Some obj) -> exists b i, g' = RFor b i.
Proof.
  destruct g; simpl; intros H; repeat case_match; simplify_eq; eauto.
Qed.

Lemma rows_drain_RRaised (fuel : nat) (p : Pipe) (e : exn) (s : list row) :
  rows_drain fuel p (RRaised e) s = (p, RRaised e, s).
Proof. destruct fuel; reflexivity. Qed.

Lemma records_drain_RecRaised (fuel : nat) (p : Pipe) (e : exn)
    (acc : list (gmap string value)) :
  records_drain fuel p (RecRaised e) acc = (p, RecRaised e, acc).
Proof. destruct fuel; reflexivity. Qed.

Lemma records_drain_over_rows (fs : list string) (fuel : nat) :
  forall (p : Pipe) (g : rows_pc) (s : list row),
    g <> RStop -> (forall e, g <> RRaised e) ->
    records_drain fuel p (RecFor fs (IterGen g)) (map (dict_zip fs) s)
    = let '(p', g', s') := rows_drain fuel p g s in
      (p', records_over fs g', map (dict_zip fs) s').
Proof.
  induction fuel as [|fuel IH]; intros p g s Hg1 Hg2.
  - simpl. destruct g; try reflexivity; [done|]. destruct (Hg2 e eq_refl).
  - cbn [records_drain rows_drain records_step].
    destruct (rows_step p g) as [[[p1 g1] o]|] eqn:Hstep.
    + destruct o as [obj|].
      * destruct (rows_step_yield _ _ _ _ _ Hstep) as (b & i & ->).
        cbn [fmap option_fmap option_map].
        change (map (dict_zip fs) s ++ [dict_zip fs obj])
          with (map (dict_zip fs) s ++ map (dict_zip fs) [obj]).
        rewrite <- map_app. apply IH; [discriminate|intros e; discriminate].
      * destruct g1 as [|b i| | | |e]; cbn [fmap option_fmap option_map];
          try (apply IH; [discriminate|intros e; discriminate]).
        -- rewrite records_drain_RecStop, rows_drain_RStop. reflexivity.
        -- rewrite records_drain_RecRaised, rows_drain_RRaised. reflexivity.
    + destruct g; try reflexivity; [done|]. destruct (Hg2 e eq_refl).
Qed.

(** X6. On a [Pipe] with a field list, [records()] is [rows()] seen
    through the field list: after its first step, step for step, it takes
    the same batches, yields for each row of [rows()] the dictionary of
    that row under the field names, and ends, raises or waits where
    [rows()] does. *)
Theorem records_follow_rows (p : Pipe) (fl : FieldList) (fuel : nat) :
  cls p = ClsPipe ->
  fields p = Some fl ->
  fl <> [] ->
  records_drain (S fuel) p RecStart []
  = let '(p', g', s') := rows_drain fuel p RGet [] in
    (p', records_over (names fl) g', map (dict_zip (names fl)) s').
Proof.
  intros Hc Hf Hne. cbn [records_drain]. unfold records_step at 1.
  rewrite Hf. unfold fields_missing, names. destruct fl as [|f0 fl0]; [done|].
  unfold pipe_rows. rewrite Hc.
  apply (records_drain_over_rows (f0 :: fl0) fuel p RGet []);
    [discriminate|intros e; discriminate].
Qed.

Lemma records_follow_rows_witness :
  let p := set_fields (set_finished
             (set_queue (set_heap (Pipe_init 2 1) [[]; [[VInt 1]; [VInt 2]]])
                        (mkQueue 1 [1%nat] 1)) true) (Some ["a"%string]) in
  records_drain 6 p RecStart []
  = let '(p', g', s') := rows_drain 5 p RGet [] in
    (p', records_over ["a"%string] g', map (dict_zip ["a"%string]) s').
Proof.
  intros p.
  apply (records_follow_rows p ["a"%string] 5); [reflexivity|reflexivity|discriminate].
Defined.

(** ** The buffer, the batches and the queue of a pipe *)

Lemma new_buffer_buffered (p : Pipe) : buffered (new_buffer p) = [].
Proof. unfold buffered, new_buffer. simpl. apply deref_list_new_fresh. Qed.

Lemma new_buffer_live (p : Pipe) : buffer_live (new_buffer p).
Proof. unfold buffer_live, new_buffer. simpl. rewrite length_app. simpl. lia. Qed.

(** One put on an open pipe that returns: the row joins the buffer, or
    the buffer with the row becomes the newest batch of the queue and a
    new, empty buffer takes its place. *)
Lemma Pipe_put_Return (p p' : Pipe) (obj : row) :
  stop_sending p = false ->
  buffer_live p ->
  Pipe_put p obj = Return p' ->
  (Z.of_nat (length (buffered p) + 1) < buffer_size p
   /\ p' = extend_buffer p [obj])
  \/ (buffer_size p <= Z.of_nat (length (buffered p) + 1)
      /\ Queue_full (queue p) = false
      /\ p' = new_buffer
                (set_queue (extend_buffer p [obj])
                   (mkQueue (maxsize (queue p)) (items (queue p) ++ [buffer p])
                            (S (unfinished_tasks (queue p)))))).
Proof.
  intros Hs Hl.
  destruct (Z.ltb_spec (Z.of_nat (length (buffered p) + 1)) (buffer_size p)) as [Hlt|Hge].
  - rewrite Pipe_put_below by done. intros [= <-]. left. auto.
  - destruct (Queue_full (queue p)) eqn:Hfull.
    + unfold Pipe_put, Pipe__send_buffer, Queue_put. rewrite Hs.
      change (set_heap p (list_append (heap p) (buffer p) obj))
        with (extend_buffer p [obj]).
      rewrite buffered_extend_buffer by done. rewrite length_app. simpl.
      destruct (Z.leb_spec (buffer_size p) (Z.of_nat (length (buffered p) + 1)));
        [|lia].
      rewrite Hs, Hfull. discriminate.
    + rewrite Pipe_put_at_capacity by done. intros [= <-]. right. auto.
Qed.

(** X7. The buffer of a pipe never reaches a full batch between calls:
    when it holds fewer rows than the batch size ([buffer_size], or 1
    when that is not positive), it still does after any sequence of
    [put] and [flush] calls that return. *)
Theorem buffer_stays_below_capacity (cs : list call) (p p' : Pipe) :
  buffer_live p ->
  Z.of_nat (length (buffered p)) < batch_size p ->
  Pipe_calls cs p = Return p' ->
  buffer_live p'
  /\ batch_size p' = batch_size p
  /\ Z.of_nat (length (buffered p')) < batch_size p'.
Proof.
  revert p. induction cs as [|c cs IH]; intros p Hl Hb; simpl.
  - intros [= <-]. auto.
  - destruct (Pipe_call c p) as [p1|e p1|p1] eqn:Hc; simpl; try discriminate.
    intros Hrest.
    assert (H1 : buffer_live p1 /\ batch_size p1 = batch_size p
                 /\ Z.of_nat (length (buffered p1)) < batch_size p1).
    { destruct c as [obj|]; simpl in Hc.
      - destruct (stop_sending p) eqn:Hs.
        + rewrite Pipe_put_stopped in Hc by done. injection Hc as <-. auto.
        + apply Pipe_put_Return in Hc as [[Hlt ->]|(Hge & _ & ->)]; try done.
          * split; [apply buffer_live_extend_buffer, Hl|]. split; [reflexivity|].
            rewrite buffered_extend_buffer by done. rewrite length_app. simpl.
            unfold batch_size, extend_buffer in *. simpl. lia.
          * split; [apply new_buffer_live|]. split; [reflexivity|].
            rewrite new_buffer_buffered. unfold batch_size. simpl. lia.
      - apply Pipe_flush_Return in Hc as (_ & Hh & Hbf & _ & Hsz & _).
        unfold buffer_live, batch_size, buffered in *.
        rewrite Hh, Hbf, Hsz. auto. }
    destruct H1 as (Hl1 & Hsz1 & Hb1).
    destruct (IH p1 Hl1 Hb1 Hrest) as (Hl' & Hsz' & Hb').
    split; [exact Hl'|]. split; [congruence|exact Hb'].
Qed.

Lemma buffer_stays_below_capacity_witness :
  exists p',
    Pipe_calls [CallPut [VInt 1]; CallPut [VInt 2]; CallFlush; CallPut [VInt 3]]
               (Pipe_init 2 0) = Return p'
    /\ Z.of_nat (length (buffered p')) < batch_size p'.
Proof.
  eexists. split; [reflexivity|].
  eapply (buffer_stays_below_capacity
            [CallPut [VInt 1]; CallPut [VInt 2]; CallFlush; CallPut [VInt 3]]
            (Pipe_init 2 0)); [|reflexivity|reflexivity].
  unfold buffer_live. simpl. lia.
Defined.

Lemma Pipe_put_unshared (p p' : Pipe) (obj : row) :
  unshared p ->
  stop_sending p = false ->
  Z.of_nat (length (buffered p)) < batch_size p ->
  Pipe_put p obj = Return p' ->
  unshared p' /\ stop_sending p' = false /\ batch_size p' = batch_size p
  /\ maxsize (queue p') = maxsize (queue p)
  /\ Z.of_nat (length (buffered p')) < batch_size p'
  /\ ((queued p' = queued p /\ buffered p' = buffered p ++ [obj])
      \/ (queued p' = queued p ++ [buffered p ++ [obj]]
          /\ buffered p' = []
          /\ Z.of_nat (length (buffered p ++ [obj])) = batch_size p)).
Proof.
  intros (Hl & Hq & Hn) Hs Hb Hput.
  apply Pipe_put_Return in Hput as [[Hlt ->]|(Hge & _ & ->)]; try done.
  - assert (Hbuf := buffered_extend_buffer p [obj] Hl).
    split; [|split; [exact Hs|split; [reflexivity|split; [reflexivity|split]]]].
    + split; [apply buffer_live_extend_buffer, Hl|]. split; [|exact Hn].
      intros b Hb'. unfold extend_buffer. simpl. rewrite length_alter. auto.
    + rewrite Hbuf, length_app. simpl. unfold batch_size, extend_buffer in *.
      simpl. lia.
    + left. split; [|exact Hbuf].
      unfold queued, extend_buffer. simpl.
      apply (queued_list_append (heap p) (buffer p) obj _ Hn).
  - assert (Hbuf := buffered_extend_buffer p [obj] Hl).
    unfold buffer_live in Hl.
    split; [|split; [exact Hs|split; [reflexivity|split; [reflexivity|split]]]].
    + split; [apply new_buffer_live|]. split.
      * intros b Hb'. unfold new_buffer in *. simpl in *.
        rewrite length_app, length_alter. simpl.
        apply elem_of_app in Hb' as [Hb'|Hb'].
        -- specialize (Hq b Hb'). lia.
        -- apply list_elem_of_singleton in Hb' as ->. lia.
      * unfold new_buffer. simpl. rewrite length_alter. intros Hin.
        apply elem_of_app in Hin as [Hin|Hin].
        -- specialize (Hq _ Hin). lia.
        -- apply list_elem_of_singleton in Hin. lia.
    + rewrite new_buffer_buffered. unfold batch_size. simpl. lia.
    + right. split; [|split].
      * unfold queued, new_buffer. simpl. rewrite map_app. cbn [map]. f_equal.
        -- rewrite queued_list_new
             by (intros b Hb'; rewrite length_alter; apply Hq, Hb').
           apply (queued_list_append (heap p) (buffer p) obj _ Hn).
        -- f_equal. rewrite deref_list_new_old by (rewrite length_alter; exact Hl).
           exact Hbuf.
      * apply new_buffer_buffered.
      * rewrite length_app. simpl. unfold batch_size in *. lia.
Qed.

Lemma Pipe_puts_unbounded (rows : list row) (p : Pipe) :
  maxsize (queue p) <= 0 ->
  exists p', Pipe_calls (map CallPut rows) p = Return p'.
Proof.
  revert p. induction rows as [|obj rows IH]; intros p Hm; simpl; [eauto|].
  assert (Hput : exists p1, Pipe_put p obj = Return p1
                            /\ maxsize (queue p1) = maxsize (queue p)).
  { unfold Pipe_put, Pipe__send_buffer, Queue_put.
    destruct (stop_sending p) eqn:Hs; [eauto|].
    destruct (_ <=? _); [|eauto]. simpl. rewrite Hs.
    unfold Queue_full. simpl.
    destruct (Z.ltb_spec 0 (maxsize (queue p))); [lia|]. simpl. eauto. }
  destruct Hput as (p1 & -> & Hm1). simpl. apply IH. lia.
Qed.

(** X8. Batching of puts.  On an open pipe whose buffer is its own list
    and is below the batch size, puts that return hand the rows to the
    queue in batches of exactly the batch size ([buffer_size], or 1 when
    that is not positive), oldest first, and keep the rest in the buffer:
    the rows held, queue then buffer, are those held before followed by
    the rows put.  With an unbounded queue the puts always return. *)
Theorem puts_fill_batches (rows : list row) (p : Pipe) :
  unshared p ->
  stop_sending p = false ->
  Z.of_nat (length (buffered p)) < batch_size p ->
  (maxsize (queue p) <= 0 ->
   exists p', Pipe_calls (map CallPut rows) p = Return p')
  /\ (forall p',
        Pipe_calls (map CallPut rows) p = Return p' ->
        exists new,
          queued p' = queued p ++ new
          /\ Forall (fun b => Z.of_nat (length b) = batch_size p) new
          /\ concat new ++ buffered p' = buffered p ++ rows
          /\ contents p' = contents p ++ rows
          /\ Z.of_nat (length (buffered p')) < batch_size p
          /\ unshared p').
Proof.
  intros Hu Hs Hb. split; [apply Pipe_puts_unbounded|].
  revert p Hu Hs Hb. induction rows as [|obj rows IH]; intros p Hu Hs Hb p'; simpl.
  - intros [= <-]. exists []. unfold contents. rewrite !app_nil_r.
    split; [reflexivity|]. split; [constructor|]. split; [reflexivity|]. auto.
  - destruct (Pipe_put p obj) as [p1|e p1|p1] eqn:Hput; simpl; try discriminate.
    intros Hrest.
    destruct (Pipe_put_unshared p p1 obj Hu Hs Hb Hput)
      as (Hu1 & Hs1 & Hsz1 & _ & Hb1 & Hcase).
    destruct (IH p1 Hu1 Hs1 Hb1 p' Hrest)
      as (new & Hq & Hall & Hcat & _ & Hb' & Hu').
    rewrite Hsz1 in Hall, Hb'.
    destruct Hcase as [[Hq1 Hbuf1]|(Hq1 & Hbuf1 & Hlen)].
    + exists new. rewrite Hq1, Hbuf1 in *.
      assert (Hc : concat new ++ buffered p' = buffered p ++ obj :: rows).
      { rewrite Hcat, <- app_assoc. reflexivity. }
      split; [exact Hq|]. split; [exact Hall|]. split; [exact Hc|].
      split; [|auto].
      unfold contents. rewrite Hq, concat_app, <- !app_assoc. f_equal. exact Hc.
    + exists ((buffered p ++ [obj]) :: new). rewrite Hq1, Hbuf1 in *.
      assert (Hc : concat ((buffered p ++ [obj]) :: new) ++ buffered p'
                   = buffered p ++ obj :: rows).
      { cbn [concat]. rewrite <- !app_assoc. simpl in Hcat. rewrite Hcat.
        reflexivity. }
      split; [rewrite Hq, <- app_assoc; reflexivity|].
      split; [constructor; [exact Hlen|exact Hall]|]. split; [exact Hc|].
      split; [|auto].
      unfold contents. rewrite Hq, <- app_assoc, concat_app, <- !app_assoc.
      f_equal. exact Hc.
Qed.

Lemma puts_fill_batches_witness :
  exists p',
    Pipe_calls (map CallPut [[VInt 1]; [VInt 2]; [VInt 3]; [VInt 4]; [VInt 5]])
               (Pipe_init 2 0) = Return p'.
Proof.
  apply (puts_fill_batches [[VInt 1]; [VInt 2]; [VInt 3]; [VInt 4]; [VInt 5]]
           (Pipe_init 2 0)).
  - unfold unshared, buffer_live. simpl. split; [lia|].
    split; [intros b Hb; inversion Hb|intros Hb; inversion Hb].
  - reflexivity.
  - reflexivity.
  - simpl. lia.
Defined.

(** X9. On a pipe that is closed for write, every sequence of [put] and
    [flush] calls returns, without waiting on the queue whatever its
    state: the puts change nothing, and a flush hands nothing to the
    queue and only sets [finished]. *)
Theorem calls_on_stopped_pipe (cs : list call) (p : Pipe) :
  stop_sending p = true ->
  Pipe_calls cs p
  = Return (if existsb is_flush cs then set_finished p true else p).
Proof.
  revert p. induction cs as [|c cs IH]; intros p Hs; simpl; [reflexivity|].
  destruct c as [obj|]; simpl.
  - rewrite Pipe_put_stopped by exact Hs. simpl. apply IH, Hs.
  - unfold Pipe_flush, Pipe__send_buffer. rewrite Hs. simpl.
    rewrite (IH (set_finished p true)) by exact Hs.
    destruct (existsb is_flush cs); reflexivity.
Qed.

Lemma calls_on_stopped_pipe_witness :
  let p := Pipe_stop (set_queue (Pipe_init 1 1) (mkQueue 1 [1%nat] 1)) in
  Pipe_calls [CallPut [VInt 1]; CallFlush; CallPut [VInt 2]] p
  = Return (set_finished p true).
Proof.
  intros p.
  apply (calls_on_stopped_pipe [CallPut [VInt 1]; CallFlush; CallPut [VInt 2]] p).
  reflexivity.
Defined.

(** X10. When a writer waits.  [put] suspends its caller exactly when the
    pipe is open, the row brings the buffer to capacity and the queue is
    full, that is bounded and holding [maxsize] batches; the row is then
    already in the buffer.  [flush] suspends exactly when the pipe is
    open and the queue is full.  Neither ever raises. *)
Theorem writer_waits_iff (p : Pipe) (obj : row) :
  buffer_live p ->
  ((exists p', Pipe_put p obj = Blocks p')
   <-> stop_sending p = false
       /\ buffer_size p <= Z.of_nat (length (buffered p) + 1)
       /\ 0 < maxsize (queue p)
       /\ Z.of_nat (qsize (queue p)) = maxsize (queue p))
  /\ (forall p', Pipe_put p obj = Blocks p' -> p' = extend_buffer p [obj])
  /\ ((exists p', Pipe_flush p = Blocks p')
      <-> stop_sending p = false
          /\ 0 < maxsize (queue p)
          /\ Z.of_nat (qsize (queue p)) = maxsize (queue p))
  /\ (forall e p', Pipe_put p obj <> Raise e p' /\ Pipe_flush p <> Raise e p').
Proof.
  intros Hl.
  assert (Hfull : Queue_full (queue p) = true
                  <-> 0 < maxsize (queue p)
                      /\ Z.of_nat (qsize (queue p)) = maxsize (queue p)).
  { unfold Queue_full. rewrite andb_true_iff, Z.ltb_lt, Z.eqb_eq. reflexivity. }
  assert (Hput : Pipe_put p obj
                 = if stop_sending p then Return p
                   else if buffer_size p <=? Z.of_nat (length (buffered p) + 1)
                        then if Queue_full (queue p)
                             then Blocks (extend_buffer p [obj])
                             else Return (new_buffer
                                    (set_queue (extend_buffer p [obj])
                                       (mkQueue (maxsize (queue p))
                                          (items (queue p) ++ [buffer p])
                                          (S (unfinished_tasks (queue p))))))
                        else Return (extend_buffer p [obj])).
  { unfold Pipe_put, Pipe__send_buffer, Queue_put.
    destruct (stop_sending p) eqn:Hs; [reflexivity|].
    change (set_heap p (list_append (heap p) (buffer p) obj))
      with (extend_buffer p [obj]).
    rewrite buffered_extend_buffer by done. rewrite length_app. simpl.
    destruct (_ <=? _); [|reflexivity].
    rewrite Hs. destruct (Queue_full (queue p)); reflexivity. }
  assert (Hflush : Pipe_flush p
                   = if stop_sending p then Return (set_finished p true)
                     else if Queue_full (queue p) then Blocks p
                          else Return (set_finished
                                 (set_queue p
                                    (mkQueue (maxsize (queue p))
                                       (items (queue p) ++ [buffer p])
                                       (S (unfinished_tasks (queue p))))) true)).
  { unfold Pipe_flush, Pipe__send_buffer, Queue_put.
    destruct (stop_sending p); [reflexivity|].
    destruct (Queue_full (queue p)); reflexivity. }
  rewrite Hput, Hflush. clear Hput Hflush.
  split; [|split; [|split]].
  - rewrite <- Hfull. destruct (stop_sending p).
    + split; [intros [p' [=]]|intros [[=] _]].
    + destruct (Z.leb_spec (buffer_size p) (Z.of_nat (length (buffered p) + 1))).
      * destruct (Queue_full (queue p)).
        -- split; eauto.
        -- split; [intros [p' [=]]|intros (_ & _ & [=])].
      * split; [intros [p' [=]]|intros (_ & ? & _); lia].
  - intros p'. destruct (stop_sending p); [discriminate|].
    destruct (_ <=? _); [|discriminate].
    destruct (Queue_full (queue p)); [|discriminate]. intros [= <-]. reflexivity.
  - rewrite <- Hfull. destruct (stop_sending p).
    + split; [intros [p' [=]]|intros [[=] _]].
    + destruct (Queue_full (queue p)).
      * split; eauto.
      * split; [intros [p' [=]]|intros (_ & [=])].
  - intros e p'. destruct (stop_sending p); [split; discriminate|].
    destruct (_ <=? _); destruct (Queue_full (queue p)); split; discriminate.
Qed.

Lemma writer_waits_iff_witness :
  let p := set_queue (Pipe_init 1 1) (mkQueue 1 [0%nat] 1) in
  (exists p', Pipe_put p [VInt 1] = Blocks p')
  <-> stop_sending p = false
      /\ buffer_size p <= Z.of_nat (length (buffered p) + 1)
      /\ 0 < maxsize (queue p)
      /\ Z.of_nat (qsize (queue p)) = maxsize (queue p).
Proof.
  intros p. apply (writer_waits_iff p [VInt 1]).
  unfold buffer_live. simpl. lia.
Defined.

(** ** The queue under any script *)

Lemma prod_step_queue (p p' : Pipe) (pc pc' : prod_pc) (s s' : list call) :
  prod_step p pc s = Some (p', pc', s') ->
  (queue p' = queue p
   \/ (Queue_full (queue p) = false
       /\ queue p' = mkQueue (maxsize (queue p)) (items (queue p) ++ [buffer p])
                             (S (unfinished_tasks (queue p)))))
  /\ (stop_sending p = true -> stop_sending p' = true)
  /\ (finished p = true -> finished p' = true).
Proof.
  destruct pc as [|obj| |k|k| |]; cbn [prod_step]; intros H.
  - destruct s as [|[obj|] s]; [discriminate| |].
    + destruct (stop_sending p) eqn:Hs; injection H as <-;
        (split; [left; reflexivity|split; intros; congruence]).
    + injection H as <-. split; [left; reflexivity|split; intros; congruence].
  - injection H as <-. split; [left; reflexivity|split; intros; assumption].
  - destruct (_ <=? _); injection H as <-;
      (split; [left; reflexivity|split; intros; congruence]).
  - destruct (stop_sending p) eqn:Hs; injection H as <-;
      (split; [left; reflexivity|split; intros; congruence]).
  - unfold Queue_put in H. destruct (Queue_full (queue p)) eqn:Hf; [discriminate|].
    injection H as <-. split; [right; split; reflexivity|split; intros; assumption].
  - injection H as <-. split; [left; reflexivity|split; intros; assumption].
  - injection H as <-. split; [left; reflexivity|split; intros; first [assumption|reflexivity]].
Qed.

Lemma rows_step_flags (p p' : Pipe) (g g' : rows_pc) (o : option row) :
  rows_step p g = Some (p', g', o) ->
  maxsize (queue p') = maxsize (queue p)
  /\ (qsize (queue p') <= qsize (queue p))%nat
  /\ stop_sending p' = stop_sending p
  /\ finished p' = finished p.
Proof.
  unfold qsize.
  destruct g; simpl; intros H; repeat case_match; simplify_eq; simpl; auto.
  - unfold Queue_get in *. destruct (items (queue p)) eqn:Hi; simplify_eq.
    simpl. auto.
  - unfold Queue_task_done in *. destruct (unfinished_tasks (queue p)); simplify_eq.
    simpl. auto.
Qed.

(** X11. Back-pressure bound.  In every interleaving of a writer running
    any script with a reader iterating [rows()], a bounded queue that
    starts within its bound never holds more batches than its depth, and
    the depth never changes. *)
Theorem queue_never_exceeds_depth (sched : list thread) (c : Config) :
  (0 < maxsize (queue (pipe c)) ->
   Z.of_nat (qsize (queue (pipe c))) <= maxsize (queue (pipe c))) ->
  let c' := run sched c in
  maxsize (queue (pipe c')) = maxsize (queue (pipe c))
  /\ (0 < maxsize (queue (pipe c)) ->
      Z.of_nat (qsize (queue (pipe c'))) <= maxsize (queue (pipe c))).
Proof.
  revert c. induction sched as [|t sched IH]; intros c Hb; simpl; [auto|].
  destruct (step t c) as [c1|] eqn:Hstep; [|apply IH, Hb].
  assert (H1 : maxsize (queue (pipe c1)) = maxsize (queue (pipe c))
               /\ (0 < maxsize (queue (pipe c)) ->
                   Z.of_nat (qsize (queue (pipe c1))) <= maxsize (queue (pipe c)))).
  { destruct c as [p pc s g sn]. destruct t; unfold step in Hstep;
      cbn [pipe ppc script cpc seen] in *.
    - destruct (prod_step p pc s) as [[[p' pc'] s']|] eqn:Hp; [|discriminate].
      injection Hstep as <-. cbn [pipe].
      apply prod_step_queue in Hp as [[->|[Hfull ->]] _]; [auto|].
      cbn [maxsize]. split; [reflexivity|]. intros Hpos. specialize (Hb Hpos).
      unfold Queue_full in Hfull. unfold qsize in *. cbn [items].
      rewrite length_app. cbn [length].
      apply andb_false_iff in Hfull as [Hfull|Hfull].
      + apply Z.ltb_ge in Hfull. lia.
      + apply Z.eqb_neq in Hfull. lia.
    - destruct (rows_step p g) as [[[p' g'] o]|] eqn:Hr; [|discriminate].
      apply rows_step_flags in Hr as (Hm & Hq & _).
      destruct o; injection Hstep as <-; cbn [pipe]; (split; [exact Hm|]);
        intros Hpos; specialize (Hb Hpos); lia. }
  destruct H1 as [Hm1 Hb1].
  destruct (IH c1) as [Hm Hq]; [rewrite Hm1; exact Hb1|].
  rewrite Hm1 in *. auto.
Qed.

Lemma queue_never_exceeds_depth_witness :
  let c := start (Pipe_init 1 2) (map CallPut [[VInt 1]; [VInt 2]; [VInt 3]; [VInt 4]]) in
  let c' := run (replicate 40 Producer) c in
  Z.of_nat (qsize (queue (pipe c'))) <= 2.
Proof.
  intros c c'.
  destruct (queue_never_exceeds_depth (replicate 40 Producer) c) as [_ H].
  - intros _. unfold c, qsize. simpl. lia.
  - apply H. unfold c. simpl. lia.
Defined.

(** X12. Every batch taken is acknowledged.  In every interleaving of a
    writer running any script with a reader iterating [rows()], on a
    queue whose count of unfinished tasks starts at its length, the count
    stays the length of the queue plus one for a batch the reader holds:
    [task_done()] never raises, so the generator never raises, and with
    the queue empty and no batch in hand no task is left unfinished. *)
Theorem rows_acknowledges_batches (sched : list thread) (c : Config) :
  unfinished_tasks (queue (pipe c)) = (qsize (queue (pipe c)) + holding (cpc c))%nat ->
  (forall e, cpc c <> RRaised e) ->
  let c' := run sched c in
  unfinished_tasks (queue (pipe c'))
  = (qsize (queue (pipe c')) + holding (cpc c'))%nat
  /\ (forall e, cpc c' <> RRaised e).
Proof.
  revert c. induction sched as [|t sched IH]; intros c Hu Hr; simpl; [auto|].
  destruct (step t c) as [c1|] eqn:Hstep; [|apply IH; assumption].
  apply IH.
  - destruct c as [p pc s g sn]. destruct t; unfold step in Hstep;
      cbn [pipe ppc script cpc seen] in *.
    + destruct (prod_step p pc s) as [[[p' pc'] s']|] eqn:Hp; [|discriminate].
      injection Hstep as <-. cbn [pipe cpc].
      apply prod_step_queue in Hp as [[->|[_ ->]] _]; [exact Hu|].
      unfold qsize in *. cbn [items unfinished_tasks]. rewrite length_app.
      cbn [length]. lia.
    + unfold qsize in *.
      destruct g as [|b i| | | |e]; cbn [rows_step] in Hstep.
      * unfold Queue_get in Hstep. destruct (items (queue p)) eqn:Hi; [discriminate|].
        injection Hstep as <-. cbn [pipe cpc holding set_queue queue items
                                     unfinished_tasks length] in *. lia.
      * destruct (deref (heap p) b !! i); injection Hstep as <-;
          cbn [pipe cpc holding] in *; lia.
      * unfold Queue_task_done in Hstep.
        destruct (unfinished_tasks (queue p)) eqn:Hun;
          [cbn [holding] in Hu; lia|].
        injection Hstep as <-. cbn [pipe cpc holding set_queue queue items
                                     unfinished_tasks] in *. lia.
      * destruct (finished p && Queue_empty (queue p)); injection Hstep as <-;
          cbn [pipe cpc holding] in *; lia.
      * discriminate.
      * discriminate.
  - intros e He. destruct c as [p pc s g sn]. destruct t; unfold step in Hstep;
      cbn [pipe ppc script cpc seen] in *.
    + destruct (prod_step p pc s) as [[[p' pc'] s']|]; [|discriminate].
      injection Hstep as <-. exact (Hr e He).
    + destruct g as [|b i| | | |e']; cbn [rows_step] in Hstep.
      * unfold Queue_get in Hstep. destruct (items (queue p)); [discriminate|].
        injection Hstep as <-. discriminate He.
      * destruct (deref (heap p) b !! i); injection Hstep as <-; discriminate He.
      * unfold Queue_task_done in Hstep.
        destruct (unfinished_tasks (queue p)) eqn:Hun;
          [cbn [holding] in Hu; lia|].
        injection Hstep as <-. discriminate He.
      * destruct (finished p && Queue_empty (queue p)); injection Hstep as <-;
          discriminate He.
      * discriminate.
      * discriminate.
Qed.

Lemma rows_acknowledges_batches_witness :
  let c := start (Pipe_init 1 0)
                 [CallPut [VInt 1]; CallFlush; CallPut [VInt 2]; CallFlush] in
  let c'' := run [Consumer; Producer; Consumer] c in
  unfinished_tasks (queue (pipe c''))
  = (qsize (queue (pipe c'')) + holding (cpc c''))%nat.
Proof.
  intros c c''.
  apply (rows_acknowledges_batches [Consumer; Producer; Consumer] c).
  - reflexivity.
  - intros e. discriminate.
Defined.

(** ** A reader that stops *)

Lemma prod_step_rank (p p' : Pipe) (pc pc' : prod_pc) (s s' : list call) :
  prod_step p pc s = Some (p', pc', s') ->
  (11 * length s' + prod_rank pc' < 11 * length s + prod_rank pc)%nat.
Proof.
  destruct pc as [|obj| |k|k| |]; cbn [prod_step]; intros H.
  - destruct s as [|[obj|] s]; [discriminate| |].
    + destruct (stop_sending p); injection H as <-; intros; subst; simpl; lia.
    + injection H as <-. intros; subst; simpl; lia.
  - injection H as <-. intros; subst; simpl; lia.
  - destruct (_ <=? _); injection H as <-; intros; subst; simpl; lia.
  - destruct (stop_sending p); injection H as <-; intros; subst;
      destruct k; simpl; lia.
  - unfold Queue_put in H. destruct (Queue_full (queue p)); [discriminate|].
    injection H as <-. intros; subst. destruct k; simpl; lia.
  - injection H as <-. intros; subst; simpl; lia.
  - injection H as <-. intros; subst; simpl; lia.
Qed.

Lemma prod_step_after_stop (p p' : Pipe) (pc pc' : prod_pc) (s s' : list call) :
  after_stop p pc ->
  prod_step p pc s = Some (p', pc', s') ->
  after_stop p' pc'.
Proof.
  unfold after_stop, qsize. intros [Hs Hq].
  destruct pc as [|obj| |k|k| |]; cbn [prod_step]; intros H.
  - destruct s as [|[obj|] s]; [discriminate| |].
    + rewrite Hs in H. injection H as <-. intros. subst. auto.
    + injection H as <-. intros. subst. auto.
  - injection H as <-. intros. subst. simpl. auto.
  - destruct (_ <=? _); injection H as <-; intros; subst; auto.
  - rewrite Hs in H. injection H as <-. intros. subst.
    destruct k; simpl; auto.
  - unfold Queue_put in H. destruct (Queue_full (queue p)); [discriminate|].
    injection H as <-. intros. subst. simpl. rewrite length_app, Hq.
    destruct k; simpl; auto.
  - injection H as <-. intros. subst. unfold new_buffer. simpl. auto.
  - injection H as <-. intros. subst. simpl. auto.
Qed.

Lemma prod_run_after_stop (fuel : nat) :
  forall (p : Pipe) (pc : prod_pc) (s : list call),
    after_stop p pc ->
    (11 * length s + prod_rank pc <= fuel)%nat ->
    exists p', prod_run fuel p pc s = (p', PIdle, []) /\ after_stop p' PIdle.
Proof.
  induction fuel as [|fuel IH]; intros p pc s Ha Hfuel.
  - destruct s; [|simpl in Hfuel; lia].
    destruct pc; simpl in Hfuel; try lia. exists p. auto.
  - cbn [prod_run].
    destruct (prod_step p pc s) as [[[p1 pc1] s1]|] eqn:Hstep.
    + apply (IH p1 pc1 s1).
      * exact (prod_step_after_stop _ _ _ _ _ _ Ha Hstep).
      * pose proof (prod_step_rank _ _ _ _ _ _ Hstep). lia.
    + apply prod_step_None in Hstep as [[-> ->]|(k & -> & Hfull)].
      * exists p. auto.
      * apply Queue_full_not_empty in Hfull. destruct Ha as [_ Hq].
        unfold qsize in Hq. destruct (items (queue p)); [done|discriminate].
Qed.

Lemma stop_sys_keeps (sched : list party) (c : StopConfig) :
  (s_spc c <> SFlag -> stop_sending (s_pipe c) = true) ->
  (s_spc c = SReturned -> after_stop (s_pipe c) (s_ppc c)) ->
  let c' := stop_sys_run sched c in
  (s_spc c' <> SFlag -> stop_sending (s_pipe c') = true)
  /\ (s_spc c' = SReturned -> after_stop (s_pipe c') (s_ppc c')).
Proof.
  revert c. induction sched as [|t sched IH]; intros c H1 H2; simpl; [auto|].
  destruct (stop_sys_step t c) as [c1|] eqn:Hstep; [|apply IH; assumption].
  destruct c as [p pc s spc]. unfold stop_sys_step in Hstep.
  cbn [s_pipe s_ppc s_script s_spc] in *.
  destruct t.
  - destruct (prod_step p pc s) as [[[p' pc'] s']|] eqn:Hp; [|discriminate].
    injection Hstep as <-. apply IH; cbn [s_pipe s_ppc s_script s_spc].
    + intros Hne. apply prod_step_queue in Hp as (_ & Hs & _). auto.
    + intros Hr. exact (prod_step_after_stop _ _ _ _ _ _ (H2 Hr) Hp).
  - destruct spc; cbn [stop_step] in Hstep.
    + injection Hstep as <-. apply IH; cbn [s_pipe s_ppc s_script s_spc].
      * reflexivity.
      * discriminate.
    + unfold Queue_get in Hstep. destruct (items (queue p)) as [|b rest] eqn:Hi;
        injection Hstep as <-; apply IH; cbn [s_pipe s_ppc s_script s_spc].
      * intros _. apply H1. discriminate.
      * intros _. split; [apply H1; discriminate|].
        unfold qsize. rewrite Hi. destruct pc; simpl; lia.
      * intros _. apply H1. discriminate.
      * discriminate.
    + discriminate.
Qed.

(** X13. No writer is left waiting by [stop()].  Whatever the pipe and
    the writer's script, and however the steps of the writer and of the
    reader's [stop()] interleave: once [stop()] has returned the pipe is
    closed for write, and the writer, running on alone, finishes its
    whole script without ever waiting on the queue, within eleven steps
    per call left; in the end the queue holds at most one batch, that of
    a hand-over already past its check when the flag was set. *)
Theorem stop_frees_writer (p : Pipe) (s : list call) (sched : list party)
    (fuel : nat) :
  let c := stop_sys_run sched (mkStopConfig p PIdle s SFlag) in
  s_spc c = SReturned ->
  (11 * length (s_script c) + prod_rank (s_ppc c) <= fuel)%nat ->
  exists p',
    prod_run fuel (s_pipe c) (s_ppc c) (s_script c) = (p', PIdle, [])
    /\ stop_sending p' = true
    /\ (qsize (queue p') <= 1)%nat.
Proof.
  intros c Hr Hfuel.
  destruct (stop_sys_keeps sched (mkStopConfig p PIdle s SFlag)) as [_ H2];
    [intros H; destruct (H eq_refl)|discriminate|].
  destruct (prod_run_after_stop fuel _ _ _ (H2 Hr) Hfuel) as (p' & Hrun & Hs & Hq).
  exists p'. auto.
Qed.

Lemma stop_frees_writer_witness :
  let sched := replicate 12 Writer ++ replicate 4 Stopper in
  let c := stop_sys_run sched
             (mkStopConfig (Pipe_init 1 1) PIdle
                (map CallPut [[VInt 1]; [VInt 2]; [VInt 3]]) SFlag) in
  exists p',
    prod_run 40 (s_pipe c) (s_ppc c) (s_script c) = (p', PIdle, [])
    /\ stop_sending p' = true
    /\ (qsize (queue p') <= 1)%nat.
Proof.
  intros sched c.
  apply (stop_frees_writer (Pipe_init 1 1)
           (map CallPut [[VInt 1]; [VInt 2]; [VInt 3]]) sched 40).
  - reflexivity.
  - vm_compute. lia.
Defined.

Lemma stop_step_flags (p p' : Pipe) (pc pc' : stop_pc) :
  stop_step p pc = Some (p', pc') ->
  (stop_sending p = true -> stop_sending p' = true)
  /\ finished p' = finished p.
Proof.
  destruct pc; cbn [stop_step]; intros H.
  - injection H as <-. auto.
  - unfold Queue_get in H. destruct (items (queue p)); injection H as <-; auto.
  - discriminate.
Qed.

Lemma Pipe_call_flags (c : call) (p p' : Pipe) :
  Pipe_call c p = Return p' ->
  stop_sending p' = stop_sending p
  /\ (finished p = true -> finished p' = true).
Proof.
  destruct c as [obj|]; simpl.
  - unfold Pipe_put, Pipe__send_buffer, Queue_put.
    destruct (stop_sending p) eqn:Hs; [intros [= <-]; auto|].
    destruct (_ <=? _); [|intros [= <-]; auto].
    simpl. rewrite Hs. destruct (Queue_full _); simpl; [discriminate|].
    intros [= <-]. auto.
  - intros H. apply Pipe_flush_Return in H as (Hf & _ & _ & Hs & _). auto.
Qed.

(** X14. The two flags only ever go up.  No call that returns ([put],
    [flush], [stop]) and no step of a writer, of a reader iterating
    [rows()] or of a reader in [stop()], in any interleaving, clears
    [stop_sending] once it is set, or [finished] once it is set. *)
Theorem flags_never_reset :
  (forall cs p p', Pipe_calls cs p = Return p' ->
     stop_sending p' = stop_sending p
     /\ (finished p = true -> finished p' = true))
  /\ (forall p, stop_sending (Pipe_stop p) = true
               /\ finished (Pipe_stop p) = finished p)
  /\ (forall sched c,
        (stop_sending (pipe c) = true -> stop_sending (pipe (run sched c)) = true)
        /\ (finished (pipe c) = true -> finished (pipe (run sched c)) = true))
  /\ (forall sched c,
        (stop_sending (s_pipe c) = true ->
         stop_sending (s_pipe (stop_sys_run sched c)) = true)
        /\ (finished (s_pipe c) = true ->
            finished (s_pipe (stop_sys_run sched c)) = true)).
Proof.
  split; [|split; [|split]].
  - intros cs. induction cs as [|c cs IH]; intros p p'; simpl.
    + intros [= <-]. auto.
    + destruct (Pipe_call c p) as [p1|e p1|p1] eqn:Hc; simpl; try discriminate.
      intros Hrest. apply Pipe_call_flags in Hc as [Hs Hf].
      destruct (IH p1 p' Hrest) as [Hs' Hf']. split; [congruence|auto].
  - intros p. split; reflexivity.
  - intros sched. induction sched as [|t sched IH]; intros c; simpl; [auto|].
    destruct (step t c) as [c1|] eqn:Hstep; [|apply IH].
    assert (H1 : (stop_sending (pipe c) = true -> stop_sending (pipe c1) = true)
                 /\ (finished (pipe c) = true -> finished (pipe c1) = true)).
    { destruct c as [p pc s g sn]. destruct t; unfold step in Hstep;
        cbn [pipe ppc script cpc seen] in *.
      - destruct (prod_step p pc s) as [[[p' pc'] s']|] eqn:Hp; [|discriminate].
        injection Hstep as <-. apply prod_step_queue in Hp as (_ & Hs & Hf). auto.
      - destruct (rows_step p g) as [[[p' g'] o]|] eqn:Hr; [|discriminate].
        apply rows_step_flags in Hr as (_ & _ & Hs & Hf).
        destruct o; injection Hstep as <-; cbn [pipe]; rewrite Hs, Hf; auto. }
    destruct (IH c1) as [Hs Hf]. destruct H1. auto.
  - intros sched. induction sched as [|t sched IH]; intros c; simpl; [auto|].
    destruct (stop_sys_step t c) as [c1|] eqn:Hstep; [|apply IH].
    assert (H1 : (stop_sending (s_pipe c) = true -> stop_sending (s_pipe c1) = true)
                 /\ (finished (s_pipe c) = true -> finished (s_pipe c1) = true)).
    { destruct c as [p pc s spc]. destruct t; unfold stop_sys_step in Hstep;
        cbn [s_pipe s_ppc s_script s_spc] in *.
      - destruct (prod_step p pc s) as [[[p' pc'] s']|] eqn:Hp; [|discriminate].
        injection Hstep as <-. apply prod_step_queue in Hp as (_ & Hs & Hf). auto.
      - destruct (stop_step p spc) as [[p' spc']|] eqn:Hr; [|discriminate].
        injection Hstep as <-. apply stop_step_flags in Hr as [Hs Hf].
        cbn [s_pipe]. rewrite Hf. auto. }
    destruct (IH c1) as [Hs Hf]. destruct H1. auto.
Qed.

Lemma flags_never_reset_witness :
  let c := start (Pipe_stop (Pipe_init 1 1)) [CallPut [VInt 1]; CallFlush] in
  stop_sending (pipe (run [Producer; Consumer; Producer; Producer] c)) = true.
Proof.
  intros c.
  destruct flags_never_reset as (_ & _ & H & _).
  apply (H [Producer; Consumer; Producer; Producer] c). reflexivity.
Defined.

(** ** [stop()] while the writer runs *)

(** Once [stop()] has returned with no hand-over of the writer in
    flight, the queue stays empty: the writer, whatever it goes on to
    call, finds the flag at its check and queues nothing. *)
Lemma stop_sys_quiet (sched : list party) (c : StopConfig) :
  s_spc c = SReturned ->
  stop_sending (s_pipe c) = true ->
  (forall k, s_ppc c <> PQueuePut k) ->
  items (queue (s_pipe c)) = [] ->
  items (queue (s_pipe (stop_sys_run sched c))) = [].
Proof.
  revert c. induction sched as [|t sched IH]; intros c Hr Hs Hpc Hq; simpl; [exact Hq|].
  destruct (stop_sys_step t c) as [c1|] eqn:Hstep; [|apply IH; assumption].
  destruct c as [p pc s spc]. unfold stop_sys_step in Hstep.
  cbn [s_pipe s_ppc s_script s_spc] in *. subst spc.
  destruct t; [|discriminate].
  destruct (prod_step p pc s) as [[[p' pc'] s']|] eqn:Hp; [|discriminate].
  injection Hstep as <-.
  assert (H : stop_sending p' = true /\ (forall k, pc' <> PQueuePut k)
              /\ items (queue p') = []).
  { destruct pc as [|obj| |k|k| |]; cbn [prod_step] in Hp.
    - destruct s as [|[obj|] s]; [discriminate| |].
      + rewrite Hs in Hp. injection Hp as <- <- <-. auto.
      + injection Hp as <- <- <-. repeat split; auto; discriminate.
    - injection Hp as <- <- <-. repeat split; auto; discriminate.
    - destruct (_ <=? _); injection Hp as <- <- <-; repeat split; auto; discriminate.
    - rewrite Hs in Hp. injection Hp as <- <- <-.
      repeat split; auto; destruct k; discriminate.
    - destruct (Hpc k eq_refl).
    - injection Hp as <- <- <-. repeat split; auto; discriminate.
    - injection Hp as <- <- <-. repeat split; auto; discriminate. }
  destruct H as (Hs' & Hpc' & Hq').
  apply IH; cbn [s_pipe s_ppc s_script s_spc]; auto.
Qed.

(** Counterexample to C4 as stated: on [Pipe(1, 1)] the writer puts two
    rows; its second hand-over waits on the full queue, past its check
    of [stop_sending], when the reader calls [stop()].  [stop()] empties
    the queue and returns; the hand-over then goes through, and the
    batch stays in the queue of the stopped pipe. *)
Lemma stop_leaves_batch_in_flight :
  ~ (forall (p : Pipe) (s : list call) (sched : list party),
       let c := stop_sys_run sched (mkStopConfig p PIdle s SFlag) in
       s_spc c = SReturned -> qsize (queue (s_pipe c)) = 0%nat).
Proof.
  intros H.
  specialize (H (Pipe_init 1 1) [CallPut [VInt 1]; CallPut [VInt 2]]
                (replicate 11 Writer ++ replicate 3 Stopper ++ replicate 3 Writer)
                eq_refl).
  vm_compute in H. discriminate H.
Qed.

(** C4, amended. [Pipe.stop()] sets the [stop_sending] flag first and
    then removes the batches from the queue, oldest first, until
    [get_nowait] finds it empty; it clears neither the rows in the
    writer's buffer nor the queue's count of unfinished tasks.  With the
    writer running any script at the same time, in every interleaving:
    the flag is set before anything is removed and stays set; at the
    step by which [stop()] returns the queue is empty; from then on the
    queue stays empty if no hand-over of the writer stands at
    [queue.put] at that moment, and otherwise holds at most one batch,
    the one of that hand-over, which had passed its check of the flag. *)
Theorem stop_drains_but_for_hand_over_in_flight
    (p : Pipe) (s : list call) (sched : list party) :
  let c := stop_sys_run sched (mkStopConfig p PIdle s SFlag) in
  (stop_step p SFlag = Some (set_stop_sending p true, SDrain)
   /\ (forall k, (k <= qsize (queue p))%nat ->
         (fun st => items (queue st.1))
           <$> (stop_trace (S (S (qsize (queue p)))) p SFlag !! k)
         = Some (drop k (items (queue p))))
   /\ last (stop_trace (S (S (qsize (queue p)))) p SFlag)
      = Some (Pipe_stop p, SReturned)
   /\ stop_sending (Pipe_stop p) = true
   /\ items (queue (Pipe_stop p)) = []
   /\ buffered (Pipe_stop p) = buffered p
   /\ unfinished_tasks (queue (Pipe_stop p)) = unfinished_tasks (queue p))
  /\ (s_spc c <> SFlag -> stop_sending (s_pipe c) = true)
  /\ (forall c', stop_sys_step Stopper c = Some c' ->
        (s_spc c = SFlag ->
         s_spc c' = SDrain /\ stop_sending (s_pipe c') = true
         /\ queue (s_pipe c') = queue (s_pipe c))
        /\ (s_spc c' = SReturned ->
            stop_sending (s_pipe c') = true
            /\ items (queue (s_pipe c')) = []
            /\ buffered (s_pipe c') = buffered (s_pipe c)
            /\ unfinished_tasks (queue (s_pipe c'))
               = unfinished_tasks (queue (s_pipe c))
            /\ ((forall k, s_ppc c' <> PQueuePut k) ->
                forall sched',
                  items (queue (s_pipe (stop_sys_run sched' c'))) = [])))
  /\ (s_spc c = SReturned ->
      (qsize (queue (s_pipe c)) <= 1)%nat
      /\ (forall k, s_ppc c = PQueuePut k -> qsize (queue (s_pipe c)) = 0%nat)).
Proof.
  intros c.
  destruct (stop_sys_keeps sched (mkStopConfig p PIdle s SFlag)) as [H1 H2];
    [intros H; destruct (H eq_refl)|discriminate|].
  fold c in H1, H2.
  split; [|split; [exact H1|split]].
  - destruct (stop_alone p) as (Ha & _ & Ht & Hb & Hc & Hd & _ & _ & He & Hf).
    auto 10.
  - intros c' Hstep. unfold stop_sys_step in Hstep.
    destruct (stop_step (s_pipe c) (s_spc c)) as [[p' spc']|] eqn:Hst; [|discriminate].
    injection Hstep as <-. cbn [s_pipe s_ppc s_script s_spc].
    destruct (s_spc c) eqn:Hspc; cbn [stop_step] in Hst.
    + injection Hst as <- <-. split; [auto|discriminate].
    + split; [discriminate|]. intros ->.
      unfold Queue_get in Hst.
      destruct (items (queue (s_pipe c))) as [|b rest] eqn:Hi; [|discriminate].
      injection Hst as <-.
      assert (Hs : stop_sending (s_pipe c) = true) by (apply H1; discriminate).
      split; [exact Hs|]. split; [exact Hi|]. split; [reflexivity|].
      split; [reflexivity|].
      intros Hpc sched'.
      apply (stop_sys_quiet sched'
               (mkStopConfig (s_pipe c) (s_ppc c) (s_script c) SReturned));
        auto.
    + discriminate.
  - intros Hr. destruct (H2 Hr) as [_ Hq]. split.
    + destruct (s_ppc c); lia.
    + intros k Hk. rewrite Hk in Hq. exact Hq.
Qed.

Lemma stop_drains_but_for_hand_over_in_flight_witness :
  let c := stop_sys_run (replicate 11 Writer ++ replicate 3 Stopper
                         ++ replicate 3 Writer)
             (mkStopConfig (Pipe_init 1 1) PIdle
                [CallPut [VInt 1]; CallPut [VInt 2]] SFlag) in
  s_spc c = SReturned /\ (qsize (queue (s_pipe c)) <= 1)%nat.
Proof.
  intros c. split; [reflexivity|].
  destruct (stop_drains_but_for_hand_over_in_flight (Pipe_init 1 1)
              [CallPut [VInt 1]; CallPut [VInt 2]]
              (replicate 11 Writer ++ replicate 3 Stopper ++ replicate 3 Writer))
    as (_ & _ & _ & H).
  apply H. reflexivity.
Defined.

(** ** Configuration of a node *)

Lemma attributes_fold_lookup (infos : list attribute_info)
    (m : gmap string attribute_info) (k : string) :
  match fold_left (fun m a => <[attr_name a := a]> m) infos m !! k with
  | Some info => (info ∈ infos /\ attr_name info = k) \/ m !! k = Some info
  | None => m !! k = None /\ forall a, a ∈ infos -> attr_name a <> k
  end.
Proof.
  revert m. induction infos as [|a infos IH]; intros m; simpl.
  - destruct (m !! k); [auto|]. split; [reflexivity|]. intros a Ha. inversion Ha.
  - specialize (IH (<[attr_name a := a]> m)).
    destruct (fold_left _ infos _ !! k) as [info|].
    + destruct IH as [[Hin Hn]|Hm]; [left; split; [right; exact Hin|exact Hn]|].
      destruct (decide (attr_name a = k)) as [Heq|Hne].
      * rewrite <- Heq, lookup_insert_eq in Hm. injection Hm as <-.
        left. split; [left|exact Heq].
      * rewrite lookup_insert_ne in Hm by exact Hne. auto.
    + destruct IH as [Hm Hall].
      destruct (decide (attr_name a = k)) as [Heq|Hne].
      * rewrite <- Heq, lookup_insert_eq in Hm. discriminate.
      * rewrite lookup_insert_ne in Hm by exact Hne. split; [exact Hm|].
        intros a' Ha'. apply elem_of_cons in Ha' as [->|Ha']; auto.
Qed.

Lemma attributes_dict_lookup (infos : list attribute_info) (k : string) :
  match attributes_dict infos !! k with
  | Some info => info ∈ infos /\ attr_name info = k
  | None => forall a, a ∈ infos -> attr_name a <> k
  end.
Proof.
  unfold attributes_dict.
  pose proof (attributes_fold_lookup infos ∅ k) as H.
  destruct (fold_left _ infos ∅ !! k).
  - destruct H as [H|H]; [exact H|]. rewrite lookup_empty in H. discriminate.
  - apply H.
Qed.

Lemma attributes_dict_declared (infos : list attribute_info) (k : string) :
  is_Some (attributes_dict infos !! k)
  <-> exists a, a ∈ infos /\ attr_name a = k.
Proof.
  pose proof (attributes_dict_lookup infos k) as H.
  destruct (attributes_dict infos !! k) as [info|]; split.
  - intros _. exists info. exact H.
  - eauto.
  - intros [? [=]].
  - intros (a & Ha & Hn). destruct (H a Ha Hn).
Qed.





Lemma configure_loop_protected_eq (atts : gmap string attribute_info)
    (settable : string -> bool) (config : list (string * value)) :
  forall attrs : gmap string value,
    (forall k info, k ∈ config.*1 -> atts !! k = Some info ->
                    attr_protected info = false) ->
    Node_configure_loop atts settable true config attrs
    = Node_configure_loop atts settable false config attrs.
Proof.
  induction config as [|[k0 v0] rest IH]; intros attrs Hfree; simpl; [reflexivity|].
  destruct (atts !! k0) as [info|] eqn:Hk0.
  - rewrite (Hfree k0 info) by (simpl; first [left|assumption]). simpl.
    destruct (settable k0); [|reflexivity].
    apply IH. intros k info' Hk. apply Hfree. right. exact Hk.
  - apply IH. intros k info' Hk. apply Hfree. right. exact Hk.
Qed.

Lemma configure_loop_protected_raise (atts : gmap string attribute_info)
    (settable : string -> bool) (config : list (string * value)) :
  forall attrs : gmap string value,
    (exists k info, k ∈ config.*1 /\ atts !! k = Some info
                    /\ attr_protected info = true) ->
    (forall k, k ∈ config.*1 -> is_Some (atts !! k) -> settable k = true) ->
    exists attrs',
      Node_configure_loop atts settable true config attrs
      = Raise (Exception "Trying to set protected attribute '%s' of node '%s'") attrs'.
Proof.
  induction config as [|[k0 v0] rest IH];
    intros attrs (k & info & Hk & Hinfo & Hp) Hset.
  - inversion Hk.
  - assert (Hset' : forall k, k ∈ rest.*1 -> is_Some (atts !! k) -> settable k = true).
    { intros k' Hk'. apply Hset. right. exact Hk'. }
    simpl. destruct (atts !! k0) as [info0|] eqn:Hk0.
    + destruct (attr_protected info0) eqn:Hp0; simpl; [eauto|].
      rewrite (Hset k0) by (simpl; first [left|rewrite Hk0; eauto]).
      apply IH; [|exact Hset']. exists k, info. split; [|auto].
      simpl in Hk. apply elem_of_cons in Hk as [->|Hk]; [|exact Hk]. congruence.
    + apply IH; [|exact Hset']. exists k, info. split; [|auto].
      simpl in Hk. apply elem_of_cons in Hk as [->|Hk]; [|exact Hk]. congruence.
Qed.

(** In protected mode no attribute declared as protected is written,
    however the call ends. *)
Lemma configure_loop_protected_safe (atts : gmap string attribute_info)
    (settable : string -> bool) (config : list (string * value))
    (k : string) (info : attribute_info) :
  atts !! k = Some info ->
  attr_protected info = true ->
  forall attrs : gmap string value,
    outcome_state (Node_configure_loop atts settable true config attrs) !! k
    = attrs !! k.
Proof.
  intros Hk Hp.
  induction config as [|[k0 v0] rest IH]; intros attrs; simpl; [reflexivity|].
  destruct (atts !! k0) as [info0|] eqn:Hk0; [|apply IH].
  destruct (attr_protected info0) eqn:Hp0; simpl; [reflexivity|].
  destruct (settable k0); [|reflexivity].
  rewrite IH. apply lookup_insert_ne. intros ->. congruence.
Qed.

(** X16. [configure] with [protected] never writes an attribute declared
    as protected, whether it returns or raises.  When some key of
    [config] is the name of a protected attribute, and [setattr] accepts
    the declared keys, it raises the exception for a protected
    attribute; when no key is, it does what [configure] does without
    [protected]. *)
Theorem configure_protected (infos : list attribute_info)
    (settable : string -> bool)
    (config : list (string * value)) (attrs : gmap string value) :
  (forall k info,
     attributes_dict infos !! k = Some info -> attr_protected info = true ->
     outcome_state (Node_configure (Some infos) settable config true attrs) !! k
     = attrs !! k)
  /\ ((exists k info, k ∈ config.*1 /\ attributes_dict infos !! k = Some info
                      /\ attr_protected info = true) ->
      (forall k, k ∈ config.*1 -> (exists a, a ∈ infos /\ attr_name a = k) ->
                 settable k = true) ->
      exists attrs',
        Node_configure (Some infos) settable config true attrs
        = Raise (Exception "Trying to set protected attribute '%s' of node '%s'") attrs')
  /\ ((forall k info, k ∈ config.*1 -> attributes_dict infos !! k = Some info ->
                      attr_protected info = false) ->
      Node_configure (Some infos) settable config true attrs
      = Node_configure (Some infos) settable config false attrs)
  /\ ((forall a, a ∈ infos -> attr_protected a = false) ->
      Node_configure (Some infos) settable config true attrs
      = Node_configure (Some infos) settable config false attrs).
Proof.
  unfold Node_configure. split; [|split; [|split]].
  - intros k info Hk Hp. apply (configure_loop_protected_safe _ _ _ k info Hk Hp).
  - intros Hex Hset. apply configure_loop_protected_raise; [exact Hex|].
    intros k Hk Hd. apply Hset; [exact Hk|]. apply attributes_dict_declared, Hd.
  - apply configure_loop_protected_eq.
  - intros Hall. apply configure_loop_protected_eq. intros k info _ Hk.
    pose proof (attributes_dict_lookup infos k) as H. rewrite Hk in H.
    apply Hall, H.
Qed.

Lemma configure_protected_witness :
  let settable := fun name => negb (bool_decide (name ∈ Node_properties)) in
  exists attrs',
    Node_configure (Some [mkAttribute "resource" false; mkAttribute "table" true])
                   settable
                   [("resource"%string, VStr "data.csv"); ("table"%string, VStr "t")]
                   true ∅
    = Raise (Exception "Trying to set protected attribute '%s' of node '%s'") attrs'.
Proof.
  intros settable.
  destruct (configure_protected
              [mkAttribute "resource" false; mkAttribute "table" true]
              settable
              [("resource"%string, VStr "data.csv"); ("table"%string, VStr "t")] ∅)
    as (_ & H & _).
  apply H.
  - exists "table"%string, (mkAttribute "table" true).
    split; [simpl; right; left|]. split; reflexivity.
  - intros k Hk (a & Ha & Hn). simpl in Ha.
    repeat (apply elem_of_cons in Ha as [->|Ha]); [| |inversion Ha];
      simpl in Hn; subst k; reflexivity.
Defined.
